(** * orca_prusa: inheritance resolution, profile comparison and the
      converter registry, embedded from the Python sources.

    The first part holds the definitions, one module per source file:
    - [Py]               the Python built-ins the sources rely on
    - [ConfigParserM]    the part of [configparser.ConfigParser] that
                         compare_coreone_profiles.py uses
    - [CompareCoreone]   compare_coreone_profiles.py
    - [Base]             converters/base.py
    - [ProfileParserM]   profile_parser.py
    - [ProfileConverters] converters/profile_converters.py
    - [ProfileDifferM]   profile_differ.py
    - [Inputs]           the concrete data of the examples
    - [Descendants]      the children relation of an inheritance tree
    - [ParserDefs]       the kinds of lines that profile_parser.py tells apart
    - [NumberDefs]       the integers that the number strings compared by
                         profile_differ.py write
    - [DifferInheritance] [resolve_inheritance] of profile_differ.py
    - [OrcaDefaults]     converters/orca_defaults.py and
                         [_generate_model_id] of profile_converters.py
    - [DifferInputs], [ConverterInputs]  more data of the examples
    The second part holds the properties: termination and precedence of
    the resolvers, the registration and conversion rules of the registry,
    the change classification, and the value comparison of the differ.

    Python dictionaries that are only read through lookups are [gmap]s,
    sets are [gset]s; dictionaries whose iteration order is observable
    (a section's options, the input of [convert_dict]) are association
    lists in insertion order.  A Python string is kept as its UTF-8
    encoding (a lone surrogate encoded like any other code point), and
    [strip], [int] and [float] read it character by character, with the
    white space and the decimal digits of Unicode 14.0 as Python 3.11
    has them, and with the limit of 4300 digits that [int] has there. *)

From Stdlib Require Import ZArith.
From stdpp Require Import base option list gmap strings relations sorting.
From Stdlib Require Import Ascii.

Local Open Scope stdpp_scope.
#[local] Set Warnings "-register-all,-clear-no-such-hyp".

(* ===================================================================== *)
(** ** Python built-ins *)
(* ===================================================================== *)
Module Py.

(** *** Text

    A Python [str] is kept as its UTF-8 encoding, one [ascii] per byte.
    Searching, splitting and ordering work on the encoding as they do on
    the characters.  What depends on the kind of a character ([strip],
    [int], [float]) reads whole characters with [code_point]; the tables
    of white space and of decimal digits are those of Unicode 14.0, which
    Python 3.11 carries. *)
Definition byte (c : ascii) : Z := Z.of_nat (nat_of_ascii c).

Definition continuation (c : ascii) : bool :=
  ((128 <=? byte c) && (byte c <? 192))%Z.

(** The character that a string starts with: its code point and the
    number of bytes of its encoding.  [None] for the empty string and
    for bytes that start no character. *)
Definition code_point (s : string) : option (Z * nat) :=
  match s with
  | EmptyString => None
  | String a r =>
      if (byte a <? 128)%Z then Some (byte a, 1)
      else if (byte a <? 192)%Z then None
      else if (byte a <? 224)%Z then
        match r with
        | String b _ =>
            if continuation b
            then Some (((byte a - 192) * 64 + (byte b - 128))%Z, 2)
            else None
        | _ => None
        end
      else if (byte a <? 240)%Z then
        match r with
        | String b (String c _) =>
            if continuation b && continuation c
            then Some (((byte a - 224) * 4096 + (byte b - 128) * 64
                        + (byte c - 128))%Z, 3)
            else None
        | _ => None
        end
      else if (byte a <? 248)%Z then
        match r with
        | String b (String c (String d _)) =>
            if continuation b && continuation c && continuation d
            then Some (((byte a - 240) * 262144 + (byte b - 128) * 4096
                        + (byte c - 128) * 64 + (byte d - 128))%Z, 4)
            else None
        | _ => None
        end
      else None
  end.

(** The character that a string ends with, read off the reversed
    string: the last one, two, three or four bytes that make up one
    character. *)
Definition last_code_point (reversed : string) : option (Z * nat) :=
  match reversed with
  | EmptyString => None
  | String a r1 =>
      if (byte a <? 128)%Z then Some (byte a, 1)
      else
        match r1 with
        | EmptyString => None
        | String b r2 =>
            match code_point (String b (String a EmptyString)) with
            | Some (cp, 2) => Some (cp, 2)
            | _ =>
                match r2 with
                | EmptyString => None
                | String c r3 =>
                    match code_point
                            (String c (String b (String a EmptyString))) with
                    | Some (cp, 3) => Some (cp, 3)
                    | _ =>
                        match r3 with
                        | EmptyString => None
                        | String d _ =>
                            match code_point
                                    (String d (String c (String b
                                       (String a EmptyString)))) with
                            | Some (cp, 4) => Some (cp, 4)
                            | _ => None
                            end
                        end
                    end
                end
            end
        end
  end.

(** [c.isspace()] for the character with code point [cp]: TAB to CR,
    the four separators 0x1c-0x1f, the blank, NEL, the no-break space
    and the spaces and line separators beyond U+00FF. *)
Definition isspace (cp : Z) : bool :=
  (((9 <=? cp) && (cp <=? 13)) || ((28 <=? cp) && (cp <=? 32))
   || (cp =? 133) || (cp =? 160) || (cp =? 5760)
   || ((8192 <=? cp) && (cp <=? 8202))
   || (cp =? 8232) || (cp =? 8233) || (cp =? 8239) || (cp =? 8287)
   || (cp =? 12288))%Z.

Definition ascii_eqb (a b : ascii) : bool := bool_decide (a = b).

(** Drop the characters at the head of [s] that satisfy [p].  [head]
    reads one character, and [skip] counts the bytes of a dropped
    character that are still to be passed. *)
Fixpoint strip_go (head : string → option (Z * nat)) (p : Z → bool)
    (skip : nat) (s : string) : string :=
  match s with
  | EmptyString => EmptyString
  | String _ s' =>
      match skip with
      | S k => strip_go head p k s'
      | O =>
          match head s with
          | Some (cp, w) => if p cp then strip_go head p (pred w) s' else s
          | None => s
          end
      end
  end.

Definition lstrip_where (p : Z → bool) (s : string) : string :=
  strip_go code_point p 0 s.

Definition rstrip_where (p : Z → bool) (s : string) : string :=
  String.rev (strip_go last_code_point p 0 (String.rev s)).

Fixpoint lstrip_with (p : ascii → bool) (s : string) : string :=
  match s with
  | EmptyString => EmptyString
  | String c s' => if p c then lstrip_with p s' else s
  end.

Fixpoint rstrip_with (p : ascii → bool) (s : string) : string :=
  match s with
  | EmptyString => EmptyString
  | String c s' =>
      match rstrip_with p s' with
      | EmptyString => if p c then EmptyString else String c EmptyString
      | r => String c r
      end
  end.

(** [s.strip()] *)
Definition strip (s : string) : string :=
  rstrip_where isspace (lstrip_where isspace s).

(** [s.strip(c)] for a one-character argument *)
Definition strip_char (c : ascii) (s : string) : string :=
  rstrip_with (ascii_eqb c) (lstrip_with (ascii_eqb c) s).

(** [s.startswith(p)] *)
Fixpoint startswith (p s : string) : bool :=
  match p, s with
  | EmptyString, _ => true
  | String a p', String b s' => ascii_eqb a b && startswith p' s'
  | String _ _, EmptyString => false
  end.

(** [s.endswith(p)] *)
Definition endswith (p s : string) : bool :=
  startswith (String.rev p) (String.rev s).

(** [p in s] on strings *)
Fixpoint contains (p s : string) : bool :=
  startswith p s ||
  match s with
  | EmptyString => false
  | String _ s' => contains p s'
  end.

(** [s.split(sep)] for a one-character separator: never empty *)
Fixpoint split (sep : ascii) (s : string) : list string :=
  match s with
  | EmptyString => [EmptyString]
  | String c s' =>
      if ascii_eqb c sep then EmptyString :: split sep s'
      else match split sep s' with
           | w :: ws => String c w :: ws
           | [] => [String c EmptyString]
           end
  end.

(** [s.split(sep, 1)] when [sep in s]: the text before and after the
    first separator; [None] when the separator does not occur. *)
Fixpoint split_once (sep : ascii) (s : string) : option (string * string) :=
  match s with
  | EmptyString => None
  | String c s' =>
      if ascii_eqb c sep then Some (EmptyString, s')
      else match split_once sep s' with
           | Some (a, b) => Some (String c a, b)
           | None => None
           end
  end.

(** [s.upper()] as far as the test ['@COREONE' in s.upper()] looks at
    it, its only use: the letters a to z are raised and every other
    byte is kept.  No character beyond ASCII has an upper case with one
    of the characters of [@COREONE] in it, but for U+0149, whose upper
    case puts U+02BC before its N. *)
Definition upper_ascii (c : ascii) : ascii :=
  let n := nat_of_ascii c in
  if (97 <=? n) && (n <=? 122) then ascii_of_nat (n - 32) else c.

Fixpoint upper (s : string) : string :=
  match s with
  | EmptyString => EmptyString
  | String c s' => String (upper_ascii c) (upper s')
  end.

(** Truthiness of a string: [bool(s)] *)
Definition truthy (s : string) : bool := negb (bool_decide (s = "")).

(** Lookup in an insertion-ordered dictionary kept as a list of items. *)
Fixpoint assoc {V} (k : string) (l : list (string * V)) : option V :=
  match l with
  | [] => None
  | (k', v) :: l' => if bool_decide (k' = k) then Some v else assoc k l'
  end.

Definition keys {V} (l : list (string * V)) : list string := l.*1.

(** [d[k] = v] on an insertion-ordered dictionary: an existing key keeps
    its place, a new key goes last. *)
Fixpoint dict_set {V} (k : string) (v : V) (l : list (string * V))
  : list (string * V) :=
  match l with
  | [] => [(k, v)]
  | (k', v') :: l' =>
      if bool_decide (k' = k) then (k, v) :: l' else (k', v') :: dict_set k v l'
  end.

(** [sorted(s)] for a set of strings *)
Definition sorted (s : gset string) : list string :=
  merge_sort String.le (elements s).

(** What a call may do instead of returning. *)
Inductive exception :=
| ValueError
| RecursionError
| IndexError
| AttributeError.

Inductive outcome (A : Type) :=
| Returned (a : A)
| Raised (e : exception).
Arguments Returned {A} a.
Arguments Raised {A} e.

(** A loop [for x in l: body(x)] over a state that may fail. *)
Fixpoint for_each {A S} (body : A → S → option S) (l : list A) (s : S)
  : option S :=
  match l with
  | [] => Some s
  | x :: l' => match body x s with
               | Some s' => for_each body l' s'
               | None => None
               end
  end.

End Py.

(* ===================================================================== *)
(** ** configparser.ConfigParser, as read from a file *)
(* ===================================================================== *)
Module ConfigParserM.
Import Py.

Definition default_section : string := "DEFAULT".

(** What [ConfigParser.read] guarantees about its two tables: they are
    dictionaries (no key twice), a section header is never empty, the
    DEFAULT header fills [_defaults] instead of [_sections], and an
    option name is never empty. *)
Definition nodup_keys {V} (l : list (string * V)) : bool :=
  bool_decide (NoDup (keys l)).

Definition nonempty_keys {V} (l : list (string * V)) : bool :=
  forallb truthy (keys l).

Definition well_formed (defaults : list (string * string))
    (sects : list (string * list (string * string))) : bool :=
  nodup_keys defaults && nonempty_keys defaults &&
  nodup_keys sects && nonempty_keys sects &&
  negb (bool_decide (default_section ∈ keys sects)) &&
  forallb (λ s, nodup_keys s.2 && nonempty_keys s.2) sects.

Record ConfigParser := {
  _defaults : list (string * string);
  _sections : list (string * list (string * string));
  _wf : Is_true (well_formed _defaults _sections)
}.

(** [config.sections()] *)
Definition sections (cfg : ConfigParser) : list string :=
  keys (_sections cfg).

Definition has_section (cfg : ConfigParser) (section : string) : bool :=
  bool_decide (section ∈ sections cfg).

(** [name in config] *)
Definition contains_section (cfg : ConfigParser) (key : string) : bool :=
  bool_decide (key = default_section) || has_section cfg key.

(** The dictionary of the section itself ([{}] for DEFAULT, as in
    [_unify_values]). *)
Definition sectiondict (cfg : ConfigParser) (section : string)
  : list (string * string) :=
  default (@nil (string * string)) (assoc section (_sections cfg)).

Definition has_option (cfg : ConfigParser) (section optname : string) : bool :=
  if negb (truthy section) || bool_decide (section = default_section)
  then bool_decide (optname ∈ keys (_defaults cfg))
  else if negb (has_section cfg section) then false
  else bool_decide (optname ∈ keys (sectiondict cfg section))
       || bool_decide (optname ∈ keys (_defaults cfg)).

(** [config[section][option]]: the section's own value first, then the
    default (the ChainMap of [_unify_values]). *)
Definition get (cfg : ConfigParser) (section optname : string)
  : option string :=
  match assoc optname (sectiondict cfg section) with
  | Some v => Some v
  | None => assoc optname (_defaults cfg)
  end.

(** [SectionProxy._options]: the section's own keys, then the default
    keys it does not define. *)
Definition options (cfg : ConfigParser) (section : string) : list string :=
  if bool_decide (section = default_section) then keys (_defaults cfg)
  else keys (sectiondict cfg section) ++
       List.filter (λ k, negb (bool_decide (k ∈ keys (sectiondict cfg section))))
                   (keys (_defaults cfg)).

(** [config[section].items()] *)
Definition items (cfg : ConfigParser) (section : string)
  : list (string * string) :=
  omap (λ k, (λ v, (k, v)) <$> get cfg section k) (options cfg section).

End ConfigParserM.

(* ===================================================================== *)
(** ** compare_coreone_profiles.py *)
(* ===================================================================== *)
Module CompareCoreone.
Import Py ConfigParserM.

(** *** class ProfileParser *)

(** [get_sections_by_type]: the sections whose name starts with
    [section_type + ':'] *)
Definition get_sections_by_type (cfg : ConfigParser) (section_type : string)
  : list string :=
  List.filter (startswith (section_type +:+ ":")) (sections cfg).

Definition get_coreone_sections (cfg : ConfigParser) (section_type : string)
  : list string :=
  List.filter (λ s, contains "@COREONE" (upper s))
              (get_sections_by_type cfg section_type).

(** [[p.strip() for p in inherits_value.split(';')]] *)
Definition parent_names (inherits_value : string) : list string :=
  strip <$> split ";" inherits_value.

(** The sections one entry of the [inherits] list stands for.  A name
    between two stars is a template pattern and stands for every section
    whose name contains the pattern and starts with a star; any other
    name stands for the section of that name or, failing that, for the
    section [type:name] with the type of the inheriting section.  The
    final [if full_name:] is a truth test on the string. *)
Definition expand_parent (cfg : ConfigParser)
    (current_section parent_name : string) : list string :=
  if startswith "*" parent_name && endswith "*" parent_name then
    let pattern := strip_char "*" parent_name in
    List.filter (λ s, contains pattern s && startswith "*" s) (sections cfg)
  else
    let full_name :=
      if contains_section cfg parent_name then Some parent_name
      else
        let section_type := List.hd "" (split ":" current_section) in
        let candidate := section_type +:+ ":" +:+ parent_name in
        if contains_section cfg candidate then Some candidate else None in
    match full_name with
    | Some n => if truthy n then [n] else []
    | None => []
    end.

(** The entries of a section's [inherits] option, in order; none when
    the section has no such option. *)
Definition inherits_list (cfg : ConfigParser) (current_section : string)
  : list string :=
  if has_option cfg current_section "inherits" then
    match get cfg current_section "inherits" with
    | Some inherits_value => parent_names inherits_value
    | None => []
    end
  else [].

(** The body of [for parent_name in parent_names:], with the recursive
    call as a parameter. *)
Definition resolve_parent {S} (recurse : string → S → option S)
    (cfg : ConfigParser) (current_section parent_name : string) (st : S)
  : option S :=
  for_each recurse (expand_parent cfg current_section parent_name) st.

Section Resolve.
(** [resolve_profile] and [resolve_profile_with_source] are the same
    traversal; they differ in what is stored for a key: the value, or
    the value paired with the section that supplied it. *)
Context {V : Type} (entry : string → string → V).

Record rstate := {
  visited : gset string;
  resolved : gmap string V
}.

(** The closing loop of [resolve_recursive]: the section's own
    settings override what the parents left, [inherits] excepted. *)
Definition apply_settings (cfg : ConfigParser) (current_section : string)
    (res : gmap string V) : gmap string V :=
  foldl (λ acc kv,
           if bool_decide (kv.1 = "inherits") then acc
           else <[kv.1 := entry kv.2 current_section]> acc)
        res (items cfg current_section).

(** [resolve_recursive]; [depth] bounds the nesting of calls and
    [None] means that the bound was reached. *)
Fixpoint resolve_recursive (depth : nat) (cfg : ConfigParser)
    (current_section : string) (st : rstate) : option rstate :=
  match depth with
  | O => None
  | S depth' =>
      if bool_decide (current_section ∈ visited st) then Some st
      else if negb (contains_section cfg current_section) then Some st
      else
        let st1 := {| visited := {[current_section]} ∪ visited st;
                      resolved := resolved st |} in
        match for_each (resolve_parent (resolve_recursive depth' cfg)
                                       cfg current_section)
                       (inherits_list cfg current_section) st1 with
        | Some st2 =>
            Some {| visited := visited st2;
                    resolved := apply_settings cfg current_section
                                  (resolved st2) |}
        | None => None
        end
  end.

(** Every nested call marks a new name of the configuration, so the
    nesting never exceeds the number of names plus one. *)
Definition enough_depth (cfg : ConfigParser) : nat :=
  S (S (length (sections cfg))).

Definition resolve_with (cfg : ConfigParser) (section_name : string)
  : option (gmap string V) :=
  if negb (contains_section cfg section_name) then Some ∅
  else resolved <$>
         resolve_recursive (enough_depth cfg) cfg section_name
           {| visited := ∅; resolved := ∅ |}.
End Resolve.

Definition resolve_profile (cfg : ConfigParser) (section_name : string)
  : option (gmap string string) :=
  resolve_with (λ value _, value) cfg section_name.

Definition resolve_profile_with_source (cfg : ConfigParser)
    (section_name : string) : option (gmap string (string * string)) :=
  resolve_with (λ value current_section, (value, current_section))
               cfg section_name.

(** The dictionary comprehension of [get_direct_settings] *)
Definition get_direct_settings (cfg : ConfigParser) (section_name : string)
  : gmap string string :=
  if negb (contains_section cfg section_name) then ∅
  else foldl (λ acc kv,
                if bool_decide (kv.1 = "inherits") then acc
                else <[kv.1 := kv.2]> acc)
             ∅ (items cfg section_name).

Definition get_inheritance_chain (cfg : ConfigParser) (section_name : string)
  : list string :=
  if negb (contains_section cfg section_name) then []
  else mjoin (expand_parent cfg section_name <$> inherits_list cfg section_name).

(** [p] is an immediate parent of [s]. *)
Definition parent_of (cfg : ConfigParser) (s p : string) : Prop :=
  p ∈ get_inheritance_chain cfg s.

(** The names for which [name in config] holds. *)
Definition names (cfg : ConfigParser) : gset string :=
  {[default_section]} ∪ list_to_set (sections cfg).

(** How many names of the configuration a traversal has not visited *)
Definition unvisited {V} (cfg : ConfigParser) (st : rstate (V:=V)) : nat :=
  size (names cfg ∖ visited st).

(** *** class ProfileComparer *)

(** [build_inheritance_tree]: parent name to the set of its children *)
Definition build_inheritance_tree (cfg : ConfigParser) (section_type : string)
  : gmap string (gset string) :=
  foldl (λ children section,
           foldl (λ children parent,
                    <[parent := {[section]} ∪ default ∅ (children !! parent)]>
                      children)
                 children (get_inheritance_chain cfg section))
        ∅ (get_coreone_sections cfg section_type).

(** One turn of the inner loop of [get_all_descendants]; the work list
    [to_visit] is kept with its last element first, so that [pop] and
    [append] work on the head. *)
Definition visit_child (st : gset string * list string) (child : string)
  : gset string * list string :=
  if bool_decide (child ∈ st.1) then st
  else ({[child]} ∪ st.1, child :: st.2).

(** The [while to_visit:] loop; [None] when [fuel] turns were not enough. *)
Fixpoint descendants_loop (fuel : nat) (children_map : gmap string (gset string))
    (descendants : gset string) (to_visit : list string)
  : option (gset string) :=
  match fuel with
  | O => None
  | S fuel' =>
      match to_visit with
      | [] => Some descendants
      | current :: rest =>
          match children_map !! current with
          | Some children =>
              let st := foldl visit_child (descendants, rest)
                              (elements children) in
              descendants_loop fuel' children_map st.1 st.2
          | None => descendants_loop fuel' children_map descendants rest
          end
      end
  end.

(** Every child enters the work list at most once. *)
Definition all_children (children_map : gmap string (gset string))
  : gset string :=
  ⋃ (snd <$> map_to_list children_map).

Definition get_all_descendants (section : string)
    (children_map : gmap string (gset string)) : option (gset string) :=
  descendants_loop (S (S (size (all_children children_map))))
                   children_map ∅ [section].

(** The entries of the three change dictionaries *)
Record change_entry := {
  value : option string;
  source : option string;
  direct : bool
}.

Record modified_entry := {
  old : string;
  new : string;
  old_source : option string;
  new_source : option string;
  mdirect : bool
}.

Record profile_changes := {
  added : gmap string change_entry;
  removed : gmap string change_entry;
  modified : gmap string modified_entry;
  direct_changes : gset string;
  affects : list string
}.

(** The body of [for key in all_keys:] *)
Definition classify_key
    (old_profile new_profile : gmap string (string * string))
    (old_direct new_direct : gmap string string)
    (changes : profile_changes) (key : string) : profile_changes :=
  let old_val_source := old_profile !! key in
  let new_val_source := new_profile !! key in
  let old_val := fst <$> old_val_source in
  let new_val := fst <$> new_val_source in
  let old_source := snd <$> old_val_source in
  let new_source := snd <$> new_val_source in
  match old_direct !! key, new_direct !! key with
  | None, Some _ =>
      {| added := <[key := {| value := new_val; source := new_source;
                              direct := true |}]> (added changes);
         removed := removed changes;
         modified := modified changes;
         direct_changes := {[key]} ∪ direct_changes changes;
         affects := affects changes |}
  | Some _, None =>
      {| added := added changes;
         removed := <[key := {| value := old_val; source := old_source;
                                direct := true |}]> (removed changes);
         modified := modified changes;
         direct_changes := {[key]} ∪ direct_changes changes;
         affects := affects changes |}
  | Some o, Some n =>
      if bool_decide (o ≠ n) then
        {| added := added changes;
           removed := removed changes;
           modified := <[key := {| old := o; new := n;
                                   old_source := old_source;
                                   new_source := new_source;
                                   mdirect := true |}]> (modified changes);
           direct_changes := {[key]} ∪ direct_changes changes;
           affects := affects changes |}
      else changes
  | None, None => changes
  end.

Definition no_changes : profile_changes :=
  {| added := ∅; removed := ∅; modified := ∅; direct_changes := ∅;
     affects := [] |}.

(** A key has a direct change when the two generations of the record
    do not define it alike. *)
Definition direct_change (old_cfg new_cfg : ConfigParser)
    (section key : string) : Prop :=
  get_direct_settings old_cfg section !! key
  ≠ get_direct_settings new_cfg section !! key.

(** A key has a resolved change when the two fully resolved profiles of
    the record do not give it alike. *)
Definition resolved_change (old_cfg new_cfg : ConfigParser)
    (section key : string) : Prop :=
  resolve_profile old_cfg section ≫= (.!! key)
  ≠ resolve_profile new_cfg section ≫= (.!! key).

(** [any(d)] on a dictionary: some key is a non-empty string *)
Definition any_key {A} (d : gmap string A) : bool :=
  existsb truthy (elements (dom d)).

(** The body of [for section in common:]; the result is the entry stored
    in [changes], if one is stored. *)
Definition compare_section (old_cfg new_cfg : ConfigParser)
    (new_children : gmap string (gset string)) (section : string)
  : option (option profile_changes) :=
  old_profile ← resolve_profile_with_source old_cfg section;
  new_profile ← resolve_profile_with_source new_cfg section;
  let old_direct := get_direct_settings old_cfg section in
  let new_direct := get_direct_settings new_cfg section in
  let all_keys : gset string := dom old_profile ∪ dom new_profile in
  let changes :=
    foldl (classify_key old_profile new_profile old_direct new_direct)
          no_changes (elements all_keys) in
  if any_key (added changes) || any_key (removed changes)
     || any_key (modified changes) then
    descendants ← get_all_descendants section new_children;
    Some (Some {| added := added changes;
                  removed := removed changes;
                  modified := modified changes;
                  direct_changes := direct_changes changes;
                  affects := sorted descendants |})
  else Some None.

Record comparison := {
  added_profiles : list string;
  removed_profiles : list string;
  changed_profiles : gmap string profile_changes;
  inheritance_tree : gmap string (gset string)
}.

Definition compare_profiles (old_cfg new_cfg : ConfigParser)
    (section_type : string) : option comparison :=
  let old_sections : gset string :=
    list_to_set (get_coreone_sections old_cfg section_type) in
  let new_sections : gset string :=
    list_to_set (get_coreone_sections new_cfg section_type) in
  let added_ := new_sections ∖ old_sections in
  let removed_ := old_sections ∖ new_sections in
  let common := old_sections ∩ new_sections in
  let new_children := build_inheritance_tree new_cfg section_type in
  changes ←
    for_each (λ section changes,
                r ← compare_section old_cfg new_cfg new_children section;
                Some (match r with
                      | Some pc => <[section := pc]> changes
                      | None => changes
                      end))
             (elements common) ∅;
  Some {| added_profiles := sorted added_;
          removed_profiles := sorted removed_;
          changed_profiles := changes;
          inheritance_tree := new_children |}.

(** *** generate_report

    The two dictionaries that [generate_report] splits
    [changed_profiles] into, with [if v['direct_changes']] and with
    [if not v['direct_changes']].  The second one is what the section
    of the report on profiles with only inherited changes is printed
    from, and what its summary counts. *)
Definition profiles_with_direct_changes (cmp : comparison)
  : gmap string profile_changes :=
  filter (λ kv, direct_changes kv.2 ≠ ∅) (changed_profiles cmp).

Definition profiles_with_only_inherited (cmp : comparison)
  : gmap string profile_changes :=
  filter (λ kv, direct_changes kv.2 = ∅) (changed_profiles cmp).

End CompareCoreone.

(* ===================================================================== *)
(** ** converters/base.py *)
(* ===================================================================== *)
Module Base.
Import Py.

(** *** class ConversionResult *)
Record ConversionResult (V : Type) := {
  settings : gmap string V;
  needs_manual_conversion : list string
}.
Arguments settings {V} _.
Arguments needs_manual_conversion {V} _.

Definition new_result {V} : ConversionResult V :=
  {| settings := ∅; needs_manual_conversion := [] |}.

Definition add_setting {V} (self : ConversionResult V) (key : string)
    (value : V) : ConversionResult V :=
  {| settings := <[key := value]> (settings self);
     needs_manual_conversion := needs_manual_conversion self |}.

Definition mark_needs_conversion {V} (self : ConversionResult V)
    (key : string) : ConversionResult V :=
  {| settings := settings self;
     needs_manual_conversion := needs_manual_conversion self ++ [key] |}.

(** [dict.update]: the entries of [other] replace those of [self] *)
Definition merge {V} (self other : ConversionResult V) : ConversionResult V :=
  {| settings := settings other ∪ settings self;
     needs_manual_conversion :=
       needs_manual_conversion self ++ needs_manual_conversion other |}.

(** *** The four converter classes behind [BaseConverter] *)
Inductive BaseConverter (V : Type) :=
| SimpleKeyConverter (prusa_key orca_key : string)
    (value_transform : option (V → V))
| MultiKeyConverter (prusa_keys : list string) (orca_key : string)
    (value_transform : option (V → V))
| SplitConverter (prusa_key : string) (conversions : list (string * (V → V)))
| CustomConverter (can_convert_func : string → V → bool)
    (convert_func : string → V → ConversionResult V).
Arguments SimpleKeyConverter {V} _ _ _.
Arguments MultiKeyConverter {V} _ _ _.
Arguments SplitConverter {V} _ _.
Arguments CustomConverter {V} _ _.

Definition can_convert {V} (self : BaseConverter V) (prusa_key : string)
    (prusa_value : V) : bool :=
  match self with
  | SimpleKeyConverter k _ _ => bool_decide (prusa_key = k)
  | MultiKeyConverter ks _ _ => bool_decide (prusa_key ∈ ks)
  | SplitConverter k _ => bool_decide (prusa_key = k)
  | CustomConverter can_convert_func _ => can_convert_func prusa_key prusa_value
  end.

Definition apply_transform {V} (value_transform : option (V → V))
    (prusa_value : V) : V :=
  match value_transform with
  | Some f => f prusa_value
  | None => prusa_value
  end.

Definition convert {V} (self : BaseConverter V) (prusa_key : string)
    (prusa_value : V) : ConversionResult V :=
  match self with
  | SimpleKeyConverter _ orca_key value_transform =>
      add_setting new_result orca_key
        (apply_transform value_transform prusa_value)
  | MultiKeyConverter _ orca_key value_transform =>
      add_setting new_result orca_key
        (apply_transform value_transform prusa_value)
  | SplitConverter _ conversions =>
      foldl (λ result c, add_setting result c.1 (c.2 prusa_value))
            new_result conversions
  | CustomConverter _ convert_func => convert_func prusa_key prusa_value
  end.

(** *** class ConverterRegistry *)
Record ConverterRegistry (V : Type) := {
  converters : list (BaseConverter V);
  ignored_keys : gset string;
  _orca_key_mappings : gmap string string;
  _mutually_exclusive_groups : gmap string (gset string)
}.
Arguments converters {V} _.
Arguments ignored_keys {V} _.
Arguments _orca_key_mappings {V} _.
Arguments _mutually_exclusive_groups {V} _.

Definition new_registry {V} : ConverterRegistry V :=
  {| converters := []; ignored_keys := ∅; _orca_key_mappings := ∅;
     _mutually_exclusive_groups := ∅ |}.

Definition register {V} (self : ConverterRegistry V)
    (converter : BaseConverter V) : ConverterRegistry V :=
  {| converters := converters self ++ [converter];
     ignored_keys := ignored_keys self;
     _orca_key_mappings := _orca_key_mappings self;
     _mutually_exclusive_groups := _mutually_exclusive_groups self |}.

Definition set_mapping {V} (self : ConverterRegistry V)
    (orca_key prusa_key : string) : ConverterRegistry V :=
  {| converters := converters self;
     ignored_keys := ignored_keys self;
     _orca_key_mappings := <[orca_key := prusa_key]> (_orca_key_mappings self);
     _mutually_exclusive_groups := _mutually_exclusive_groups self |}.

Definition register_simple {V} (self : ConverterRegistry V)
    (prusa_key orca_key : string) (value_transform : option (V → V))
  : outcome (ConverterRegistry V) :=
  let converter := SimpleKeyConverter prusa_key orca_key value_transform in
  match _orca_key_mappings self !! orca_key with
  | Some existing_prusa_key =>
      if bool_decide (existing_prusa_key ≠ prusa_key) then
        match _mutually_exclusive_groups self !! orca_key with
        | Some allowed_keys =>
            if bool_decide (prusa_key ∉ allowed_keys) then Raised ValueError
            else Returned (register (set_mapping self orca_key prusa_key)
                                    converter)
        | None => Raised ValueError
        end
      else Returned (register self converter)
  | None => Returned (register (set_mapping self orca_key prusa_key) converter)
  end.

Definition register_multi {V} (self : ConverterRegistry V)
    (prusa_keys : list string) (orca_key : string)
    (value_transform : option (V → V)) : ConverterRegistry V :=
  register self (MultiKeyConverter prusa_keys orca_key value_transform).

Definition register_split {V} (self : ConverterRegistry V)
    (prusa_key : string) (conversions : list (string * (V → V)))
  : ConverterRegistry V :=
  register self (SplitConverter prusa_key conversions).

Definition register_custom {V} (self : ConverterRegistry V)
    (can_convert_func : string → V → bool)
    (convert_func : string → V → ConversionResult V) : ConverterRegistry V :=
  register self (CustomConverter can_convert_func convert_func).

Definition register_ignore {V} (self : ConverterRegistry V)
    (prusa_keys : list string) : ConverterRegistry V :=
  {| converters := converters self;
     ignored_keys := ignored_keys self ∪ list_to_set prusa_keys;
     _orca_key_mappings := _orca_key_mappings self;
     _mutually_exclusive_groups := _mutually_exclusive_groups self |}.

Definition register_mutually_exclusive {V} (self : ConverterRegistry V)
    (orca_key : string) (prusa_keys : list string) : ConverterRegistry V :=
  {| converters := converters self;
     ignored_keys := ignored_keys self;
     _orca_key_mappings := _orca_key_mappings self;
     _mutually_exclusive_groups :=
       match _mutually_exclusive_groups self !! orca_key with
       | Some g =>
           <[orca_key := g ∪ list_to_set prusa_keys]>
             (_mutually_exclusive_groups self)
       | None =>
           <[orca_key := list_to_set prusa_keys]>
             (_mutually_exclusive_groups self)
       end |}.

(** The loop of [convert_setting]: the running result and the
    [found_converter] flag. *)
Definition convert_step {V} (prusa_key : string) (prusa_value : V)
    (acc : ConversionResult V * bool) (converter : BaseConverter V)
  : ConversionResult V * bool :=
  if can_convert converter prusa_key prusa_value
  then (merge acc.1 (convert converter prusa_key prusa_value), true)
  else acc.

Definition convert_setting {V} (self : ConverterRegistry V)
    (prusa_key : string) (prusa_value : V) : ConversionResult V :=
  if bool_decide (prusa_key ∈ ignored_keys self) then new_result
  else
    let '(merged_result, found_converter) :=
      foldl (convert_step prusa_key prusa_value) (new_result, false)
            (converters self) in
    if negb found_converter
    then mark_needs_conversion merged_result prusa_key
    else merged_result.

Definition convert_dict {V} (self : ConverterRegistry V)
    (prusa_settings : list (string * V)) : gmap string V * list string :=
  foldl (λ acc kv,
           let result := convert_setting self kv.1 kv.2 in
           (settings result ∪ acc.1, acc.2 ++ needs_manual_conversion result))
        (∅, []) prusa_settings.

Definition get_reverse_mapping {V} (self : ConverterRegistry V)
    (orca_key : string) : list string :=
  foldl (λ prusa_keys converter,
           match converter with
           | SimpleKeyConverter k o _ =>
               if bool_decide (o = orca_key) then prusa_keys ++ [k]
               else prusa_keys
           | MultiKeyConverter ks o _ =>
               if bool_decide (o = orca_key) then prusa_keys ++ ks
               else prusa_keys
           | _ => prusa_keys
           end)
        [] (converters self).

(** The registries that the convenience methods can build, starting from
    an empty one ([register] itself is left to those methods). *)
Inductive built {V} : ConverterRegistry V → Prop :=
| built_new : built new_registry
| built_simple self prusa_key orca_key value_transform self' :
    built self →
    register_simple self prusa_key orca_key value_transform = Returned self' →
    built self'
| built_multi self prusa_keys orca_key value_transform :
    built self →
    built (register_multi self prusa_keys orca_key value_transform)
| built_split self prusa_key conversions :
    built self → built (register_split self prusa_key conversions)
| built_custom self can_convert_func convert_func :
    built self → built (register_custom self can_convert_func convert_func)
| built_ignore self prusa_keys :
    built self → built (register_ignore self prusa_keys)
| built_mutually_exclusive self orca_key prusa_keys :
    built self → built (register_mutually_exclusive self orca_key prusa_keys).

(** The source keys a mutually-exclusive group allows for a target *)
Definition allowed_keys {V} (self : ConverterRegistry V) (orca_key : string)
  : gset string :=
  default ∅ (_mutually_exclusive_groups self !! orca_key).

(** The bookkeeping behind [register_simple], target by target: either
    the target is unclaimed and no one-to-one rule writes it, or it has a
    first claimant, and the current claim and the source key of every
    one-to-one rule for it are that first claimant or listed in the
    target's group. *)
Definition claims_consistent {V} (self : ConverterRegistry V) : Prop :=
  ∀ orca_key,
    (_orca_key_mappings self !! orca_key = None
     ∧ ∀ k f, SimpleKeyConverter k orca_key f ∉ converters self)
    ∨ (∃ first current,
         _orca_key_mappings self !! orca_key = Some current
         ∧ (current = first ∨ current ∈ allowed_keys self orca_key)
         ∧ ∀ k f, SimpleKeyConverter k orca_key f ∈ converters self →
                  k = first ∨ k ∈ allowed_keys self orca_key).

End Base.

(* ===================================================================== *)
(** ** profile_parser.py *)
(* ===================================================================== *)
Module ProfileParserM.
Import Py.

(** A parsed value: the text after [=], or the list that
    [default_materials] is split into. *)
Inductive ini_value :=
| Str (s : string)
| Arr (l : list string).

(** A block: the dictionary of one section, in insertion order *)
Definition block := list (string * ini_value).

(** The [output] dictionary: the vendor block under ['vendor'] and, under
    every other block type, the list of the blocks of that type. *)
Record output := {
  vendor : option block;
  by_type : list (string * list block)
}.

Record pstate := {
  out : output;
  current_block : block;
  block_type : option string
}.

(** The block is filed under its type when the next header or the end of
    the file is reached. *)
Definition save_block (o : output) (bt : string) (b : block) : output :=
  if bool_decide (bt = "vendor") then {| vendor := Some b; by_type := by_type o |}
  else {| vendor := vendor o;
          by_type := dict_set bt (default [] (assoc bt (by_type o)) ++ [b])
                              (by_type o) |}.

(** [line[1:-1]] for a line that starts with an opening and ends with a
    closing bracket *)
Definition inner (line : string) : string :=
  String.rev (match String.rev (match line with
                                | String _ r => r
                                | EmptyString => EmptyString
                                end) with
              | String _ r => r
              | EmptyString => EmptyString
              end).

(** The body of [for line in file:] *)
Definition parse_line (st : pstate) (raw : string) : outcome pstate :=
  let line := strip raw in
  if startswith ";" line || startswith "#" line || bool_decide (line = "")
  then Returned st
  else if startswith "[" line && endswith "]" line then
    let '(o, cb) :=
      match block_type st with
      | Some bt => (save_block (out st) bt (current_block st), [])
      | None => (out st, current_block st)
      end in
    if contains "vendor" line
    then Returned {| out := o; current_block := cb;
                     block_type := Some "vendor" |}
    else
      let parts := split ":" (inner line) in
      match parts with
      | t :: n :: _ =>
          Returned {| out := o;
                      current_block := dict_set "name" (Str (strip n)) cb;
                      block_type := Some (strip t) |}
      | _ => Raised IndexError
      end
  else
    match split_once "=" line with
    | Some (key, v) =>
        let v := strip v in
        let value :=
          if bool_decide (strip key = "default_materials")
          then Arr (strip <$> split ";" v)
          else Str v in
        Returned {| out := out st;
                    current_block := dict_set (strip key) value (current_block st);
                    block_type := block_type st |}
    | None => Returned st
    end.

Fixpoint parse_lines (st : pstate) (lines : list string) : outcome pstate :=
  match lines with
  | [] => Returned st
  | l :: ls =>
      match parse_line st l with
      | Returned st' => parse_lines st' ls
      | Raised e => Raised e
      end
  end.

(** [ProfileParser.parse] on the lines of the file *)
Definition parse (lines : list string) : outcome output :=
  match parse_lines {| out := {| vendor := None; by_type := [] |};
                       current_block := []; block_type := None |} lines with
  | Returned st =>
      Returned match block_type st with
               | Some bt => save_block (out st) bt (current_block st)
               | None => out st
               end
  | Raised e => Raised e
  end.

End ProfileParserM.

(* ===================================================================== *)
(** ** converters/profile_converters.py *)
(* ===================================================================== *)
Module ProfileConverters.
Import Py Base ProfileParserM.

(** The body of [for parent_name in parents:], with the recursive call
    as a parameter: a name that is not in [self.all_profiles] leaves
    [merged] as it is. *)
Definition merge_parent
    (recurse : block → outcome (gmap string ini_value))
    (registry : ConverterRegistry ini_value) (all_profiles : gmap string block)
    (acc : outcome (gmap string ini_value)) (parent_name : string)
  : outcome (gmap string ini_value) :=
  match acc with
  | Raised e => Raised e
  | Returned merged =>
      match all_profiles !! parent_name with
      | Some parent =>
          match recurse parent with
          | Returned parent_settings =>
              let merged := parent_settings ∪ merged in
              let parent_converted := (convert_dict registry parent).1 in
              Returned (parent_converted ∪ merged)
          | Raised e => Raised e
          end
      | None => Returned merged
      end
  end.

(** [PrintProfileConverter._resolve_inherited_settings] (the method of
    [FilamentProfileConverter] is the same text).  [depth] is the number
    of frames the interpreter still allows; using them up is Python's
    RecursionError. *)
Fixpoint _resolve_inherited_settings (depth : nat)
    (registry : ConverterRegistry ini_value) (all_profiles : gmap string block)
    (profile_data : block) : outcome (gmap string ini_value) :=
  match depth with
  | O => Raised RecursionError
  | S depth' =>
      match assoc "inherits" profile_data with
      | None => Returned ∅
      | Some (Arr _) => Raised AttributeError
      | Some (Str inherits_str) =>
          let parents := strip <$> split ";" inherits_str in
          foldl (merge_parent
                   (_resolve_inherited_settings depth' registry all_profiles)
                   registry all_profiles)
                (Returned ∅) parents
      end
  end.

End ProfileConverters.

(* ===================================================================== *)
(** ** profile_differ.py *)
(* ===================================================================== *)
Module ProfileDifferM.
Import Py.
Local Open Scope Z_scope.

(** *** Python numbers

    A float is a binary64 value, kept as the exact number it stands
    for: [Finite m e] is [m * 2^e].  The not-a-number value is left out:
    no string with a dot spells it and JSON proper has no literal for
    it. *)
Inductive float :=
| Finite (m e : Z)
| Infinity (negative : bool).

(** Round the non-negative fraction [p/q] to the nearest binary64 value,
    ties to the even mantissa, as [float()] does: 53 bits of mantissa,
    the smallest unit [2^-1074], overflow to infinity from [2^1024]. *)
Definition round_binary64 (p q : Z) : float :=
  if p =? 0 then Finite 0 0
  else
    let e0 := Z.log2 p - Z.log2 q in
    let below :=
      if 0 <=? e0 then p <? q * 2 ^ e0 else p * 2 ^ (- e0) <? q in
    let e1 := if below then e0 - 1 else e0 in
    let ex := Z.max (e1 - 52) (-1074) in
    let num := if 0 <=? ex then p else p * 2 ^ (- ex) in
    let den := if 0 <=? ex then q * 2 ^ ex else q in
    let m := num / den in
    let r := num mod den in
    let m' := if (den <? 2 * r) || ((2 * r =? den) && Z.odd m)
              then m + 1 else m in
    if (0 <=? ex) && (2 ^ 1024 <=? m' * 2 ^ ex) then Infinity false
    else Finite m' ex.

Definition float_neg (f : float) : float :=
  match f with
  | Finite m e => Finite (- m) e
  | Infinity n => Infinity (negb n)
  end.

(** [==] on two floats, or on an int [Finite z 0] and a float: the
    comparison is exact. *)
Definition float_eqb (a b : float) : bool :=
  match a, b with
  | Finite m1 e1, Finite m2 e2 =>
      let e := Z.min e1 e2 in
      m1 * 2 ^ (e1 - e) =? m2 * 2 ^ (e2 - e)
  | Infinity n1, Infinity n2 => Bool.eqb n1 n2
  | _, _ => false
  end.

(** *** Number syntax

    [int] and [float] take every decimal digit of Unicode for the ASCII
    digit of its value, and skip white space at both ends. *)

(** The code points of the digits zero; the nine that follow each one
    are its digits one to nine. *)
Definition decimal_zeros : list Z :=
  [48; 1632; 1776; 1984; 2406; 2534; 2662; 2790; 2918; 3046; 3174;
   3302; 3430; 3558; 3664; 3792; 3872; 4160; 4240; 6112; 6160; 6470;
   6608; 6784; 6800; 6992; 7088; 7232; 7248; 42528; 43216; 43264;
   43472; 43504; 43600; 44016; 65296; 66720; 68912; 69734; 69872;
   69942; 70096; 70384; 70736; 70864; 71248; 71360; 71472; 71904;
   72016; 72784; 73040; 73120; 92768; 92864; 93008; 120782; 120792;
   120802; 120812; 120822; 123200; 123632; 125264; 130032]%Z.

(** [unicodedata.decimal] *)
Definition decimal (cp : Z) : option Z :=
  (λ zero, cp - zero)
    <$> List.find (λ zero, (zero <=? cp) && (cp <=? zero + 9)) decimal_zeros.

(** The decimal digit that a string starts with: its value and the
    number of bytes of its encoding *)
Definition digit (s : string) : option (Z * nat) :=
  match code_point s with
  | Some (cp, w) => (λ d, (d, w)) <$> decimal cp
  | None => None
  end.

Definition starts_with_digit (s : string) : bool :=
  bool_decide (is_Some (digit s)).

(** Digits with single underscores between them: the value read so far,
    the number of digits, and the text left.  [skip] counts the bytes of
    the digit just read that are still to be passed. *)
Fixpoint digits_go (skip : nat) (acc : Z) (n : nat) (s : string)
  : Z * nat * string :=
  match s with
  | EmptyString => (acc, n, s)
  | String c s' =>
      match skip with
      | S k => digits_go k acc n s'
      | O =>
          match digit s with
          | Some (d, w) => digits_go (pred w) (10 * acc + d) (S n) s'
          | None =>
              if ascii_eqb c "_" && negb (n =? 0)%nat && starts_with_digit s'
              then digits_go 0 acc n s'
              else (acc, n, s)
          end
      end
  end.

Definition digitpart (s : string) : option (Z * nat * string) :=
  if starts_with_digit s then Some (digits_go 0 0 0 s) else None.

(** The white space that [int] and [float] skip: TAB to CR and the
    blank, and the white space beyond ASCII; the separators 0x1c-0x1f,
    which [strip] removes, are no white space to them. *)
Definition isspace_number (cp : Z) : bool :=
  ((9 <=? cp) && (cp <=? 13)) || (cp =? 32) || ((128 <=? cp) && isspace cp).

Definition strip_number (s : string) : string :=
  rstrip_where isspace_number (lstrip_where isspace_number s).

(** [sys.int_info.default_max_str_digits] *)
Definition max_str_digits : Z := 4300.

(** An optional sign *)
Definition sign (s : string) : bool * string :=
  match s with
  | String "-" s' => (true, s')
  | String "+" s' => (false, s')
  | _ => (false, s)
  end.

(** [int(s)] in base ten; [None] is ValueError, which is also what more
    than [max_str_digits] digits give (leading zeros count, underscores
    do not). *)
Definition py_int (s : string) : option Z :=
  let '(negative, s1) := sign (strip_number s) in
  match digitpart s1 with
  | Some (v, n, EmptyString) =>
      if max_str_digits <? Z.of_nat n then None
      else Some (if negative then - v else v)
  | _ => None
  end.

(** The decimal forms of [float(s)]: sign, digits, an optional point and
    fraction, an optional exponent.  The result is the sign and the
    pair [(M, E)] of the number [M * 10^E] that is written. *)
Definition parse_decimal (s : string) : option (bool * Z * Z) :=
  let '(negative, s1) := sign (strip_number s) in
  let '(i, ni, s2) := default (0, 0%nat, s1) (digitpart s1) in
  let '(f, nf, s3) :=
    match s2 with
    | String "." t => default (0, 0%nat, t) (digitpart t)
    | _ => (0, 0%nat, s2)
    end in
  if ((ni + nf)%nat =? 0)%nat then None
  else
    let mantissa := i * 10 ^ Z.of_nat nf + f in
    match s3 with
    | EmptyString => Some (negative, mantissa, - Z.of_nat nf)
    | String c t =>
        if ascii_eqb c "e" || ascii_eqb c "E" then
          let '(eneg, t1) := sign t in
          match digitpart t1 with
          | Some (x, _, EmptyString) =>
              Some (negative, mantissa,
                    (if eneg then - x else x) - Z.of_nat nf)
          | _ => None
          end
        else None
    end.

(** [float(s)] for the strings that [_normalize_value] passes to it,
    those with a dot; [None] is ValueError. *)
Definition py_float (s : string) : option float :=
  match parse_decimal s with
  | Some (negative, mantissa, exponent) =>
      let f := if 0 <=? exponent
               then round_binary64 (mantissa * 10 ^ exponent) 1
               else round_binary64 mantissa (10 ^ (- exponent)) in
      Some (if negative then float_neg f else f)
  | None => None
  end.

(** *** Values of a loaded profile *)
Inductive pyvalue :=
| PNone
| PBool (b : bool)
| PInt (z : Z)
| PFloat (f : float)
| PStr (s : string)
| PList (l : list pyvalue)
| PDict (d : list (string * pyvalue)).

Definition as_number (v : pyvalue) : option float :=
  match v with
  | PBool b => Some (Finite (if b then 1 else 0) 0)
  | PInt z => Some (Finite z 0)
  | PFloat f => Some f
  | _ => None
  end.

(** Python's [==] on these values *)
Fixpoint py_eq (a b : pyvalue) {struct a} : bool :=
  match a, b with
  | PNone, PNone => true
  | PStr s, PStr t => bool_decide (s = t)
  | PList l, PList k =>
      (fix go (l k : list pyvalue) {struct l} : bool :=
         match l, k with
         | [], [] => true
         | x :: l', y :: k' => py_eq x y && go l' k'
         | _, _ => false
         end) l k
  | PDict d, PDict d' =>
      (length d =? length d')%nat &&
      (fix go (d : list (string * pyvalue)) {struct d} : bool :=
         match d with
         | [] => true
         | (key, x) :: rest =>
             match assoc key d' with
             | Some y => py_eq x y && go rest
             | None => false
             end
         end) d
  | _, _ =>
      match as_number a, as_number b with
      | Some x, Some y => float_eqb x y
      | _, _ => false
      end
  end.

(** *** class ProfileDiffer *)
Fixpoint _normalize_value (value : pyvalue) : pyvalue :=
  match value with
  | PStr s =>
      if contains "." s then
        match py_float s with
        | Some f => PFloat f
        | None => PStr (strip s)
        end
      else
        match py_int s with
        | Some z => PInt z
        | None => PStr (strip s)
        end
  | PList l => PList (_normalize_value <$> l)
  | _ => value
  end.

(** [compare_profiles] from the two resolved dictionaries on: the
    result is [(only_in_converted, only_in_orca, different_values)]. *)
Definition compare_profiles (converted orca : gmap string pyvalue)
  : gmap string pyvalue * gmap string pyvalue
    * gmap string (pyvalue * pyvalue) :=
  (converted ∖ orca,
   orca ∖ converted,
   merge (λ a b,
            match a, b with
            | Some v, Some w =>
                if negb (py_eq (_normalize_value v) (_normalize_value w))
                then Some (v, w) else None
            | _, _ => None
            end) converted orca).

End ProfileDifferM.

(* ===================================================================== *)
(** ** Concrete configurations and registries used in the examples *)
(* ===================================================================== *)
Module Inputs.
Import Py ConfigParserM Base ProfileParserM.

(** [C] lists the parents [A; B], and [A] itself inherits from [B]. *)
Definition diamond : ConfigParser :=
  {| _defaults := [];
     _sections := [("print:A", [("inherits", "B"); ("k", "1")]);
                   ("print:B", [("k", "2")]);
                   ("print:C", [("inherits", "A; B")])];
     _wf := I |}.

(** [C] lists two unrelated parents. *)
Definition two_parents : ConfigParser :=
  {| _defaults := [];
     _sections := [("print:A", [("k", "1")]);
                   ("print:B", [("k", "2")]);
                   ("print:C", [("inherits", "A; B")])];
     _wf := I |}.

(** Two sections that inherit from each other *)
Definition cyclic_config : ConfigParser :=
  {| _defaults := [];
     _sections := [("print:A", [("inherits", "B"); ("x", "1")]);
                   ("print:B", [("inherits", "A"); ("y", "2")])];
     _wf := I |}.

(** The same cycle as the converter sees it: the blocks of
    [profile_parser.py] under their names *)
Definition cyclic_profiles : gmap string block :=
  {[ "A" := [("name", Str "A"); ("inherits", Str "B"); ("x", Str "1")];
     "B" := [("name", Str "B"); ("inherits", Str "A"); ("y", Str "2")] ]}.

(** Two generations in which only the parent's own [x] differs *)
Definition generation (x : string) : ConfigParser :=
  {| _defaults := [];
     _sections := [("print:P @COREONE", [("x", x)]);
                   ("print:Q @COREONE", [("inherits", "P @COREONE")])];
     _wf := I |}.

(** One ignored key, and a one-to-one and a custom rule that both match
    [speed] *)
Definition two_rules : ConverterRegistry string :=
  register_custom
    (register (register_ignore new_registry ["skipped"])
              (SimpleKeyConverter "speed" "outer_wall_speed" None))
    (λ k _, bool_decide (k = "speed") || bool_decide (k = "skipped"))
    (λ _ v, add_setting new_result "travel_speed" v).

(** The registry after [register_simple("chamber_temperature",
    "chamber_temperature")] *)
Definition claimed : ConverterRegistry string :=
  register (set_mapping new_registry "chamber_temperature" "chamber_temperature")
           (SimpleKeyConverter "chamber_temperature" "chamber_temperature" None).

(** The same after the group of [create_filament_registry] is declared *)
Definition claimed_in_group : ConverterRegistry string :=
  register_mutually_exclusive claimed "chamber_temperature"
    ["chamber_temperature"; "chamber_minimal_temperature"].

End Inputs.

(* ===================================================================== *)
(** ** compare_coreone_profiles.py: the children relation *)
(* ===================================================================== *)

Module Descendants.
(** [child] is listed under [parent] in a children map. *)
Definition child_of (children_map : gmap string (gset string))
    (parent child : string) : Prop :=
  ∃ children, children_map !! parent = Some children ∧ child ∈ children.
End Descendants.

(* ===================================================================== *)
(** ** profile_parser.py: kinds of lines *)
(* ===================================================================== *)

Module ParserDefs.
Import Py ProfileParserM.

(** A line that the parser skips: a comment or a blank line *)
Definition skipped (raw : string) : bool :=
  let line := strip raw in
  startswith ";" line || startswith "#" line || bool_decide (line = "").

(** A line that opens a block *)
Definition header (raw : string) : bool :=
  let line := strip raw in
  startswith "[" line && endswith "]" line.

(** A header that neither holds the word vendor nor a colon *)
Definition untyped_header (raw : string) : bool :=
  let line := strip raw in
  header raw && negb (contains "vendor" line) && negb (contains ":" line).
End ParserDefs.

(* ===================================================================== *)
(** ** profile_differ.py: the integers that number strings write *)
(* ===================================================================== *)

Module NumberDefs.
Import Py ProfileDifferM.
Local Open Scope Z_scope.

(** The integer that a string writes, if it writes one: what [int]
    reads from a string without a dot, and for a string with a dot the
    number [mantissa * 10^exponent] of its decimal form, when that
    number is an integer. *)
Definition written_integer (s : string) : option Z :=
  if contains "." s then
    match parse_decimal s with
    | Some (negative, mantissa, exponent) =>
        let magnitude :=
          if 0 <=? exponent then Some (mantissa * 10 ^ exponent)
          else if mantissa mod 10 ^ (- exponent) =? 0
               then Some (mantissa / 10 ^ (- exponent))
               else None in
        (λ z, if negative then - z else z) <$> magnitude
    | None => None
    end
  else py_int s.

(** [s * n] *)
Fixpoint repeated (n : nat) (s : string) : string :=
  match n with
  | O => EmptyString
  | S n' => s +:+ repeated n' s
  end.
End NumberDefs.

(* ===================================================================== *)
(** ** profile_differ.py: resolve_inheritance *)
(* ===================================================================== *)

Module DifferInheritance.
Import Py ProfileDifferM.

(** [bool(v)] *)
Definition py_truthy (v : pyvalue) : bool :=
  match v with
  | PNone => false
  | PBool b => b
  | PInt z => negb (z =? 0)%Z
  | PFloat f => negb (float_eqb f (Finite 0 0))
  | PStr s => truthy s
  | PList l => match l with [] => false | _ => true end
  | PDict d => match d with [] => false | _ => true end
  end.

(** A profile file holds a JSON object, here a [gmap string pyvalue].
    The profiles of one directory and one profile type are kept under
    their names; a name without a file, or with a file that cannot be
    read or is no JSON text, is absent, and [load_profile] returns [{}]
    for it.  Files whose bytes do not decode, and files whose JSON
    value is no object, are not among the directories described. *)

Definition load_profile (corpus : gmap string (gmap string pyvalue)) (profile_name : string)
  : gmap string pyvalue :=
  default ∅ (corpus !! profile_name).

(** The keys that the closing loop skips *)
Definition metadata : list string :=
  ["inherits"; "from"; "instantiation"; "type"; "name"].

Definition own_settings (p : gmap string pyvalue) : gmap string pyvalue :=
  filter (λ kv, kv.1 ∉ metadata) p.

(** The body of [for parent_name in parent_names:], with the recursive
    call as a parameter; the call gets a copy of [visited]. *)
Definition update_from_parent
    (recurse : string → option (outcome (gmap string pyvalue)))
    (acc : option (outcome (gmap string pyvalue))) (parent_name : string)
  : option (outcome (gmap string pyvalue)) :=
  match acc with
  | Some (Returned resolved) =>
      match recurse parent_name with
      | Some (Returned parent_resolved) =>
          Some (Returned (parent_resolved ∪ resolved))
      | r => r
      end
  | _ => acc
  end.

(** [resolve_inheritance] for one directory and one profile type, so
    that the cache key is the profile name.  [fuel] bounds the nesting
    of calls and [None] means that the bound was reached; calling
    [split] on an [inherits] value that is not a string is Python's
    AttributeError. *)
Fixpoint resolve_inheritance_from (fuel : nat) (corpus : gmap string (gmap string pyvalue))
    (profile_name : string) (visited : gset string)
  : option (outcome (gmap string pyvalue)) :=
  match fuel with
  | O => None
  | S fuel' =>
      if bool_decide (profile_name ∈ visited) then Some (Returned ∅)
      else
        let visited := {[profile_name]} ∪ visited in
        let profile := load_profile corpus profile_name in
        if bool_decide (size profile = 0) then Some (Returned ∅)
        else
          let inherits := default (PStr "") (profile !! "inherits") in
          let from_parents :=
            if py_truthy inherits then
              match inherits with
              | PStr s =>
                  let parent_names :=
                    List.filter truthy (strip <$> split ";" s) in
                  foldl (update_from_parent
                           (λ parent_name,
                              resolve_inheritance_from fuel' corpus
                                parent_name visited))
                        (Some (Returned ∅)) parent_names
              | _ => Some (Raised AttributeError)
              end
            else Some (Returned ∅) in
          match from_parents with
          | Some (Returned resolved) =>
              Some (Returned (own_settings profile ∪ resolved))
          | r => r
          end
  end.

(** The call of [compare_profiles]: [visited] is [None].  Every nested
    call marks a new profile of the directory. *)
Definition resolve_inheritance (corpus : gmap string (gmap string pyvalue))
    (profile_name : string) : option (outcome (gmap string pyvalue)) :=
  resolve_inheritance_from (S (size corpus)) corpus profile_name ∅.



End DifferInheritance.

(* ===================================================================== *)
(** ** converters/orca_defaults.py and the helpers of profile_converters.py *)
(* ===================================================================== *)

Module OrcaDefaults.
Import Py.

(** [apply_defaults].  [defaults_map] holds the four tables of the
    module under their profile types; [ignored_keys] is [None] when the
    argument is left out, and an empty set is as good as none. *)
Definition apply_defaults {V} (defaults_map : gmap string (list (string * V)))
    (profile : list (string * V)) (profile_type : string)
    (ignored_keys : option (gset string)) : list (string * V) :=
  match defaults_map !! profile_type with
  | None => profile
  | Some defaults =>
      let defaults :=
        match ignored_keys with
        | Some ignored =>
            if bool_decide (ignored ≠ ∅)
            then List.filter (λ kv, bool_decide (kv.1 ∉ ignored)) defaults
            else defaults
        | None => defaults
        end in
      foldl (λ profile kv,
               if bool_decide (kv.1 ∉ keys profile)
               then dict_set kv.1 kv.2 profile else profile)
            profile defaults
  end.

(** [s.replace(old, new)] for one-character [old] and [new] *)
Fixpoint replace_char (old new : ascii) (s : string) : string :=
  match s with
  | EmptyString => EmptyString
  | String c s' =>
      String (if ascii_eqb c old then new else c) (replace_char old new s')
  end.

(** [PrinterProfileConverter._generate_model_id] *)
Definition _generate_model_id (name : string) : string :=
  let model_id := replace_char "-" "_" (replace_char " " "_" name) in
  if negb (startswith "Prusa_" model_id) then "Prusa_" +:+ model_id
  else model_id.

End OrcaDefaults.

(* ===================================================================== *)
(** ** More concrete data for the examples *)
(* ===================================================================== *)

Module DifferInputs.
Import Py ProfileDifferM DifferInheritance.


End DifferInputs.

Module ConverterInputs.
Import Py Base ProfileParserM.

(** A child with two parents of which the first inherits from the
    second, as the converter sees them *)
Definition diamond_profiles : gmap string block :=
  {[ "A" := [("name", Str "A"); ("inherits", Str "B"); ("k", Str "1")];
     "B" := [("name", Str "B"); ("k", Str "2")];
     "C" := [("name", Str "C"); ("inherits", Str "A; B")] ]}.

(** The registry that copies [k] *)
Definition copy_k : ConverterRegistry ini_value :=
  register new_registry (SimpleKeyConverter "k" "k" None).

(** The length of the longest inheritance path below a profile of
    [diamond_profiles] *)
Definition diamond_rank (name : string) : nat :=
  if bool_decide (name = "C") then 2
  else if bool_decide (name = "A") then 1 else 0.

(** Two default tables *)
Definition small_defaults : gmap string (list (string * string)) :=
  {[ "process" := [("brim_width", "5"); ("wall_generator", "arachne")] ]}.
End ConverterInputs.


(* ===================================================================== *)
(** * Properties *)
(* ===================================================================== *)

Module ResolveFacts.
Import Py ConfigParserM CompareCoreone.

Lemma contains_section_names cfg n :
  contains_section cfg n = true ↔ n ∈ names cfg.
Proof.
  unfold contains_section, has_section, names.
  rewrite orb_true_iff, !bool_decide_eq_true, elem_of_union,
    elem_of_singleton, elem_of_list_to_set. done.
Qed.

Lemma wf_sections_nodup cfg : NoDup (sections cfg).
Proof.
  pose proof (Is_true_eq_true _ (_wf cfg)) as wf. unfold well_formed in wf.
  rewrite !andb_true_iff in wf.
  destruct wf as [[[[[_ _] H] _] _] _].
  unfold sections. unfold nodup_keys in H.
  by apply bool_decide_eq_true in H.
Qed.

Lemma size_names cfg : size (names cfg) ≤ S (length (sections cfg)).
Proof.
  unfold names. rewrite size_union_alt, size_singleton.
  assert (size (list_to_set (sections cfg) ∖ {[default_section]} : gset string)
          ≤ length (sections cfg)); [|lia].
  rewrite <- (size_list_to_set (C:=gset string) (sections cfg))
    by apply wf_sections_nodup.
  apply subseteq_size. set_solver.
Qed.

(** Loops *)
Lemma for_each_app {A S} (body : A → S → option S) l1 l2 s :
  for_each body (l1 ++ l2) s = for_each body l1 s ≫= for_each body l2.
Proof.
  revert s. induction l1 as [|x l1 IH]; intros s; simpl; [done|].
  destruct (body x s); simpl; [apply IH|done].
Qed.

Lemma for_each_concat {A S} (body : A → S → option S) (ls : list (list A)) s :
  for_each (for_each body) ls s = for_each body (mjoin ls) s.
Proof.
  revert s. induction ls as [|l ls IH]; intros s; simpl; [done|].
  rewrite for_each_app. destruct (for_each body l s); simpl; [apply IH|done].
Qed.

Lemma for_each_preserves {A S} (body : A → S → option S) (P : S → Prop) l :
  (∀ x s s', x ∈ l → body x s = Some s' → P s → P s') →
  ∀ s s', for_each body l s = Some s' → P s → P s'.
Proof.
  induction l as [|x l IH]; intros Hbody s s'; simpl.
  - by intros [= <-].
  - destruct (body x s) as [s1|] eqn:E; [|done]. intros Hl Hs.
    eapply IH; [|exact Hl|].
    + intros y t t' Hy. apply Hbody. by right.
    + eapply Hbody; [by left|exact E|done].
Qed.

Lemma unvisited_mono {V} cfg (st st' : rstate (V:=V)) :
  visited st ⊆ visited st' → unvisited cfg st' ≤ unvisited cfg st.
Proof. intros H. apply subseteq_size. set_solver. Qed.

Lemma unvisited_mark {V} cfg (st : rstate (V:=V)) cur (res : gmap string V) :
  cur ∈ names cfg → cur ∉ visited st →
  unvisited cfg {| visited := {[cur]} ∪ visited st; resolved := res |}
    < unvisited cfg st.
Proof.
  intros Hin Hnot. apply subset_size. simpl.
  apply strict_spec_alt. split; [set_solver|].
  intros Heq. assert (cur ∈ names cfg ∖ visited st) as Hc by set_solver.
  rewrite <- Heq in Hc. set_solver.
Qed.

Lemma unvisited_start {V} cfg :
  unvisited cfg {| visited := ∅; resolved := (∅ : gmap string V) |}
    < enough_depth cfg.
Proof.
  unfold unvisited, enough_depth. simpl.
  pose proof (size_names cfg).
  assert (size (names cfg ∖ ∅) ≤ size (names cfg)); [|lia].
  apply subseteq_size. set_solver.
Qed.

(** A loop keeps going as long as its body does. *)
Lemma for_each_progress {V A} (body : A → rstate (V:=V) → option rstate)
    cfg d (l : list A) :
  (∀ x st, unvisited cfg st < d →
     ∃ st', body x st = Some st' ∧ visited st ⊆ visited st') →
  ∀ st, unvisited cfg st < d →
     ∃ st', for_each body l st = Some st' ∧ visited st ⊆ visited st'.
Proof.
  intros Hbody. induction l as [|x l IH]; intros st Hst; simpl.
  - eauto.
  - destruct (Hbody x st Hst) as (st1 & -> & Hsub).
    destruct (IH st1) as (st2 & -> & Hsub2).
    + pose proof (unvisited_mono cfg _ _ Hsub). lia.
    + exists st2. split; [done|]. set_solver.
Qed.

Section Generic.
Context {V : Type} (entry : string → string → V).
Implicit Types st : rstate (V:=V).

(** The traversal returns whenever the depth exceeds the number of
    unvisited names, and it only ever adds to the visited set. *)
Lemma resolve_recursive_total d cfg cur st :
  unvisited cfg st < d →
  ∃ st', resolve_recursive entry d cfg cur st = Some st'
         ∧ visited st ⊆ visited st'.
Proof.
  revert cur st. induction d as [|d IH]; intros cur st Hd; [lia|].
  simpl. case_bool_decide as Hvis; [eauto|].
  destruct (contains_section cfg cur) eqn:Hc; simpl; [|eauto].
  apply contains_section_names in Hc.
  pose proof (unvisited_mark cfg st cur (resolved st) Hc Hvis) as Hlt.
  set (st1 := {| visited := {[cur]} ∪ visited st; resolved := resolved st |}) in *.
  destruct (for_each_progress
              (resolve_parent (resolve_recursive entry d cfg) cfg cur) cfg d
              (inherits_list cfg cur)) with (st := st1)
    as (st2 & -> & Hsub).
  - intros g s Hs. apply (for_each_progress _ cfg d); [|done]. intros; by apply IH.
  - lia.
  - eexists. split; [done|]. simpl. subst st1. simpl in Hsub. set_solver.
Qed.

Lemma resolve_with_total cfg section_name :
  is_Some (resolve_with entry cfg section_name).
Proof.
  unfold resolve_with. destruct (contains_section cfg section_name); cbn [negb]; [|eauto].
  destruct (resolve_recursive_total (enough_depth cfg) cfg section_name
              {| visited := ∅; resolved := ∅ |}) as (st' & -> & _); [|by eexists].
  apply unvisited_start.
Qed.

(** The section's own settings as a dictionary of their own *)
Lemma apply_settings_union cfg cur (res : gmap string V) :
  apply_settings entry cfg cur res = apply_settings entry cfg cur ∅ ∪ res.
Proof.
  unfold apply_settings. induction (items cfg cur) as [|kv l IH] using rev_ind.
  - simpl. by rewrite (left_id_L ∅ (∪)).
  - rewrite !foldl_app. simpl. case_bool_decide; [done|].
    rewrite IH. by rewrite insert_union_l.
Qed.

Lemma apply_settings_inherits cfg cur (res : gmap string V) :
  apply_settings entry cfg cur res !! "inherits" = res !! "inherits".
Proof.
  unfold apply_settings. induction (items cfg cur) as [|kv l IH] using rev_ind.
  - done.
  - rewrite foldl_app. simpl. case_bool_decide as E; [done|].
    by rewrite lookup_insert_ne.
Qed.

Lemma apply_settings_direct cfg cur :
  contains_section cfg cur = true →
  apply_settings entry cfg cur ∅
  = (λ v, entry v cur) <$> get_direct_settings cfg cur.
Proof.
  intros Hc. unfold get_direct_settings, apply_settings. rewrite Hc. simpl.
  induction (items cfg cur) as [|kv l IH] using rev_ind.
  - simpl. by rewrite fmap_empty.
  - rewrite !foldl_app. simpl. case_bool_decide; [done|].
    by rewrite IH, fmap_insert.
Qed.

(** A call on a name of the configuration that is not yet visited:
    the parents are merged first and the section's own settings last. *)
Lemma resolve_recursive_fresh d cfg cur st :
  cur ∉ visited st → contains_section cfg cur = true →
  unvisited cfg st < d →
  ∃ st2, resolve_recursive entry d cfg cur st
         = Some {| visited := visited st2;
                   resolved := ((λ v, entry v cur) <$> get_direct_settings cfg cur)
                               ∪ resolved st2 |}
         ∧ for_each (resolve_parent (resolve_recursive entry (pred d) cfg) cfg cur)
             (inherits_list cfg cur)
             {| visited := {[cur]} ∪ visited st; resolved := resolved st |}
           = Some st2
         ∧ {[cur]} ∪ visited st ⊆ visited st2.
Proof.
  intros Hvis Hc Hd. destruct d as [|d]; [lia|]. simpl.
  rewrite bool_decide_eq_false_2 by done. rewrite Hc. simpl.
  pose proof (proj1 (contains_section_names cfg cur) Hc) as Hn.
  pose proof (unvisited_mark cfg st cur (resolved st) Hn Hvis) as Hlt.
  destruct (for_each_progress
              (resolve_parent (resolve_recursive entry d cfg) cfg cur) cfg d
              (inherits_list cfg cur))
    with (st := {| visited := {[cur]} ∪ visited st; resolved := resolved st |})
    as (st2 & E & Hsub).
  - intros g s Hs. apply (for_each_progress _ cfg d); [|done].
    intros; by apply resolve_recursive_total.
  - lia.
  - exists st2. rewrite E. split; [|done].
    by rewrite apply_settings_union, apply_settings_direct.
Qed.

(** The traversal of [cur] visits only [cur], its parents, their parents
    and so on. *)
Lemma visited_reach d cfg cur st st' :
  resolve_recursive entry d cfg cur st = Some st' →
  ∀ x, x ∈ visited st' → x ∈ visited st ∨ rtc (parent_of cfg) cur x.
Proof.
  revert cur st st'. induction d as [|d IH]; intros cur st st'; [done|].
  simpl. case_bool_decide as Hvis; [intros [= <-]; auto|].
  destruct (contains_section cfg cur) eqn:Hc; simpl; [|intros [= <-]; auto].
  destruct (for_each _ _ _) as [st2|] eqn:E; [|done]. intros [= <-]. simpl.
  eapply (for_each_preserves _
           (λ s, ∀ x, x ∈ visited s → x ∈ visited st ∨ rtc (parent_of cfg) cur x));
    [|exact E|].
  - intros p s s' Hp Hbody Hs. unfold resolve_parent in Hbody.
    eapply (for_each_preserves _
             (λ s, ∀ x, x ∈ visited s → x ∈ visited st ∨ rtc (parent_of cfg) cur x));
      [|exact Hbody|exact Hs].
    intros t u u' Ht Hrec Hu x Hx.
    destruct (IH _ _ _ Hrec x Hx) as [Hin|Hr]; [by apply Hu|].
    right. eapply rtc_l; [|exact Hr].
    unfold parent_of, get_inheritance_chain. rewrite Hc. simpl.
    apply list_elem_of_join. exists (expand_parent cfg cur p). split; [done|].
    by apply list_elem_of_fmap_2.
  - simpl. intros x Hx. apply elem_of_union in Hx as [Hx|Hx]; [|auto].
    apply elem_of_singleton in Hx as ->. right. done.
Qed.

End Generic.

Lemma resolved_no_inherits {V} (entry : string → string → V) d cfg cur st st' :
  resolve_recursive entry d cfg cur st = Some st' →
  resolved st !! "inherits" = None → resolved st' !! "inherits" = None.
Proof.
  revert cur st st'. induction d as [|d IH]; intros cur st st'; [done|].
  simpl. case_bool_decide as Hvis; [by intros [= <-]|].
  destruct (contains_section cfg cur) eqn:Hc; simpl; [|by intros [= <-]].
  destruct (for_each _ _ _) as [st2|] eqn:E; [|done]. intros [= <-] H. simpl.
  rewrite apply_settings_inherits.
  eapply (for_each_preserves _ (λ s, resolved s !! "inherits" = None));
    [|exact E|done].
  intros p s s' _ Hbody Hs. unfold resolve_parent in Hbody.
  eapply (for_each_preserves _ (λ s, resolved s !! "inherits" = None));
    [|exact Hbody|exact Hs].
  intros t u u' _. apply IH.
Qed.

End ResolveFacts.

Module ResolveTheorems.
Import Py ConfigParserM CompareCoreone ResolveFacts Inputs.

Lemma direct_contains cfg s k v :
  get_direct_settings cfg s !! k = Some v → contains_section cfg s = true.
Proof.
  unfold get_direct_settings. destruct (contains_section cfg s); [done|].
  simpl. by rewrite lookup_empty.
Qed.

Lemma get_direct_settings_inherits cfg s :
  get_direct_settings cfg s !! "inherits" = None.
Proof.
  unfold get_direct_settings. destruct (contains_section cfg s); simpl;
    [|apply lookup_empty].
  induction (items cfg s) as [|kv l IH] using rev_ind; [apply lookup_empty|].
  rewrite foldl_app. simpl. case_bool_decide; [done|].
  by rewrite lookup_insert_ne.
Qed.

Lemma resolve_parents_chain {S} (recurse : string → S → option S) cfg cur l st :
  for_each (resolve_parent recurse cfg cur) l st
  = for_each recurse (mjoin (expand_parent cfg cur <$> l)) st.
Proof.
  rewrite <- for_each_concat. revert st.
  induction l as [|p l IH]; intros st; simpl; [done|].
  unfold resolve_parent at 1. destruct (for_each recurse _ st); [apply IH|done].
Qed.

(** What a top-level resolution returns: the own settings of the section
    laid over whatever the parents contributed. *)
Lemma resolve_with_own {V} (entry : string → string → V) cfg s :
  contains_section cfg s = true →
  ∃ st2, resolve_with entry cfg s
         = Some (((λ v, entry v s) <$> get_direct_settings cfg s) ∪ resolved st2)
       ∧ for_each (resolve_recursive entry (S (length (sections cfg))) cfg)
           (get_inheritance_chain cfg s)
           {| visited := {[s]}; resolved := ∅ |} = Some st2.
Proof.
  intros Hc. unfold resolve_with. rewrite Hc. cbn [negb].
  destruct (resolve_recursive_fresh entry (enough_depth cfg) cfg s
              {| visited := ∅; resolved := ∅ |}) as (st2 & -> & E & _).
  - set_solver.
  - done.
  - apply unvisited_start.
  - exists st2. split; [done|].
    rewrite resolve_parents_chain in E. unfold get_inheritance_chain.
    rewrite Hc. cbn [negb]. simpl in E.
    by rewrite (right_id_L ∅ (∪)) in E.
Qed.

Lemma resolve_profile_own_fields cfg s k v :
  get_direct_settings cfg s !! k = Some v →
  ∃ r, resolve_profile cfg s = Some r ∧ r !! k = Some v.
Proof.
  intros Hd. pose proof (direct_contains _ _ _ _ Hd) as Hc.
  destruct (resolve_with_own (λ value _, value) cfg s Hc) as (st2 & E & _).
  eexists. split; [exact E|].
  apply lookup_union_Some_l. by rewrite lookup_fmap, Hd.
Qed.

Lemma resolve_profile_with_source_own_fields cfg s k v :
  get_direct_settings cfg s !! k = Some v →
  ∃ r, resolve_profile_with_source cfg s = Some r ∧ r !! k = Some (v, s).
Proof.
  intros Hd. pose proof (direct_contains _ _ _ _ Hd) as Hc.
  destruct (resolve_with_own (λ value cur, (value, cur)) cfg s Hc)
    as (st2 & E & _).
  eexists. split; [exact E|].
  apply lookup_union_Some_l. by rewrite lookup_fmap, Hd.
Qed.

Lemma resolve_with_no_inherits {V} (entry : string → string → V) cfg s :
  ∃ r, resolve_with entry cfg s = Some r ∧ r !! "inherits" = None.
Proof.
  destruct (resolve_with_total entry cfg s) as [r Hr]. exists r. split; [done|].
  unfold resolve_with in Hr. destruct (contains_section cfg s); cbn [negb] in Hr.
  - destruct (resolve_recursive _ _ _ _ _) as [st'|] eqn:E; [|done].
    simpl in Hr. injection Hr as <-.
    eapply resolved_no_inherits; [exact E|]. apply lookup_empty.
  - injection Hr as <-. apply lookup_empty.
Qed.

(** Where the later parent does win, and self-precedence.  Let the
    inheritance chain of [C] be [A; B] and let [B] define [k] itself.
    If [C] does not define [k], and [B] is neither [A] nor reached from
    [A] through inheritance, then [resolve(C)[k]] is [resolve(B)[k]],
    which is the value [B] gives.  If [C] defines [k] itself,
    [resolve(C)[k]] is the value [C] gives, whatever the parents say.
    Both resolutions return. *)
Lemma override_precedence cfg C A B k b :
  get_inheritance_chain cfg C = [A; B] →
  get_direct_settings cfg B !! k = Some b →
  (get_direct_settings cfg C !! k = None →
   ¬ rtc (parent_of cfg) A B →
   ∃ rC rB, resolve_profile cfg C = Some rC ∧ resolve_profile cfg B = Some rB
            ∧ rC !! k = rB !! k ∧ rC !! k = Some b)
  ∧ (∀ c, get_direct_settings cfg C !! k = Some c →
          ∃ rC, resolve_profile cfg C = Some rC ∧ rC !! k = Some c).
Proof.
  intros Hchain HB. split; [|intros c; apply resolve_profile_own_fields].
  intros HC Hanc.
  assert (contains_section cfg C = true) as HcC.
  { unfold get_inheritance_chain in Hchain.
    by destruct (contains_section cfg C). }
  pose proof (direct_contains _ _ _ _ HB) as HcB.
  destruct (resolve_profile_own_fields _ _ _ _ HB) as (rB & ErB & HrB).
  destruct (resolve_with_own (λ value _, value) cfg C HcC) as (st2 & E & Hloop).
  rewrite Hchain in Hloop. cbn [for_each] in Hloop.
  set (L := length (sections cfg)) in *.
  set (st1 := {| visited := {[C]}; resolved := (∅ : gmap string string) |}) in *.
  assert (unvisited cfg st1 < S L) as Hst1.
  { pose proof (unvisited_start (V:=string) cfg) as H0.
    pose proof (unvisited_mark cfg {| visited := ∅; resolved := ∅ |} C
                  (∅ : gmap string string)
                  (proj1 (contains_section_names cfg C) HcC)) as H1.
    simpl in H1. rewrite (right_id_L ∅ (∪)) in H1.
    unfold enough_depth in H0. fold L in H0.
    assert (C ∉ (∅ : gset string)) as Hn by set_solver.
    specialize (H1 Hn). fold st1 in H1. lia. }
  destruct (resolve_recursive_total (λ value _, value) (S L) cfg A st1 Hst1)
    as (stA & EA & HsubA).
  rewrite EA in Hloop.
  assert (B ∉ visited stA) as HBv.
  { intros Hin.
    destruct (visited_reach _ _ _ _ _ _ EA B Hin) as [HinC|Hr]; [|done].
    simpl in HinC. apply elem_of_singleton in HinC as ->. congruence. }
  destruct (resolve_recursive_fresh (λ value _, value) (S L) cfg B stA HBv HcB)
    as (st3 & EB & _ & _).
  { pose proof (unvisited_mono cfg _ _ HsubA). lia. }
  rewrite EB in Hloop. injection Hloop as <-.
  exists (((λ v, v) <$> get_direct_settings cfg C)
            ∪ (((λ v, v) <$> get_direct_settings cfg B) ∪ resolved st3)), rB.
  split; [exact E|]. split; [done|].
  assert ((((λ v : string, v) <$> get_direct_settings cfg C)
             ∪ (((λ v : string, v) <$> get_direct_settings cfg B) ∪ resolved st3))
            !! k = Some b) as Hk.
  { rewrite lookup_union_r by (by rewrite lookup_fmap, HC).
    apply lookup_union_Some_l. by rewrite lookup_fmap, HB. }
  by rewrite Hk, HrB.
Qed.

(** The failing input of C5 is [diamond], where [A] inherits from [B]:
    [B] is visited while [A] is being resolved, the visited set then
    skips it as the second parent, and the value of [A] stays. *)
Lemma override_precedence_fails :
  ¬ (∀ cfg C A B k a b,
       get_inheritance_chain cfg C = [A; B] →
       get_direct_settings cfg A !! k = Some a →
       get_direct_settings cfg B !! k = Some b →
       a ≠ b →
       get_direct_settings cfg C !! k = None →
       resolve_profile cfg C ≫= (.!! k) = resolve_profile cfg B ≫= (.!! k)).
Proof.
  intros H.
  specialize (H diamond "print:C" "print:A" "print:B" "k" "1" "2").
  vm_compute in H. specialize (H eq_refl eq_refl eq_refl).
  discriminate H; [discriminate|done].
Qed.

End ResolveTheorems.

Module InheritanceTheorems.
Import Py ConfigParserM CompareCoreone ResolveFacts ResolveTheorems.
Import Base ProfileParserM ProfileConverters Inputs.

Lemma override_precedence_witness :
  ∃ rC rB, resolve_profile two_parents "print:C" = Some rC
           ∧ resolve_profile two_parents "print:B" = Some rB
           ∧ rC !! "k" = rB !! "k" ∧ rC !! "k" = Some "2".
Proof.
  assert (get_inheritance_chain two_parents "print:C" = ["print:A"; "print:B"])
    as H1 by (vm_compute; reflexivity).
  assert (get_direct_settings two_parents "print:B" !! "k" = Some "2")
    as H2 by (vm_compute; reflexivity).
  destruct (override_precedence two_parents "print:C" "print:A" "print:B"
              "k" "2" H1 H2) as [H _].
  apply H; [vm_compute; reflexivity|].
  intros Hr. inversion Hr as [|? y ? Hstep _].
  unfold parent_of in Hstep. vm_compute in Hstep. inversion Hstep.
Defined.

(** C8.  A regular parent name (not a template pattern between stars)
    that is neither a name of the configuration nor one after the type
    prefix is added stands for no section: the loop body returns the state
    it was given, so the name adds nothing to the visited set or to the
    resolved settings, nothing is raised, and the loop over the other
    parents runs as if the name were not listed.  The converter's
    resolution likewise leaves [merged] as it is for a name that is not in
    [all_profiles]. *)
Theorem missing_parent_skipped :
  (∀ (S : Type) (recurse : string → S → option S) cfg cur p,
     startswith "*" p && endswith "*" p = false →
     contains_section cfg p = false →
     contains_section cfg (List.hd "" (split ":" cur) +:+ ":" +:+ p) = false →
     expand_parent cfg cur p = []
     ∧ (∀ st, resolve_parent recurse cfg cur p st = Some st)
     ∧ (∀ before after st,
          for_each (resolve_parent recurse cfg cur) (before ++ p :: after) st
          = for_each (resolve_parent recurse cfg cur) (before ++ after) st))
  ∧ (∀ recurse registry (all_profiles : gmap string block) p,
       all_profiles !! p = None →
       (∀ merged, merge_parent recurse registry all_profiles (Returned merged) p
                  = Returned merged)
       ∧ (∀ before after acc,
            foldl (merge_parent recurse registry all_profiles) acc
                  (before ++ p :: after)
            = foldl (merge_parent recurse registry all_profiles) acc
                    (before ++ after))).
Proof.
  split.
  - intros S recurse cfg cur p Hw Hp Hc.
    assert (expand_parent cfg cur p = []) as He.
    { unfold expand_parent. rewrite Hw, Hp, Hc. done. }
    assert (∀ st, resolve_parent recurse cfg cur p st = Some st) as Hskip.
    { intros st. unfold resolve_parent. by rewrite He. }
    split; [done|]. split; [done|].
    intros before after st. rewrite !for_each_app.
    destruct (for_each _ before st) as [s|]; [|done].
    cbn [mbind option_bind for_each]. by rewrite Hskip.
  - intros recurse registry all_profiles p Hp.
    assert (∀ acc, merge_parent recurse registry all_profiles acc p = acc) as Hskip.
    { intros [merged|e]; simpl; [by rewrite Hp|done]. }
    split; [intros; apply Hskip|].
    intros before after acc. rewrite !foldl_app. simpl. by rewrite Hskip.
Qed.

Lemma missing_parent_skipped_witness :
  (expand_parent two_parents "print:C" "gone" = []
   ∧ (∀ st : rstate (V:=string),
        resolve_parent (resolve_recursive (λ v _, v) 3 two_parents)
          two_parents "print:C" "gone" st = Some st)
   ∧ (∀ before after (st : rstate (V:=string)),
        for_each (resolve_parent (resolve_recursive (λ v _, v) 3 two_parents)
                    two_parents "print:C") (before ++ "gone" :: after) st
        = for_each (resolve_parent (resolve_recursive (λ v _, v) 3 two_parents)
                      two_parents "print:C") (before ++ after) st))
  ∧ (∀ merged : gmap string ini_value,
       merge_parent (λ _, Returned ∅) new_registry
         ({["base" := [("name", Str "base")]]} : gmap string block)
         (Returned merged) "gone" = Returned merged).
Proof.
  split.
  - apply (proj1 missing_parent_skipped); vm_compute; reflexivity.
  - apply (proj2 missing_parent_skipped). vm_compute; reflexivity.
Defined.

(** The converter on a two-record cycle *)
Lemma foldl_merge_parent_raised recurse registry
    (all_profiles : gmap string block) e ps :
  foldl (merge_parent recurse registry all_profiles) (Raised e) ps = Raised e.
Proof. induction ps as [|p ps IH]; [done|]. simpl. apply IH. Qed.

Lemma foldl_merge_parent_raises recurse registry
    (all_profiles : gmap string block) p parent ps acc :
  p ∈ ps → all_profiles !! p = Some parent →
  (∃ e, recurse parent = Raised e) →
  (∀ q parent', q ∈ ps → all_profiles !! q = Some parent' →
                ∃ r, recurse parent' = r) →
  ∃ e, foldl (merge_parent recurse registry all_profiles) acc ps = Raised e.
Proof.
  intros Hin Hp [e He] _. revert acc.
  induction ps as [|q ps IH]; intros acc; [by apply elem_of_nil in Hin|].
  simpl. apply elem_of_cons in Hin as [->|Hin].
  - destruct acc as [merged|e']; simpl.
    + rewrite Hp, He. rewrite foldl_merge_parent_raised. eauto.
    + rewrite foldl_merge_parent_raised. eauto.
  - by apply IH.
Qed.

Lemma converter_cycle_never_returns registry (all_profiles : gmap string block)
    A B pa pb sa sb :
  all_profiles !! A = Some pa → all_profiles !! B = Some pb →
  assoc "inherits" pa = Some (Str sa) → assoc "inherits" pb = Some (Str sb) →
  B ∈ strip <$> split ";" sa → A ∈ strip <$> split ";" sb →
  ∀ depth,
    (∃ e, _resolve_inherited_settings depth registry all_profiles pa = Raised e)
    ∧ (∃ e, _resolve_inherited_settings depth registry all_profiles pb = Raised e).
Proof.
  intros HA HB Hia Hib HBa HAb depth.
  induction depth as [|depth [IHa IHb]]; [simpl; eauto|].
  split; simpl.
  - rewrite Hia. eapply foldl_merge_parent_raises; eauto.
  - rewrite Hib. eapply foldl_merge_parent_raises; eauto.
Qed.

(** C2, for the converter of converters/profile_converters.py.  On two
    records that inherit from each other [_resolve_inherited_settings]
    has no visited set: whatever the number of frames it is allowed, it
    uses them up and ends in RecursionError, for either record. *)
Theorem converter_cycle_recursion_error :
  ∀ depth registry,
    _resolve_inherited_settings depth registry cyclic_profiles
      [("name", Str "A"); ("inherits", Str "B"); ("x", Str "1")]
    = Raised RecursionError
    ∧ _resolve_inherited_settings depth registry cyclic_profiles
        [("name", Str "B"); ("inherits", Str "A"); ("y", Str "2")]
      = Raised RecursionError.
Proof.
  intros depth registry. induction depth as [|depth [IHa IHb]]; [done|].
  split.
  - change (merge_parent
              (_resolve_inherited_settings depth registry cyclic_profiles)
              registry cyclic_profiles (Returned ∅) "B" = Raised RecursionError).
    unfold merge_parent.
    change (cyclic_profiles !! "B")
      with (Some [("name", Str "B"); ("inherits", Str "A"); ("y", Str "2")]).
    cbv beta iota. by rewrite IHb.
  - change (merge_parent
              (_resolve_inherited_settings depth registry cyclic_profiles)
              registry cyclic_profiles (Returned ∅) "A" = Raised RecursionError).
    unfold merge_parent.
    change (cyclic_profiles !! "A")
      with (Some [("name", Str "A"); ("inherits", Str "B"); ("x", Str "1")]).
    cbv beta iota. by rewrite IHa.
Qed.

(** The resolver of compare_coreone_profiles.py on the same cycle: both
    sections resolve, each to its own settings over the other's. *)
Example cyclic_config_resolves :
  (map_to_list <$> resolve_profile cyclic_config "print:A")
  = Some [("y", "2"); ("x", "1")]
  ∧ (map_to_list <$> resolve_profile cyclic_config "print:B")
    = Some [("y", "2"); ("x", "1")].
Proof. vm_compute. done. Qed.

End InheritanceTheorems.

Module RegistryFacts.
Import Py Base.

(** Repeated [dict.update]: a key holds what the last writer gave it. *)
Lemma update_fold_lookup {A V} (f : A → gmap string V) (m0 : gmap string V)
    (l : list A) t x :
  foldl (λ acc a, f a ∪ acc) m0 l !! t = Some x ↔
    (∃ l1 a l2, l = l1 ++ a :: l2 ∧ f a !! t = Some x
                ∧ ∀ a', a' ∈ l2 → f a' !! t = None)
    ∨ (m0 !! t = Some x ∧ ∀ a, a ∈ l → f a !! t = None).
Proof.
  induction l as [|a l IH] using rev_ind.
  - simpl. split.
    + intros H. right. split; [done|]. intros a Ha. by apply elem_of_nil in Ha.
    + intros [(l1 & a & l2 & Hl & _)|[H _]]; [|done].
      by destruct l1.
  - rewrite foldl_app. simpl. rewrite lookup_union_Some_raw. split.
    + intros [Ha|[Hn Hrest]].
      * left. exists l, a, []. split; [done|]. split; [done|].
        intros a' Ha'. by apply elem_of_nil in Ha'.
      * apply IH in Hrest as [(l1 & b & l2 & -> & Hb & Hl2)|[Hm Hall]].
        -- left. exists l1, b, (l2 ++ [a]). split; [by rewrite <- app_assoc|].
           split; [done|]. intros a' Ha'.
           apply elem_of_app in Ha' as [?|Ha']; [auto|].
           by apply list_elem_of_singleton in Ha' as ->.
        -- right. split; [done|]. intros a' Ha'.
           apply elem_of_app in Ha' as [?|Ha']; [auto|].
           by apply list_elem_of_singleton in Ha' as ->.
    + intros [(l1 & b & l2 & Hl & Hb & Hl2)|[Hm Hall]].
      * destruct l2 as [|c l2 _] using rev_ind.
        -- apply app_inj_tail in Hl as [-> ->]. by left.
        -- rewrite app_comm_cons, app_assoc in Hl.
           apply app_inj_tail in Hl as [-> ->]. right. split.
           ++ apply Hl2. apply elem_of_app. right. by left.
           ++ apply IH. left. exists l1, b, l2. split; [done|]. split; [done|].
              intros a' Ha'. apply Hl2. apply elem_of_app. by left.
      * right. split.
        -- apply Hall. apply elem_of_app. right. by left.
        -- apply IH. right. split; [done|].
           intros a' Ha'. apply Hall. apply elem_of_app. by left.
Qed.

Section Registry.
Context {V : Type}.
Implicit Types (self : ConverterRegistry V) (c : BaseConverter V).

(** The loop of [convert_setting] as repeated updates by the matching
    converters *)
Lemma convert_loop_settings k (v : V) (l : list (BaseConverter V)) acc :
  settings (foldl (convert_step k v) acc l).1
  = foldl (λ m c, settings (convert c k v) ∪ m) (settings acc.1)
          (List.filter (λ c, can_convert c k v) l).
Proof.
  revert acc. induction l as [|c l IH]; intros acc; [done|].
  simpl. rewrite IH. unfold convert_step.
  destruct (can_convert c k v); done.
Qed.

Lemma convert_setting_ignored self k (v : V) :
  k ∈ ignored_keys self → convert_setting self k v = new_result.
Proof.
  intros H. unfold convert_setting. by rewrite bool_decide_eq_true_2.
Qed.

Lemma convert_setting_settings self k (v : V) :
  k ∉ ignored_keys self →
  settings (convert_setting self k v)
  = foldl (λ m c, settings (convert c k v) ∪ m) ∅
          (List.filter (λ c, can_convert c k v) (converters self)).
Proof.
  intros H. unfold convert_setting. rewrite bool_decide_eq_false_2 by done.
  pose proof (convert_loop_settings k v (converters self) (new_result, false)) as E.
  destruct (foldl _ _ _) as [merged found]. simpl in E.
  by destruct found.
Qed.

Lemma filter_split {A} (p : A → bool) l l1 a l2 :
  List.filter p l = l1 ++ a :: l2 →
  ∃ k1 k2, l = k1 ++ a :: k2 ∧ p a = true ∧ List.filter p k2 = l2.
Proof.
  revert l1. induction l as [|b l IH]; intros l1; simpl.
  - by destruct l1.
  - destruct (p b) eqn:Hb.
    + destruct l1 as [|b' l1]; simpl; intros [= -> E].
      * exists [], l. by subst.
      * destruct (IH _ E) as (k1 & k2 & -> & ? & ?).
        exists (b' :: k1), k2. done.
    + intros E. destruct (IH _ E) as (k1 & k2 & -> & ? & ?).
      exists (b :: k1), k2. done.
Qed.

Lemma filter_elem {A} (p : A → bool) (l : list A) a :
  a ∈ List.filter p l ↔ a ∈ l ∧ p a = true.
Proof.
  rewrite !list_elem_of_In. apply filter_In.
Qed.

(** The reports and the [found_converter] flag of the same loop *)
Lemma convert_loop_report k (v : V) (l : list (BaseConverter V)) acc :
  needs_manual_conversion (foldl (convert_step k v) acc l).1
  = needs_manual_conversion acc.1
    ++ (List.filter (λ c, can_convert c k v) l
          ≫= λ c, needs_manual_conversion (convert c k v))
  ∧ (foldl (convert_step k v) acc l).2
    = acc.2 || match List.filter (λ c, can_convert c k v) l with
               | [] => false
               | _ => true
               end.
Proof.
  revert acc. induction l as [|c l IH]; intros [r found]; simpl.
  - by rewrite app_nil_r, orb_false_r.
  - destruct (IH (convert_step k v (r, found) c)) as [-> ->].
    unfold convert_step. simpl. destruct (can_convert c k v); simpl.
    + rewrite <- app_assoc. by rewrite orb_true_r.
    + done.
Qed.

Lemma convert_setting_report self k (v : V) :
  k ∉ ignored_keys self →
  needs_manual_conversion (convert_setting self k v)
  = (List.filter (λ c, can_convert c k v) (converters self)
       ≫= λ c, needs_manual_conversion (convert c k v))
    ++ match List.filter (λ c, can_convert c k v) (converters self) with
       | [] => [k]
       | _ => []
       end.
Proof.
  intros Hk. unfold convert_setting. rewrite bool_decide_eq_false_2 by done.
  destruct (convert_loop_report k v (converters self) (new_result, false))
    as [Hr Hf].
  destruct (foldl _ _ _) as [merged found]. simpl in Hr, Hf. subst found.
  rewrite <- Hr.
  destruct (List.filter _ (converters self)); simpl; [done|].
  by rewrite app_nil_r.
Qed.

(** Only a custom converter can report a key. *)
Lemma builtin_converter_reports_nothing c k (v : V) :
  (∀ can_convert_func convert_func,
     c ≠ CustomConverter can_convert_func convert_func) →
  needs_manual_conversion (convert c k v) = [].
Proof.
  intros Hc. destruct c as [| |? conversions|f g]; simpl; try done.
  - clear Hc. induction conversions as [|x l IH] using rev_ind; [done|].
    rewrite foldl_app. simpl. exact IH.
  - by destruct (Hc f g).
Qed.

End Registry.
End RegistryFacts.

Module RegistryTheorems.
Import Py Base RegistryFacts Inputs.

Lemma update_fold_dom {A V} (f : A → gmap string V) (m0 : gmap string V)
    (l : list A) a :
  a ∈ l → dom (f a) ⊆ dom (foldl (λ acc a, f a ∪ acc) m0 l).
Proof.
  induction l as [|b l IH] using rev_ind; [by intros ?%elem_of_nil|].
  rewrite foldl_app. simpl. rewrite dom_union_L.
  intros [Ha|Ha%list_elem_of_singleton]%elem_of_app.
  - specialize (IH Ha). set_solver.
  - subst. set_solver.
Qed.

Section Conversion.
Context {V : Type}.
Implicit Types (self : ConverterRegistry V) (c : BaseConverter V).

(** C4.  For a key that is not ignored, the settings of
    [convert_setting] hold, under every target key, the value given by
    the last converter of the registry that matches the source key and
    writes that target; so every matching converter contributes all of its
    target keys, and where two of them write the same target the later
    one wins. *)
Theorem convert_setting_fan_out self k (v : V) :
  k ∉ ignored_keys self →
  (∀ t x,
     settings (convert_setting self k v) !! t = Some x ↔
     ∃ l1 c l2,
       converters self = l1 ++ c :: l2 ∧ can_convert c k v = true
       ∧ settings (convert c k v) !! t = Some x
       ∧ ∀ c', c' ∈ l2 → can_convert c' k v = true →
               settings (convert c' k v) !! t = None)
  ∧ (∀ c, c ∈ converters self → can_convert c k v = true →
          dom (settings (convert c k v))
            ⊆ dom (settings (convert_setting self k v))).
Proof.
  intros Hk. rewrite convert_setting_settings by done. split.
  - intros t x. rewrite update_fold_lookup. split.
    + intros [(l1 & c & l2 & Hl & Hc & Hl2)|[H _]];
        [|by rewrite lookup_empty in H].
      apply filter_split in Hl as (k1 & k2 & -> & Hp & <-).
      exists k1, c, k2. repeat split; try done.
      intros c' Hin Hcan. apply Hl2. by apply filter_elem.
    + intros (l1 & c & l2 & -> & Hc & Hx & Hl2). left.
      exists (List.filter (λ c, can_convert c k v) l1), c,
             (List.filter (λ c, can_convert c k v) l2).
      split; [by rewrite List.filter_app; simpl; rewrite Hc|].
      split; [done|]. intros c' [? ?]%filter_elem. auto.
  - intros c Hin Hcan.
    apply (update_fold_dom (λ c, settings (convert c k v))).
    by apply filter_elem.
Qed.

Lemma convert_dict_fold self (l : list (string * V)) acc :
  foldl (λ acc kv,
           let result := convert_setting self kv.1 kv.2 in
           (settings result ∪ acc.1, acc.2 ++ needs_manual_conversion result))
        acc l
  = (foldl (λ m kv, settings (convert_setting self kv.1 kv.2) ∪ m) acc.1 l,
     acc.2 ++ (l ≫= λ kv, needs_manual_conversion (convert_setting self kv.1 kv.2))).
Proof.
  revert acc. induction l as [|kv l IH]; intros [m n]; simpl.
  - by rewrite app_nil_r.
  - rewrite IH. simpl. by rewrite <- app_assoc.
Qed.

(** C6.  An ignored key converts to no settings and no report.  A key
    that is not ignored and that no converter matches converts to no
    settings and the report of exactly that key.  [convert_dict] reports
    the concatenation of the reports of all its keys, in order, and its
    settings hold under every target key what the last source key that
    produces it gave.  For a key that is not ignored, the settings are
    those of the matching converters laid over each other in the order
    of registration, and the report is what the matching converters
    report themselves, followed by the key when there is no matching
    converter and by nothing otherwise; a converter that is not a custom
    one reports nothing, so that a key with only such matches is never
    reported.  And [convert_dict] keeps every target key of every
    converter that matches one of its keys that are not ignored,
    whatever is reported for the other keys. *)
Theorem unconverted_keys_reported self :
  (∀ k (v : V), k ∈ ignored_keys self →
      settings (convert_setting self k v) = ∅
      ∧ needs_manual_conversion (convert_setting self k v) = [])
  ∧ (∀ k (v : V), k ∉ ignored_keys self →
       (∀ c, c ∈ converters self → can_convert c k v = false) →
       settings (convert_setting self k v) = ∅
       ∧ needs_manual_conversion (convert_setting self k v) = [k])
  ∧ (∀ prusa_settings : list (string * V),
       (convert_dict self prusa_settings).2
       = (prusa_settings ≫= λ kv,
            needs_manual_conversion (convert_setting self kv.1 kv.2))
       ∧ ∀ t x,
           (convert_dict self prusa_settings).1 !! t = Some x ↔
           ∃ l1 kv l2,
             prusa_settings = l1 ++ kv :: l2
             ∧ settings (convert_setting self kv.1 kv.2) !! t = Some x
             ∧ ∀ kv', kv' ∈ l2 →
                 settings (convert_setting self kv'.1 kv'.2) !! t = None)
  ∧ (∀ k (v : V), k ∉ ignored_keys self →
       let matching :=
         List.filter (λ c, can_convert c k v) (converters self) in
       settings (convert_setting self k v)
       = foldl (λ m c, settings (convert c k v) ∪ m) ∅ matching
       ∧ needs_manual_conversion (convert_setting self k v)
         = (matching ≫= λ c, needs_manual_conversion (convert c k v))
           ++ match matching with [] => [k] | _ => [] end)
  ∧ (∀ c k (v : V),
       (∀ can_convert_func convert_func,
          c ≠ CustomConverter can_convert_func convert_func) →
       needs_manual_conversion (convert c k v) = [])
  ∧ (∀ (prusa_settings : list (string * V)) kv c,
       kv ∈ prusa_settings → kv.1 ∉ ignored_keys self →
       c ∈ converters self → can_convert c kv.1 kv.2 = true →
       dom (settings (convert c kv.1 kv.2))
         ⊆ dom (convert_dict self prusa_settings).1).
Proof.
  split_and!.
  - intros k v Hk. by rewrite convert_setting_ignored.
  - intros k v Hk Hnone. unfold convert_setting.
    rewrite bool_decide_eq_false_2 by done.
    assert (foldl (convert_step k v) (new_result, false) (converters self)
            = (new_result, false)) as ->; [|done].
    induction (converters self) as [|c l IH]; [done|]. simpl.
    unfold convert_step at 2. rewrite Hnone by (by left). simpl.
    apply IH. intros c' Hc'. apply Hnone. by right.
  - intros prusa_settings. unfold convert_dict. rewrite convert_dict_fold.
    simpl. split; [done|]. intros t x.
    rewrite (update_fold_lookup
               (λ kv : string * V, settings (convert_setting self kv.1 kv.2))).
    split.
    + intros [H|[H _]]; [done|by rewrite lookup_empty in H].
    + intros H. by left.
  - intros k v Hk. cbv zeta. split.
    + by apply convert_setting_settings.
    + by apply convert_setting_report.
  - intros c k v. apply builtin_converter_reports_nothing.
  - intros prusa_settings kv c Hkv Hk Hc Hcan.
    unfold convert_dict. rewrite convert_dict_fold. cbn [fst].
    etrans; [|apply (update_fold_dom
                       (λ kv : string * V,
                          settings (convert_setting self kv.1 kv.2))
                       ∅ prusa_settings kv Hkv)].
    cbn beta. rewrite convert_setting_settings by done.
    apply (update_fold_dom (λ c, settings (convert c kv.1 kv.2))).
    by apply filter_elem.
Qed.

(** C10.  [convert_setting] on an ignored key returns the empty result
    whatever converters are registered, matching or not; in particular
    this holds for every key passed to [register_ignore]. *)
Theorem ignore_takes_precedence self :
  (∀ k (v : V), k ∈ ignored_keys self → convert_setting self k v = new_result)
  ∧ (∀ prusa_keys k (v : V), k ∈ prusa_keys →
       convert_setting (register_ignore self prusa_keys) k v = new_result).
Proof.
  split.
  - intros k v. apply convert_setting_ignored.
  - intros prusa_keys k v Hk. apply convert_setting_ignored. simpl.
    apply elem_of_union. right. by apply elem_of_list_to_set.
Qed.

End Conversion.

Lemma unconverted_keys_reported_witness :
  (settings (convert_setting two_rules "skipped" "1") = ∅
   ∧ needs_manual_conversion (convert_setting two_rules "skipped" "1") = [])
  ∧ (settings (convert_setting two_rules "other" "1") = ∅
     ∧ needs_manual_conversion (convert_setting two_rules "other" "1")
       = ["other"])
  ∧ needs_manual_conversion (convert_setting two_rules "speed" "60") = []
  ∧ dom (settings (convert (SimpleKeyConverter "speed" "outer_wall_speed" None)
                     "speed" "60"))
      ⊆ dom (convert_dict two_rules [("other", "1"); ("speed", "60")]).1.
Proof.
  destruct (unconverted_keys_reported two_rules)
    as (Hign & Hnone & _ & Hmatch & _ & Hdict).
  split; [|split; [|split]].
  - apply Hign. unfold two_rules. simpl. set_solver.
  - apply Hnone.
    + unfold two_rules. simpl. set_solver.
    + intros c Hc. unfold two_rules in Hc. simpl in Hc.
      apply elem_of_cons in Hc as [->|Hc]; [done|].
      apply list_elem_of_singleton in Hc as ->. done.
  - assert ("speed" ∉ ignored_keys two_rules) as Hk.
    { unfold two_rules. simpl. set_solver. }
    pose proof (Hmatch "speed" "60" Hk) as Hm. cbv zeta in Hm.
    destruct Hm as [_ ->]. reflexivity.
  - apply (Hdict [("other", "1"); ("speed", "60")] ("speed", "60")).
    + right. by left.
    + unfold two_rules. simpl. set_solver.
    + unfold two_rules. simpl. by left.
    + reflexivity.
Defined.

Lemma ignore_takes_precedence_witness :
  convert_setting two_rules "skipped" "1" = new_result
  ∧ convert_setting (register_ignore two_rules ["speed"]) "speed" "60"
    = new_result.
Proof.
  destruct (ignore_takes_precedence two_rules) as [Hign Hreg].
  split.
  - apply Hign. unfold two_rules. simpl. set_solver.
  - apply Hreg. by left.
Defined.

Example two_rules_speed :
  map_to_list (settings (convert_setting two_rules "speed" "60"))
  = [("outer_wall_speed", "60"); ("travel_speed", "60")]
  ∧ convert_setting two_rules "skipped" "1" = new_result
  ∧ needs_manual_conversion (convert_setting two_rules "other" "1") = ["other"].
Proof. repeat split; vm_compute; reflexivity. Qed.

Lemma convert_setting_fan_out_witness :
  ("speed" ∉ ignored_keys two_rules)
  ∧ (∀ t x,
       settings (convert_setting two_rules "speed" "60") !! t = Some x ↔
       ∃ l1 c l2,
         converters two_rules = l1 ++ c :: l2 ∧ can_convert c "speed" "60" = true
         ∧ settings (convert c "speed" "60") !! t = Some x
         ∧ ∀ c', c' ∈ l2 → can_convert c' "speed" "60" = true →
                 settings (convert c' "speed" "60") !! t = None)
  ∧ (∀ c, c ∈ converters two_rules → can_convert c "speed" "60" = true →
          dom (settings (convert c "speed" "60"))
            ⊆ dom (settings (convert_setting two_rules "speed" "60"))).
Proof.
  assert ("speed" ∉ ignored_keys two_rules) as Hk.
  { unfold two_rules. simpl. set_solver. }
  split; [exact Hk|]. exact (convert_setting_fan_out two_rules "speed" "60" Hk).
Defined.

End RegistryTheorems.

Module RegistrationTheorems.
Import Py Base Inputs.

Section Registration.
Context {V : Type}.
Implicit Types (self : ConverterRegistry V) (c : BaseConverter V).

Lemma allowed_keys_spec self t s :
  s ∈ allowed_keys self t ↔
  ∃ g, _mutually_exclusive_groups self !! t = Some g ∧ s ∈ g.
Proof.
  unfold allowed_keys. destruct (_mutually_exclusive_groups self !! t) as [g|];
    simpl; [naive_solver|]. split; [set_solver|naive_solver].
Qed.

Lemma register_simple_conflict self s t (f : option (V → V)) s' :
  _orca_key_mappings self !! t = Some s' → s' ≠ s →
  (s ∈ allowed_keys self t →
   register_simple self s t f
   = Returned (register (set_mapping self t s) (SimpleKeyConverter s t f)))
  ∧ (s ∉ allowed_keys self t → register_simple self s t f = Raised ValueError).
Proof.
  intros Hm Hne. unfold register_simple, allowed_keys. rewrite Hm.
  rewrite bool_decide_eq_true_2 by done.
  destruct (_mutually_exclusive_groups self !! t) as [g|]; simpl.
  - split; intros H.
    + by rewrite bool_decide_eq_false_2 by (by intros ?).
    + by rewrite bool_decide_eq_true_2.
  - split; [set_solver|done].
Qed.

Lemma register_simple_inv self s t (f : option (V → V)) self' :
  register_simple self s t f = Returned self' →
  converters self' = converters self ++ [SimpleKeyConverter s t f]
  ∧ _mutually_exclusive_groups self' = _mutually_exclusive_groups self
  ∧ ignored_keys self' = ignored_keys self
  ∧ ((_orca_key_mappings self !! t = None
      ∧ _orca_key_mappings self' = <[t := s]> (_orca_key_mappings self))
     ∨ (_orca_key_mappings self !! t = Some s
        ∧ _orca_key_mappings self' = _orca_key_mappings self)
     ∨ (∃ s', _orca_key_mappings self !! t = Some s' ∧ s' ≠ s
              ∧ s ∈ allowed_keys self t
              ∧ _orca_key_mappings self' = <[t := s]> (_orca_key_mappings self))).
Proof.
  unfold register_simple, allowed_keys.
  destruct (_orca_key_mappings self !! t) as [s'|] eqn:Hm.
  - case_bool_decide as Hne.
    + destruct (_mutually_exclusive_groups self !! t) as [g|] eqn:Hg; [|done].
      case_bool_decide as Hin; [done|]. intros [= <-]. simpl.
      repeat split; try done. right; right. exists s'.
      split; [done|]. split; [done|]. split; [|done]. done.
    + intros [= <-]. simpl. repeat split; try done. right; left.
      split; [|done]. by f_equal.
  - intros [= <-]. simpl. repeat split; try done. by left.
Qed.

Lemma claims_consistent_register_other self c :
  (∀ k t f, c ≠ SimpleKeyConverter k t f) →
  claims_consistent self → claims_consistent (register self c).
Proof.
  intros Hc HJ t. destruct (HJ t) as [[Hm Hno]|(first & cur & Hm & Hcur & Hall)].
  - left. split; [done|]. intros k f Hin. simpl in Hin.
    apply elem_of_app in Hin as [Hin|Hin%list_elem_of_singleton].
    + by eapply Hno.
    + by eapply Hc.
  - right. exists first, cur. split; [done|]. split; [done|].
    intros k f Hin. simpl in Hin.
    apply elem_of_app in Hin as [Hin|Hin%list_elem_of_singleton].
    + by eapply Hall.
    + symmetry in Hin. by apply Hc in Hin.
Qed.

Lemma built_claims_consistent self : built self → claims_consistent self.
Proof.
  induction 1 as [|self s t f self' _ IH Hreg|self ks o f _ IH|self k cs _ IH
                  |self cf cv _ IH|self ks _ IH|self o ks _ IH].
  - intros t. left. split; [apply lookup_empty|].
    intros k f Hin. by apply elem_of_nil in Hin.
  - apply register_simple_inv in Hreg as (Hconv & Hgrp & _ & Hmap).
    intros t'. unfold allowed_keys. rewrite Hgrp, Hconv.
    fold (allowed_keys self t').
    destruct (decide (t' = t)) as [->|Hne].
    + destruct (IH t) as [[Hm Hno]|(first & cur & Hm & Hcur & Hall)].
      * right. exists s, s.
        destruct Hmap as [[_ ->]|[[Hm' _]|(s' & Hm' & _)]]; try congruence.
        split; [apply lookup_insert_eq|]. split; [by left|].
        intros k f' [Hin|Hin%list_elem_of_singleton]%elem_of_app.
        -- by apply Hno in Hin.
        -- injection Hin as -> _. by left.
      * right. exists first.
        destruct Hmap as [[Hm' _]|[[Hm' ->]|(s' & Hm' & Hne & Hin & ->)]];
          [congruence| |].
        -- exists cur. split; [done|]. split; [done|].
           intros k f' [Hin|Hin%list_elem_of_singleton]%elem_of_app;
             [by eapply Hall|].
           injection Hin as -> _. congruence.
        -- exists s. split; [apply lookup_insert_eq|]. split; [by right|].
           intros k f' [Hin'|Hin'%list_elem_of_singleton]%elem_of_app;
             [by eapply Hall|].
           injection Hin' as -> _. by right.
    + assert (_orca_key_mappings self' !! t' = _orca_key_mappings self !! t')
        as Hsame.
      { destruct Hmap as [[_ ->]|[[_ ->]|(s' & _ & _ & _ & ->)]];
          try done; by rewrite lookup_insert_ne. }
      rewrite Hsame.
      destruct (IH t') as [[Hm Hno]|(first & cur & Hm & Hcur & Hall)].
      * left. split; [done|].
        intros k f' [Hin|Hin%list_elem_of_singleton]%elem_of_app.
        -- by apply Hno in Hin.
        -- congruence.
      * right. exists first, cur. split; [done|]. split; [done|].
        intros k f' [Hin|Hin%list_elem_of_singleton]%elem_of_app;
          [by eapply Hall|congruence].
  - by apply claims_consistent_register_other.
  - by apply claims_consistent_register_other.
  - by apply claims_consistent_register_other.
  - exact IH.
  - intros t. assert (allowed_keys self t
                        ⊆ allowed_keys (register_mutually_exclusive self o ks) t)
      as Hsub.
    { unfold allowed_keys. simpl.
      destruct (_mutually_exclusive_groups self !! o) as [g|] eqn:Hg.
      - destruct (decide (o = t)) as [->|Hne].
        + rewrite lookup_insert_eq, Hg. simpl. set_solver.
        + by rewrite lookup_insert_ne.
      - destruct (decide (o = t)) as [->|Hne].
        + rewrite lookup_insert_eq, Hg. simpl. set_solver.
        + by rewrite lookup_insert_ne. }
    destruct (IH t) as [[Hm Hno]|(first & cur & Hm & Hcur & Hall)].
    + left. done.
    + right. exists first, cur. split; [done|]. split.
      * destruct Hcur; [by left|right; set_solver].
      * intros k f Hin. destruct (Hall k f Hin); [by left|right; set_solver].
Qed.

(** C1, as amended.  (1) When [register_simple] meets a target claimed
    by a different source key, it succeeds if the target's
    mutually-exclusive group lists the new source key, and then the claim
    is reassigned to the new key and the rule is appended; otherwise it
    raises ValueError.  (2) [register_multi] checks nothing: it appends
    its rule and leaves the claims as they are.  (3) In a registry built
    by the convenience methods, two one-to-one rules with the same target
    and different source keys occur only when the target has a declared
    group listing one of the two. *)
Theorem direct_rule_conflicts :
  (∀ self s t (f : option (V → V)) s',
     _orca_key_mappings self !! t = Some s' → s' ≠ s →
     (s ∈ allowed_keys self t →
      ∃ self', register_simple self s t f = Returned self'
               ∧ _orca_key_mappings self' !! t = Some s
               ∧ converters self' = converters self ++ [SimpleKeyConverter s t f])
     ∧ (s ∉ allowed_keys self t →
        register_simple self s t f = Raised ValueError))
  ∧ (∀ self ks t (f : option (V → V)),
       converters (register_multi self ks t f)
       = converters self ++ [MultiKeyConverter ks t f]
       ∧ _orca_key_mappings (register_multi self ks t f)
         = _orca_key_mappings self)
  ∧ (∀ self, built self →
       ∀ t s1 f1 s2 f2,
         SimpleKeyConverter s1 t f1 ∈ converters self →
         SimpleKeyConverter s2 t f2 ∈ converters self →
         s1 ≠ s2 →
         ∃ g, _mutually_exclusive_groups self !! t = Some g ∧ (s1 ∈ g ∨ s2 ∈ g)).
Proof.
  split; [|split].
  - intros self s t f s' Hm Hne.
    destruct (register_simple_conflict self s t f s' Hm Hne) as [Hok Herr].
    split; [|done]. intros Hin. eexists. split; [by apply Hok|].
    simpl. split; [apply lookup_insert_eq|done].
  - done.
  - intros self Hb t s1 f1 s2 f2 H1 H2 Hne.
    destruct (built_claims_consistent self Hb t)
      as [[_ Hno]|(first & cur & _ & _ & Hall)]; [by apply Hno in H1|].
    destruct (Hall _ _ H1) as [->|Hin1].
    + destruct (Hall _ _ H2) as [->|Hin2]; [done|].
      apply allowed_keys_spec in Hin2 as (g & ? & ?). eauto.
    + apply allowed_keys_spec in Hin1 as (g & ? & ?). eauto.
Qed.

End Registration.

Lemma direct_rule_conflicts_witness :
  ∃ self',
    register_simple claimed_in_group "chamber_minimal_temperature"
      "chamber_temperature" None = Returned self'
    ∧ _orca_key_mappings self' !! "chamber_temperature"
      = Some "chamber_minimal_temperature"
    ∧ converters self'
      = converters claimed_in_group
        ++ [SimpleKeyConverter "chamber_minimal_temperature"
              "chamber_temperature" None].
Proof.
  destruct (@direct_rule_conflicts string) as [H _].
  apply (H claimed_in_group "chamber_minimal_temperature"
           "chamber_temperature" None "chamber_temperature").
  - vm_compute. reflexivity.
  - discriminate.
  - unfold allowed_keys. vm_compute. set_solver.
Defined.

(** C1 as stated fails for many-to-one rules: [chamber_temperature] is
    claimed and has no group, yet a many-to-one rule from another source
    key registers, where the one-to-one registration of that key raises. *)
Lemma merge_rule_registered_unchecked :
  register_simple new_registry "chamber_temperature" "chamber_temperature" None
  = Returned claimed
  ∧ _orca_key_mappings claimed !! "chamber_temperature"
    = Some "chamber_temperature"
  ∧ _mutually_exclusive_groups claimed !! "chamber_temperature" = None
  ∧ get_reverse_mapping
      (register_multi claimed ["chamber_minimal_temperature"]
                      "chamber_temperature" None)
      "chamber_temperature"
    = ["chamber_temperature"; "chamber_minimal_temperature"]
  ∧ register_simple claimed "chamber_minimal_temperature"
      "chamber_temperature" None = Raised ValueError.
Proof. repeat split; vm_compute; reflexivity. Qed.

End RegistrationTheorems.

Module CompareFacts.
Import Py ConfigParserM CompareCoreone ResolveFacts ResolveTheorems.

(** *** The work-list loop of [get_all_descendants] *)

Lemma children_in_all (children_map : gmap string (gset string)) k C :
  children_map !! k = Some C → C ⊆ all_children children_map.
Proof.
  intros Hk x Hx. unfold all_children. apply elem_of_union_list.
  exists C. split; [|done].
  apply list_elem_of_fmap. exists (k, C). split; [done|].
  by apply elem_of_map_to_list.
Qed.

Lemma visit_child_measure (U : gset string) st child :
  child ∈ U →
  length (visit_child st child).2 + size (U ∖ (visit_child st child).1)
  = length st.2 + size (U ∖ st.1).
Proof.
  intros HU. unfold visit_child. case_bool_decide as Hin; [done|]. simpl.
  assert (U ∖ st.1 = {[child]} ∪ (U ∖ ({[child]} ∪ st.1))) as ->.
  { apply set_eq. intros x. destruct (decide (x = child)); set_solver. }
  rewrite (size_union {[child]} (U ∖ ({[child]} ∪ st.1))) by set_solver.
  rewrite size_singleton. lia.
Qed.

Lemma visit_children_measure (U : gset string) l st :
  (∀ c, c ∈ l → c ∈ U) →
  length (foldl visit_child st l).2 + size (U ∖ (foldl visit_child st l).1)
  = length st.2 + size (U ∖ st.1).
Proof.
  revert st. induction l as [|c l IH]; intros st Hl; [done|]. simpl.
  rewrite IH by (intros; apply Hl; by right).
  apply visit_child_measure. apply Hl. by left.
Qed.

Lemma descendants_loop_total fuel children_map descendants to_visit :
  length to_visit + size (all_children children_map ∖ descendants) < fuel →
  is_Some (descendants_loop fuel children_map descendants to_visit).
Proof.
  revert descendants to_visit.
  induction fuel as [|fuel IH]; intros D tv Hlt; [lia|]. simpl.
  destruct tv as [|current rest]; [by eexists|].
  destruct (children_map !! current) as [C|] eqn:HC.
  - apply IH.
    pose proof (visit_children_measure (all_children children_map)
                  (elements C) (D, rest)) as Hm.
    simpl in *. rewrite Hm; [lia|].
    intros c Hc. apply elem_of_elements in Hc.
    by apply (children_in_all _ _ _ HC).
  - apply IH. simpl in *. lia.
Qed.

Lemma get_all_descendants_total section children_map :
  is_Some (get_all_descendants section children_map).
Proof.
  apply descendants_loop_total. simpl.
  assert (size (all_children children_map ∖ ∅)
          ≤ size (all_children children_map)); [|lia].
  apply subseteq_size. set_solver.
Qed.

(** *** Keys are never empty *)

Lemma Forall_truthy_keys {V} (l : list (string * V)) :
  nonempty_keys l = true → ∀ k, k ∈ keys l → k ≠ "".
Proof.
  unfold nonempty_keys. rewrite forallb_forall. intros H k Hk ->.
  apply list_elem_of_In in Hk. specialize (H _ Hk). done.
Qed.

Lemma assoc_Some_elem {V} k (v : V) l : assoc k l = Some v → (k, v) ∈ l.
Proof.
  induction l as [|[k' v'] l IH]; [done|]. simpl.
  case_bool_decide as E; [intros [= ->]; subst; by left|].
  intros H. right. auto.
Qed.

Lemma wf_parts cfg :
  nonempty_keys (_defaults cfg) = true
  ∧ ∀ name opts, (name, opts) ∈ _sections cfg → nonempty_keys opts = true.
Proof.
  pose proof (Is_true_eq_true _ (_wf cfg)) as wf. unfold well_formed in wf.
  rewrite !andb_true_iff in wf.
  destruct wf as [[[[[_ Hd] _] _] _] Hs]. split; [done|].
  intros name opts Hin. rewrite forallb_forall in Hs.
  apply list_elem_of_In in Hin. specialize (Hs _ Hin). simpl in Hs.
  by apply andb_true_iff in Hs as [_ ?].
Qed.

Lemma options_nonempty cfg section k : k ∈ options cfg section → k ≠ "".
Proof.
  destruct (wf_parts cfg) as [Hd Hs].
  assert (∀ k, k ∈ keys (sectiondict cfg section) → k ≠ "") as Hown.
  { unfold sectiondict. destruct (assoc section (_sections cfg)) as [opts|] eqn:E.
    - simpl. apply Forall_truthy_keys. eapply Hs. by apply assoc_Some_elem.
    - simpl. intros k' Hk'. by apply elem_of_nil in Hk'. }
  unfold options. case_bool_decide.
  - by apply Forall_truthy_keys.
  - intros [Hk|Hk]%elem_of_app; [by apply Hown|].
    apply list_elem_of_In, filter_In in Hk as [Hk _].
    apply list_elem_of_In in Hk. by apply (Forall_truthy_keys _ Hd).
Qed.

Lemma items_keys cfg section k v :
  (k, v) ∈ items cfg section → k ∈ options cfg section.
Proof.
  unfold items. intros H. apply list_elem_of_omap in H as (k' & Hk' & Hv).
  destruct (get cfg section k'); [|done]. simpl in Hv.
  by injection Hv as -> _.
Qed.

Lemma direct_key_nonempty cfg section k :
  is_Some (get_direct_settings cfg section !! k) → k ≠ "".
Proof.
  unfold get_direct_settings.
  destruct (contains_section cfg section); simpl;
    [|rewrite lookup_empty; by intros [? ?]].
  assert (∀ kv, kv ∈ items cfg section → kv.1 ≠ "") as Hne.
  { intros [k' v'] Hin. simpl. eapply options_nonempty, items_keys, Hin. }
  induction (items cfg section) as [|kv l IH] using rev_ind.
  - simpl. rewrite lookup_empty. by intros [? ?].
  - rewrite foldl_app. simpl. case_bool_decide.
    + apply IH. intros; apply Hne, elem_of_app; by left.
    + destruct (decide (kv.1 = k)) as [<-|Hk].
      * intros _. apply Hne, elem_of_app. right. by left.
      * rewrite lookup_insert_ne by done.
        apply IH. intros; apply Hne, elem_of_app; by left.
Qed.

End CompareFacts.

Module CompareTheorems.
Import Py ConfigParserM CompareCoreone ResolveFacts ResolveTheorems CompareFacts
  Inputs.

Section Classify.
Context (old_profile new_profile : gmap string (string * string))
        (old_direct new_direct : gmap string string).

(** The two recurring steps of the proof below: the key just classified
    joins [direct_changes], and its new entry carries the direct flag. *)
Local Ltac joins_direct_changes Hgrow :=
  let k := fresh "k" in
  intros k; rewrite Hgrow; split; [|by left];
  intros [?| ->]; [done|]; split; [|congruence];
  apply elem_of_app; right; by left.

Local Ltac new_entry_flagged x F :=
  let k := fresh "k" in let e := fresh "e" in
  intros k e; destruct (decide (k = x)) as [->|];
  [rewrite lookup_insert_eq; by intros [= <-]
  |rewrite lookup_insert_ne by done; apply F].

(** What the classification loop has recorded after the keys [l] *)
Lemma classify_loop l :
  let c := foldl (classify_key old_profile new_profile old_direct new_direct)
                 no_changes l in
  (∀ k, k ∈ direct_changes c ↔ k ∈ l ∧ old_direct !! k ≠ new_direct !! k)
  ∧ dom (added c) ∪ dom (removed c) ∪ dom (modified c) = direct_changes c
  ∧ (∀ k, k ∈ dom (added c) → old_direct !! k = None)
  ∧ (∀ k, k ∈ dom (removed c) → new_direct !! k = None)
  ∧ (∀ k, k ∈ dom (modified c) →
          is_Some (old_direct !! k) ∧ is_Some (new_direct !! k))
  ∧ (∀ k e, added c !! k = Some e → direct e = true)
  ∧ (∀ k e, removed c !! k = Some e → direct e = true)
  ∧ (∀ k e, modified c !! k = Some e → mdirect e = true).
Proof.
  induction l as [|x l IH] using rev_ind.
  - simpl. split_and!; try set_solver.
    all: intros k e; rewrite lookup_empty; done.
  - rewrite foldl_app. simpl.
    destruct IH as (Hdc & Hdom & Ha & Hr & Hm & Fa & Fr & Fm).
    set (c := foldl (classify_key old_profile new_profile old_direct new_direct)
                    no_changes l) in *.
    assert (∀ k, k ∈ {[x]} ∪ direct_changes c ↔
                 k ∈ l ++ [x] ∧ old_direct !! k ≠ new_direct !! k
                 ∨ k = x) as Hgrow.
    { intros k. rewrite elem_of_union, elem_of_singleton, Hdc, elem_of_app,
        list_elem_of_singleton. naive_solver. }
    assert (old_direct !! x = new_direct !! x →
            ∀ k, k ∈ direct_changes c ↔
                 k ∈ l ++ [x] ∧ old_direct !! k ≠ new_direct !! k) as Hsame.
    { intros E k. rewrite Hdc, elem_of_app, list_elem_of_singleton.
      naive_solver. }
    unfold classify_key.
    destruct (old_direct !! x) as [o|] eqn:Ho;
      destruct (new_direct !! x) as [n|] eqn:Hn; simpl.
    + case_bool_decide as Hne; simpl.
      * split_and!; try done.
        -- joins_direct_changes Hgrow.
        -- rewrite dom_insert_L. rewrite <- Hdom. set_solver.
        -- intros k Hk. rewrite dom_insert_L in Hk.
           apply elem_of_union in Hk as [->%elem_of_singleton|Hk]; [|auto].
           rewrite Ho, Hn. eauto.
        -- new_entry_flagged x Fm.
      * split_and!; try done. apply Hsame. f_equal.
        by destruct (decide (o = n)).
    + split_and!; try done.
      * joins_direct_changes Hgrow.
      * rewrite dom_insert_L. rewrite <- Hdom. set_solver.
      * intros k Hk. rewrite dom_insert_L in Hk.
        apply elem_of_union in Hk as [->%elem_of_singleton|Hk]; [done|auto].
      * new_entry_flagged x Fr.
    + split_and!; try done.
      * joins_direct_changes Hgrow.
      * rewrite dom_insert_L. rewrite <- Hdom. set_solver.
      * intros k Hk. rewrite dom_insert_L in Hk.
        apply elem_of_union in Hk as [->%elem_of_singleton|Hk]; [done|auto].
      * new_entry_flagged x Fa.
    + split_and!; try done. by apply Hsame.
Qed.

End Classify.

Lemma any_key_true {A} (d : gmap string A) :
  any_key d = true ↔ ∃ k, k ∈ dom d ∧ k ≠ "".
Proof.
  unfold any_key. rewrite existsb_exists. split.
  - intros (k & Hk & Ht). exists k. split.
    + by apply elem_of_elements, list_elem_of_In.
    + intros ->. done.
  - intros (k & Hk & Hne). exists k. split.
    + by apply list_elem_of_In, elem_of_elements.
    + unfold truthy. by rewrite bool_decide_eq_false_2.
Qed.

Lemma with_source_dom cfg section r k :
  resolve_profile_with_source cfg section = Some r →
  is_Some (get_direct_settings cfg section !! k) → k ∈ dom r.
Proof.
  intros Hr [v Hv].
  destruct (resolve_profile_with_source_own_fields _ _ _ _ Hv) as (r' & E & Hk).
  rewrite Hr in E. injection E as <-. apply elem_of_dom. eauto.
Qed.

Lemma direct_change_cases (od nd : gmap string string) k :
  od !! k ≠ nd !! k → is_Some (od !! k) ∨ is_Some (nd !! k).
Proof. destruct (od !! k), (nd !! k); eauto. intros H. by destruct H. Qed.

(** One record of [common]: an entry is stored exactly when some key has
    a direct change, and the entry lists those keys and nothing else. *)
Lemma compare_section_spec old_cfg new_cfg new_children section :
  ∃ r, compare_section old_cfg new_cfg new_children section = Some r
    ∧ match r with
      | Some pc =>
          (∃ key, direct_change old_cfg new_cfg section key)
          ∧ (∀ key, key ∈ direct_changes pc ↔
                    direct_change old_cfg new_cfg section key)
          ∧ dom (added pc) ∪ dom (removed pc) ∪ dom (modified pc)
            = direct_changes pc
          ∧ (∀ key e, added pc !! key = Some e → direct e = true)
          ∧ (∀ key e, removed pc !! key = Some e → direct e = true)
          ∧ (∀ key e, modified pc !! key = Some e → mdirect e = true)
      | None => ∀ key, ¬ direct_change old_cfg new_cfg section key
      end.
Proof.
  unfold compare_section.
  destruct (resolve_with_total (λ value cur, (value, cur)) old_cfg section)
    as [op Hop].
  destruct (resolve_with_total (λ value cur, (value, cur)) new_cfg section)
    as [np Hnp].
  unfold resolve_profile_with_source. rewrite Hop, Hnp. simpl.
  set (od := get_direct_settings old_cfg section).
  set (nd := get_direct_settings new_cfg section).
  destruct (classify_loop op np od nd (elements (dom op ∪ dom np)))
    as (Hdc & Hdom & Ha & Hr & Hm & Fa & Fr & Fm).
  set (c := foldl (classify_key op np od nd) no_changes
                  (elements (dom op ∪ dom np))) in *.
  assert (∀ key, key ∈ direct_changes c ↔
                 direct_change old_cfg new_cfg section key) as Hdc'.
  { intros key. rewrite Hdc. unfold direct_change. fold od nd.
    split; [by intros [_ ?]|]. intros Hd. split; [|done].
    apply elem_of_elements, elem_of_union.
    destruct (direct_change_cases _ _ _ Hd) as [H|H].
    - left. eapply with_source_dom; [exact Hop|exact H].
    - right. eapply with_source_dom; [exact Hnp|exact H]. }
  assert (any_key (added c) || any_key (removed c) || any_key (modified c)
          = true ↔ ∃ key, key ∈ direct_changes c) as Hany.
  { rewrite !orb_true_iff, !any_key_true. rewrite <- Hdom. split.
    - intros [[(k & ? & _)|(k & ? & _)]|(k & ? & _)]; exists k; set_solver.
    - intros (k & Hk).
      assert (k ≠ "") as Hne.
      { rewrite Hdom in Hk. apply Hdc' in Hk.
        destruct (direct_change_cases _ _ _ Hk) as [H|H];
          by eapply direct_key_nonempty. }
      apply elem_of_union in Hk as [[Hk|Hk]%elem_of_union|Hk]; eauto. }
  destruct (any_key (added c) || any_key (removed c) || any_key (modified c)).
  - destruct (get_all_descendants_total section new_children) as [ds ->].
    simpl. eexists. split; [done|]. simpl.
    destruct (proj1 Hany eq_refl) as [key Hkey].
    split; [exists key; by apply Hdc'|]. done.
  - eexists. split; [done|]. intros key Hd. apply Hdc' in Hd.
    assert (false = true); [|done]. apply Hany. eauto.
Qed.

(** The accumulation of [changes] over the common records *)
Lemma changes_loop old_cfg new_cfg new_children l
    (acc : gmap string profile_changes) :
  NoDup l →
  ∃ changes,
    for_each (λ section changes,
                r ← compare_section old_cfg new_cfg new_children section;
                Some (match r with
                      | Some pc => <[section := pc]> changes
                      | None => changes
                      end)) l acc = Some changes
    ∧ ∀ section,
        changes !! section
        = if bool_decide (section ∈ l)
          then match compare_section old_cfg new_cfg new_children section with
               | Some (Some pc) => Some pc
               | _ => acc !! section
               end
          else acc !! section.
Proof.
  intros Hnd. revert acc. induction Hnd as [|x l Hx Hnd IH]; intros acc.
  - exists acc. split; [done|]. intros s. by rewrite bool_decide_eq_false_2
      by apply not_elem_of_nil.
  - simpl.
    destruct (compare_section_spec old_cfg new_cfg new_children x)
      as (r & Hr & _). rewrite Hr. simpl.
    destruct (IH (match r with Some pc => <[x := pc]> acc | None => acc end))
      as (changes & -> & Hch).
    exists changes. split; [done|]. intros s. rewrite Hch.
    destruct (decide (s = x)) as [->|Hne].
    + rewrite (bool_decide_eq_false_2 (x ∈ l)) by done.
      rewrite bool_decide_eq_true_2 by (by left). rewrite Hr.
      destruct r; [apply lookup_insert_eq|done].
    + assert (bool_decide (s ∈ x :: l) = bool_decide (s ∈ l)) as ->.
      { apply bool_decide_ext. set_solver. }
      assert ((match r with Some pc => <[x := pc]> acc | None => acc end) !! s
              = acc !! s) as ->; [|done].
      destruct r; [by rewrite lookup_insert_ne|done].
Qed.

(** What [compare_profiles] does report.  It returns, and a record is
    in [changed_profiles] exactly when it is a CORE One record of both
    generations and some key has a direct change, that is, the two
    generations of the record do not define it alike.  The entry of such
    a record lists in [direct_changes] exactly the keys with a direct
    change, these are the keys of its [added], [removed] and [modified]
    dictionaries taken together, there is at least one, and every entry
    is flagged direct. *)
Lemma changed_profiles_direct_only old_cfg new_cfg section_type :
  ∃ cmp,
    compare_profiles old_cfg new_cfg section_type = Some cmp
    ∧ ∀ section,
        (section ∈ dom (changed_profiles cmp) ↔
           section ∈ get_coreone_sections old_cfg section_type
           ∧ section ∈ get_coreone_sections new_cfg section_type
           ∧ ∃ key, direct_change old_cfg new_cfg section key)
        ∧ ∀ pc, changed_profiles cmp !! section = Some pc →
            (∀ key, key ∈ direct_changes pc ↔
                    direct_change old_cfg new_cfg section key)
            ∧ dom (added pc) ∪ dom (removed pc) ∪ dom (modified pc)
              = direct_changes pc
            ∧ direct_changes pc ≠ ∅
            ∧ (∀ key e, added pc !! key = Some e → direct e = true)
            ∧ (∀ key e, removed pc !! key = Some e → direct e = true)
            ∧ (∀ key e, modified pc !! key = Some e → mdirect e = true).
Proof.
  unfold compare_profiles.
  set (old_sections := list_to_set (get_coreone_sections old_cfg section_type)
                       : gset string).
  set (new_sections := list_to_set (get_coreone_sections new_cfg section_type)
                       : gset string).
  set (new_children := build_inheritance_tree new_cfg section_type).
  destruct (changes_loop old_cfg new_cfg new_children
              (elements (old_sections ∩ new_sections)) ∅)
    as (changes & -> & Hch); [apply NoDup_elements|].
  simpl. eexists. split; [done|]. simpl. intros section.
  specialize (Hch section). rewrite lookup_empty in Hch.
  destruct (compare_section_spec old_cfg new_cfg new_children section)
    as (r & Hr & Hspec). rewrite Hr in Hch.
  assert (section ∈ elements (old_sections ∩ new_sections) ↔
          section ∈ get_coreone_sections old_cfg section_type
          ∧ section ∈ get_coreone_sections new_cfg section_type) as Hcommon.
  { rewrite elem_of_elements, elem_of_intersection.
    unfold old_sections, new_sections. by rewrite !elem_of_list_to_set. }
  split.
  - rewrite elem_of_dom, Hch. case_bool_decide as Hin.
    + destruct r as [pc|].
      * split; [|by eexists]. intros _. apply Hcommon in Hin as [? ?].
        destruct Hspec as [? _]. done.
      * split; [by intros [? ?]|]. intros (_ & _ & key & Hk).
        by apply Hspec in Hk.
    + split; [by intros [? ?]|]. intros (? & ? & _). destruct Hin.
      by apply Hcommon.
  - intros pc Hpc. rewrite Hch in Hpc. case_bool_decide; [|done].
    destruct r as [pc'|]; [|done]. injection Hpc as ->.
    destruct Hspec as ((key & Hkey) & Hdc & Hdom & Fa & Fr & Fm).
    split_and!; try done. intros Hempty.
    apply Hdc in Hkey. rewrite Hempty in Hkey. by apply elem_of_empty in Hkey.
Qed.

(** C3.  Records whose only changes are inherited are never reported,
    although [generate_report] and apply_profile_updates.py are written
    to receive them: for every pair of generations [compare_profiles]
    returns, the dictionary that [generate_report] builds for the
    profiles with only inherited changes is empty, every reported record
    counts as one with direct changes, and a record without a direct
    change is not in [changed_profiles], whatever has changed in its
    resolved profile. *)
Theorem inherited_only_never_reported old_cfg new_cfg section_type :
  ∃ cmp,
    compare_profiles old_cfg new_cfg section_type = Some cmp
    ∧ profiles_with_only_inherited cmp = ∅
    ∧ profiles_with_direct_changes cmp = changed_profiles cmp
    ∧ ∀ section,
        (∀ key, ¬ direct_change old_cfg new_cfg section key) →
        changed_profiles cmp !! section = None.
Proof.
  destruct (changed_profiles_direct_only old_cfg new_cfg section_type)
    as (cmp & E & H).
  exists cmp. split; [exact E|]. split_and!.
  - apply map_empty. intros section.
    unfold profiles_with_only_inherited.
    apply map_lookup_filter_None. right. intros pc Hpc Hempty.
    destruct (H section) as [_ Hpc']. by destruct (Hpc' pc Hpc) as (_ & _ & ? & _).
  - unfold profiles_with_direct_changes. apply map_filter_id.
    intros section pc Hpc. destruct (H section) as [_ Hpc'].
    by destruct (Hpc' pc Hpc) as (_ & _ & ? & _).
  - intros section Hnone. apply not_elem_of_dom.
    destruct (H section) as [Hdom _]. rewrite Hdom.
    intros (_ & _ & key & Hkey). by apply (Hnone key).
Qed.

(** The failing input of C3, a child of a changed parent: [x] of [Q]
    resolves to different values in the two generations, [Q] is a
    record of both, and [Q] is not in [changed_profiles]; the change is
    only seen in the [affects] list of [P]. *)
Lemma inherited_change_not_reported :
  ∃ cmp,
    compare_profiles (generation "1") (generation "2") "print" = Some cmp
    ∧ resolved_change (generation "1") (generation "2") "print:Q @COREONE" "x"
    ∧ "print:Q @COREONE" ∈ get_coreone_sections (generation "1") "print"
    ∧ "print:Q @COREONE" ∈ get_coreone_sections (generation "2") "print"
    ∧ resolve_profile (generation "1") "print:Q @COREONE" ≫= (.!! "x") = Some "1"
    ∧ resolve_profile (generation "2") "print:Q @COREONE" ≫= (.!! "x") = Some "2"
    ∧ changed_profiles cmp !! "print:Q @COREONE" = None
    ∧ (affects <$> changed_profiles cmp !! "print:P @COREONE")
      = Some ["print:Q @COREONE"].
Proof.
  eexists. split; [vm_compute; reflexivity|].
  split_and!; try (vm_compute; reflexivity).
  - unfold resolved_change. vm_compute. discriminate.
  - vm_compute. by right; left.
  - vm_compute. by right; left.
Qed.

(** On the same two generations the parent is reported, with [x] as its
    one direct change. *)
Example parent_change_reported :
  (direct_changes <$>
     (compare_profiles (generation "1") (generation "2") "print"
        ≫= λ cmp, changed_profiles cmp !! "print:P @COREONE"))
  = Some {["x"]}.
Proof. vm_compute. reflexivity. Qed.

End CompareTheorems.

Module DifferTheorems.
Import Py ProfileDifferM NumberDefs.
Local Open Scope Z_scope.

Lemma int_eqb_exact z1 z2 :
  py_eq (PInt z1) (PInt z2) = true ↔ z1 = z2.
Proof.
  simpl. rewrite Z.min_id, Z.sub_diag, !Z.mul_1_r. apply Z.eqb_eq.
Qed.

(** *** Comparing floats and rounding integers *)

Lemma float_eqb_at c m1 e1 m2 e2 :
  c ≤ e1 → c ≤ e2 →
  float_eqb (Finite m1 e1) (Finite m2 e2) = true
  ↔ m1 * 2 ^ (e1 - c) = m2 * 2 ^ (e2 - c).
Proof.
  intros H1 H2. unfold float_eqb. rewrite Z.eqb_eq.
  set (e := Z.min e1 e2).
  assert (c ≤ e) as Hc by lia.
  assert (e ≤ e1 ∧ e ≤ e2) as [He1 He2] by lia.
  replace (e1 - c) with ((e1 - e) + (e - c)) by lia.
  replace (e2 - c) with ((e2 - e) + (e - c)) by lia.
  rewrite !Z.pow_add_r by lia.
  assert (0 < 2 ^ (e - c)) as Hp by (apply Z.pow_pos_nonneg; lia).
  split; [intros E; nia|intros E].
  rewrite !Z.mul_assoc in E. by apply Z.mul_reg_r in E; [|lia].
Qed.

Lemma round_binary64_integer z q :
  0 < z < 2 ^ 53 → 0 < q →
  round_binary64 (z * q) q
  = Finite (z * 2 ^ (52 - Z.log2 z)) (Z.log2 z - 52).
Proof.
  intros [Hz Hz53] Hq. unfold round_binary64.
  assert (0 < z * q) as Hp by nia.
  rewrite (proj2 (Z.eqb_neq _ _)) by lia.
  set (L := Z.log2 z).
  assert (0 ≤ L) as HL0 by apply Z.log2_nonneg.
  assert (L < 53) as HL53.
  { apply Z.log2_lt_pow2; [lia|]. done. }
  destruct (Z.log2_spec z Hz) as [Hlo Hhi]. fold L in Hlo, Hhi.
  pose proof (Z.log2_mul_below z q Hz Hq) as Hb.
  pose proof (Z.log2_mul_above z q ltac:(lia) ltac:(lia)) as Ha.
  fold L in Hb, Ha.
  set (e0 := Z.log2 (z * q) - Z.log2 q).
  assert (e0 = L ∨ e0 = L + 1) as He0 by lia.
  rewrite (proj2 (Z.leb_le 0 e0)) by lia.
  assert ((if z * q <? q * 2 ^ e0 then e0 - 1 else e0) = L) as ->.
  { destruct He0 as [->| ->].
    - rewrite (proj2 (Z.ltb_ge _ _)); [done|]. nia.
    - rewrite (proj2 (Z.ltb_lt _ _)); [lia|].
      replace (Z.succ L) with (L + 1) in Hhi by lia. nia. }
  clearbody e0. clear He0 Hb Ha e0.
  rewrite Z.max_l by lia.
  destruct (decide (L = 52)) as [HL|HL].
  - rewrite HL. change (52 - 52) with 0. change (0 <=? 0) with true. cbv iota.
    rewrite Z.pow_0_r, !Z.mul_1_r.
    rewrite Z.div_mul by lia. rewrite Z.mod_mul by lia.
    rewrite (proj2 (Z.ltb_ge _ _)) by lia.
    rewrite (proj2 (Z.eqb_neq _ _)) by lia. simpl.
    rewrite (proj2 (Z.leb_gt _ _)); [done|].
    assert (2 ^ 53 < 2 ^ 1024) by (apply Z.pow_lt_mono_r; lia). lia.
  - rewrite (proj2 (Z.leb_gt 0 (L - 52))) by lia.
    replace (- (L - 52)) with (52 - L) by lia.
    replace (z * q * 2 ^ (52 - L)) with (z * 2 ^ (52 - L) * q) by lia.
    rewrite Z.div_mul by lia. rewrite Z.mod_mul by lia.
    rewrite (proj2 (Z.ltb_ge _ _)) by lia.
    rewrite (proj2 (Z.eqb_neq _ _)) by lia. simpl. done.
Qed.

Lemma decimal_range cp d : decimal cp = Some d → 0 ≤ d ≤ 9.
Proof.
  unfold decimal. destruct (List.find _ _) as [zero|] eqn:E; [|done].
  apply List.find_some in E as [_ E]. intros [= <-]. lia.
Qed.

Lemma digit_range s d w : digit s = Some (d, w) → 0 ≤ d ≤ 9.
Proof.
  unfold digit. destruct (code_point s) as [[cp w']|]; [|done].
  destruct (decimal cp) as [d'|] eqn:E; [|done]. intros [= <- _].
  by apply decimal_range in E.
Qed.

Lemma digits_go_nonneg s : ∀ skip acc n,
  0 ≤ acc → 0 ≤ (digits_go skip acc n s).1.1.
Proof.
  induction s as [|c s IH]; intros skip acc n Hacc; [done|].
  cbn [digits_go]. destruct skip as [|k]; [|by apply IH].
  destruct (digit (String c s)) as [[d w]|] eqn:E.
  - apply digit_range in E. apply IH. lia.
  - destruct (_ && _); [by apply IH|done].
Qed.

Lemma digitpart_nonneg s v n r : digitpart s = Some (v, n, r) → 0 ≤ v.
Proof.
  unfold digitpart. destruct (starts_with_digit s); [|done]. intros [= E].
  pose proof (digits_go_nonneg s 0%nat 0 0%nat ltac:(lia)) as H.
  by rewrite E in H.
Qed.

Lemma default_digitpart_nonneg t :
  0 ≤ (default (0, 0%nat, t) (digitpart t)).1.1.
Proof.
  destruct (digitpart t) as [[[v n] r]|] eqn:E; [|done].
  by apply digitpart_nonneg in E.
Qed.

Lemma fraction_nonneg s2 :
  0 ≤ (match s2 with
       | String "." t => default (0, 0%nat, t) (digitpart t)
       | _ => (0, 0%nat, s2)
       end).1.1.
Proof.
  destruct s2 as [|a t]; [done|].
  destruct a as [[|] [|] [|] [|] [|] [|] [|] [|]]; try done.
  apply default_digitpart_nonneg.
Qed.

Lemma parse_decimal_nonneg s negative mantissa exponent :
  parse_decimal s = Some (negative, mantissa, exponent) → 0 ≤ mantissa.
Proof.
  unfold parse_decimal. destruct (sign _) as [neg s1].
  pose proof (default_digitpart_nonneg s1) as H1.
  destruct (default _ (digitpart s1)) as [[i ni] s2]. cbn [fst] in H1.
  pose proof (fraction_nonneg s2) as H2.
  destruct (match s2 with String "." t => _ | _ => _ end) as [[f nf] s3].
  cbn [fst] in H2.
  assert (0 ≤ i * 10 ^ Z.of_nat nf + f) as Hm.
  { assert (0 ≤ 10 ^ Z.of_nat nf) by (apply Z.pow_nonneg; lia). nia. }
  destruct (_ =? _)%nat; [done|].
  destruct s3 as [|c t]; [by intros [= _ <- _]|].
  destruct (_ || _); [|done]. destruct (sign t) as [eneg t1].
  destruct (digitpart t1) as [[[x ?] [|]]|]; try done.
  by intros [= _ <- _].
Qed.

Lemma py_float_written s z :
  contains "." s = true → written_integer s = Some z → Z.abs z < 2 ^ 53 →
  ∃ a, 0 ≤ a ∧ py_float s = Some (Finite (z * 2 ^ a) (- a)).
Proof.
  intros Hdot. unfold written_integer, py_float. rewrite Hdot.
  destruct (parse_decimal s) as [[[negative M] E]|] eqn:Hp; [|done].
  apply parse_decimal_nonneg in Hp.
  assert (∀ m q, 0 ≤ m → 0 < q → Z.abs (if negative then - m else m) < 2 ^ 53 →
            ∃ a, 0 ≤ a
                 ∧ (if negative then float_neg (round_binary64 (m * q) q)
                    else round_binary64 (m * q) q)
                   = Finite ((if negative then - m else m) * 2 ^ a) (- a)) as H.
  { intros m q Hm Hq Hb. destruct (decide (m = 0)) as [->|Hne].
    - exists 0. split; [done|]. by destruct negative.
    - exists (52 - Z.log2 m).
      assert (0 < m < 2 ^ 53) as Hr by (destruct negative; lia).
      assert (Z.log2 m < 53) by (apply Z.log2_lt_pow2; lia).
      split; [lia|]. rewrite (round_binary64_integer m q Hr Hq).
      replace (- (52 - Z.log2 m)) with (Z.log2 m - 52) by lia.
      destruct negative; [|done]. cbn [float_neg]. f_equal. lia. }
  destruct (0 <=? E) eqn:HE.
  - cbn [fmap option_fmap option_map]. intros [= <-] Hb.
    destruct (H (M * 10 ^ E) 1) as (a & Ha & Hf); [|lia|done|].
    { apply Z.mul_nonneg_nonneg; [done|]. apply Z.pow_nonneg. lia. }
    exists a. split; [done|]. rewrite Z.mul_1_r in Hf. by rewrite Hf.
  - destruct (_ =? 0) eqn:Hmod; [|done].
    cbn [fmap option_fmap option_map]. intros [= <-] Hb.
    apply Z.eqb_eq in Hmod. apply Z.leb_gt in HE.
    assert (0 < 10 ^ (- E)) as Hq by (apply Z.pow_pos_nonneg; lia).
    set (q := 10 ^ (- E)) in *.
    assert (M = M `div` q * q) as HM.
    { rewrite Z.mul_comm. apply Z.div_exact; lia. }
    destruct (H (M `div` q) q) as (a & Ha & Hf); [|done|done|].
    { apply Z.div_pos; lia. }
    exists a. split; [done|]. rewrite <- HM in Hf. by rewrite Hf.
Qed.

Lemma float_eqb_scaled z1 a z2 b :
  0 ≤ a → 0 ≤ b →
  float_eqb (Finite (z1 * 2 ^ a) (- a)) (Finite (z2 * 2 ^ b) (- b)) = true
  ↔ z1 = z2.
Proof.
  intros Ha Hb. rewrite (float_eqb_at (- a - b)) by lia.
  replace (- a - (- a - b)) with b by lia.
  replace (- b - (- a - b)) with a by lia.
  assert (0 < 2 ^ a) by (apply Z.pow_pos_nonneg; lia).
  assert (0 < 2 ^ b) by (apply Z.pow_pos_nonneg; lia).
  split; [|intros ->; lia]. intros E.
  assert (z1 * (2 ^ a * 2 ^ b) = z2 * (2 ^ a * 2 ^ b)) as E' by lia.
  apply Z.mul_reg_r in E'; [done|nia].
Qed.

Lemma written_normal s z :
  written_integer s = Some z →
  (contains "." s = true → Z.abs z < 2 ^ 53) →
  ∃ a, 0 ≤ a
       ∧ as_number (_normalize_value (PStr s)) = Some (Finite (z * 2 ^ a) (- a))
       ∧ ∀ v, py_eq (_normalize_value (PStr s)) v
              = match as_number v with
                | Some y => float_eqb (Finite (z * 2 ^ a) (- a)) y
                | None => false
                end.
Proof.
  intros Hw Hb. destruct (contains "." s) eqn:Hdot.
  - destruct (py_float_written s z Hdot Hw (Hb eq_refl)) as (a & Ha & Hf).
    exists a. split; [done|]. cbn [_normalize_value]. rewrite Hdot, Hf.
    split; [done|]. by intros [].
  - exists 0. split; [done|]. unfold written_integer in Hw. rewrite Hdot in Hw.
    cbn [_normalize_value]. rewrite Hdot, Hw. change (2 ^ 0) with 1.
    rewrite Z.mul_1_r. split; [done|]. by intros [].
Qed.

(** C7, as amended.  The strings ["10"] and ["10.0"] compare equal after
    normalization; a list is normalized element by element; a key is in
    [different_values] exactly when both profiles have it and the
    normalized values are unequal; and two strings without a dot that
    both read as integers compare equal exactly when the integers are
    equal.  A string with a dot becomes the float that [float] rounds it
    to, a string without a dot the integer that [int] reads, and a
    string that fails its parse the stripped text.  Two strings with a
    dot compare equal exactly when their floats are equal, so after
    rounding; a string without a dot and one with a dot compare equal
    exactly when the integer is the number that the float stands for;
    a text is equal to a text with the same characters and to no number.
    Strings that write integers, those with a dot below 2^53 in
    magnitude, compare equal exactly when they write the same integer,
    whether they have a dot or not. *)
Theorem normalized_comparison :
  py_eq (_normalize_value (PStr "10")) (_normalize_value (PStr "10.0")) = true
  ∧ (∀ l, _normalize_value (PList l) = PList (_normalize_value <$> l))
  ∧ (∀ converted orca k v w,
       (compare_profiles converted orca).2 !! k = Some (v, w) ↔
       converted !! k = Some v ∧ orca !! k = Some w
       ∧ py_eq (_normalize_value v) (_normalize_value w) = false)
  ∧ (∀ s1 s2 z1 z2,
       contains "." s1 = false → contains "." s2 = false →
       py_int s1 = Some z1 → py_int s2 = Some z2 →
       (py_eq (_normalize_value (PStr s1)) (_normalize_value (PStr s2)) = true
        ↔ z1 = z2))
  ∧ (∀ s,
       _normalize_value (PStr s)
       = if contains "." s
         then from_option PFloat (PStr (strip s)) (py_float s)
         else from_option PInt (PStr (strip s)) (py_int s))
  ∧ (∀ s1 s2 f1 f2,
       contains "." s1 = true → contains "." s2 = true →
       py_float s1 = Some f1 → py_float s2 = Some f2 →
       py_eq (_normalize_value (PStr s1)) (_normalize_value (PStr s2))
       = float_eqb f1 f2)
  ∧ (∀ s1 s2 z f,
       contains "." s1 = false → contains "." s2 = true →
       py_int s1 = Some z → py_float s2 = Some f →
       py_eq (_normalize_value (PStr s1)) (_normalize_value (PStr s2))
       = float_eqb (Finite z 0) f
       ∧ py_eq (_normalize_value (PStr s2)) (_normalize_value (PStr s1))
         = float_eqb f (Finite z 0))
  ∧ (∀ t1 t2 z f,
       (py_eq (PStr t1) (PStr t2) = true ↔ t1 = t2)
       ∧ py_eq (PStr t1) (PInt z) = false
       ∧ py_eq (PInt z) (PStr t1) = false
       ∧ py_eq (PStr t1) (PFloat f) = false
       ∧ py_eq (PFloat f) (PStr t1) = false)
  ∧ (∀ s1 s2 z1 z2,
       written_integer s1 = Some z1 → written_integer s2 = Some z2 →
       (contains "." s1 = true → Z.abs z1 < 2 ^ 53) →
       (contains "." s2 = true → Z.abs z2 < 2 ^ 53) →
       (py_eq (_normalize_value (PStr s1)) (_normalize_value (PStr s2)) = true
        ↔ z1 = z2)).
Proof.
  split_and!.
  - vm_compute. reflexivity.
  - done.
  - intros converted orca k v w. unfold compare_profiles. simpl.
    rewrite lookup_merge.
    destruct (converted !! k) as [v'|], (orca !! k) as [w'|]; simpl;
      try (split; [done|by intros (? & ? & ?)]).
    destruct (py_eq (_normalize_value v') (_normalize_value w')) eqn:E; simpl.
    + split; [done|]. intros ([= ->] & [= ->] & ?). congruence.
    + split; [by intros [= -> ->]|]. by intros ([= ->] & [= ->] & _).
  - intros s1 s2 z1 z2 H1 H2 E1 E2.
    cbn [_normalize_value]. rewrite H1, H2, E1, E2. apply int_eqb_exact.
  - intros s. cbn [_normalize_value].
    destruct (contains "." s); [by destruct (py_float s)|by destruct (py_int s)].
  - intros s1 s2 f1 f2 H1 H2 E1 E2.
    cbn [_normalize_value]. by rewrite H1, H2, E1, E2.
  - intros s1 s2 z f H1 H2 E1 E2.
    cbn [_normalize_value]. by rewrite H1, H2, E1, E2.
  - intros t1 t2 z f. split_and!; try done.
    cbn [py_eq]. apply bool_decide_eq_true.
  - intros s1 s2 z1 z2 W1 W2 B1 B2.
    destruct (written_normal s1 z1 W1 B1) as (a & Ha & _ & E1).
    destruct (written_normal s2 z2 W2 B2) as (b & Hb & E2 & _).
    rewrite E1, E2. by apply float_eqb_scaled.
Qed.

Lemma normalized_comparison_witness :
  py_eq (_normalize_value (PStr " 1_000")) (_normalize_value (PStr "1000")) = true
  ∧ py_eq (_normalize_value (PStr "10")) (_normalize_value (PStr "11")) = false
  ∧ py_eq (_normalize_value (PStr "-2_5.00e1"))
          (_normalize_value (PStr "-250")) = true
  ∧ py_eq (_normalize_value (PStr "0.5e1")) (_normalize_value (PStr "6.00"))
    = false.
Proof.
  destruct normalized_comparison as (_ & _ & _ & H & _ & _ & _ & _ & W).
  split_and!.
  - apply (H " 1_000" "1000" 1000 1000); reflexivity.
  - apply not_true_is_false. intros E.
    apply (H "10" "11" 10 11) in E; [discriminate E|reflexivity..].
  - apply (W "-2_5.00e1" "-250" (-250) (-250));
      first [reflexivity|intros _; reflexivity|intros [=]].
  - apply not_true_is_false. intros E.
    apply (W "0.5e1" "6.00" 5 6) in E;
      first [discriminate E|reflexivity|intros _; reflexivity].
Defined.

(** C7 as stated fails where [float()] rounds: the two strings write the
    different numbers 2^53+1 and 2^53, both become the float 2^53, and
    nothing is reported. *)
Lemma rounding_hides_difference :
  parse_decimal "9007199254740993.0" = Some (false, 90071992547409930, -1)
  ∧ parse_decimal "9007199254740992.0" = Some (false, 90071992547409920, -1)
  ∧ written_integer "9007199254740993.0" = Some 9007199254740993
  ∧ written_integer "9007199254740992.0" = Some 9007199254740992
  ∧ (compare_profiles {[ "layer_height" := PStr "9007199254740993.0" ]}
                      {[ "layer_height" := PStr "9007199254740992.0" ]}).2 = ∅.
Proof. split_and!; vm_compute; reflexivity. Qed.

(** A string without a dot goes to [int()] only: the exponent form stays
    text, and is reported against the integer it writes. *)
Example exponent_form_stays_text :
  _normalize_value (PStr "1e5") = PStr "1e5"
  ∧ py_eq (_normalize_value (PStr "1e5")) (_normalize_value (PStr "100000"))
    = false.
Proof. split; vm_compute; reflexivity. Qed.

(** [int] reads at most 4300 digits: a longer string without a dot stays
    text, and two such strings are compared character by character. *)
Example int_digit_limit :
  py_int (repeated 4300 "1") = Some ((10 ^ 4300 - 1) / 9)
  ∧ py_int (repeated 4301 "1") = None
  ∧ _normalize_value (PStr (repeated 4301 "1")) = PStr (repeated 4301 "1")
  ∧ py_eq (_normalize_value (PStr (repeated 4301 "0")))
          (_normalize_value (PStr "0")) = false.
Proof. split_and!; vm_compute; reflexivity. Qed.

(** [int] and [float] read the decimal digits of every script, and skip
    the no-break space as they skip the blank. *)
Example digits_of_other_scripts :
  py_int (String "217" (String "163" "")) = Some 3
  ∧ float_eqb (Finite 3 (-1))
      <$> py_float (String "194" (String "160" "1.5")) = Some true
  ∧ py_int (String "028" "5") = None
  ∧ strip (String "028" "5") = "5".
Proof. split_and!; vm_compute; reflexivity. Qed.

End DifferTheorems.

Module ParserTheorems.
Import Py ConfigParserM CompareCoreone ResolveFacts ResolveTheorems ProfileParserM.

(** C9, as amended.  [resolve_profile] and
    [resolve_profile_with_source] return, and neither their results nor
    [get_direct_settings] has a key [inherits]. *)
Theorem inherits_never_resolved cfg section :
  (∃ r, resolve_profile cfg section = Some r ∧ r !! "inherits" = None)
  ∧ (∃ r, resolve_profile_with_source cfg section = Some r
          ∧ r !! "inherits" = None)
  ∧ get_direct_settings cfg section !! "inherits" = None.
Proof.
  split_and!.
  - apply resolve_with_no_inherits.
  - apply resolve_with_no_inherits.
  - apply get_direct_settings_inherits.
Qed.

(** C9 as stated fails for the records of profile_parser.py: [parse]
    stores the [inherits] line in the block like any other line. *)
Lemma parsed_block_keeps_inherits :
  parse ["[print:child]"; "inherits = base"; "layer_height = 0.25"]
  = Returned
      {| vendor := None;
         by_type := [("print", [[("name", Str "child");
                                 ("inherits", Str "base");
                                 ("layer_height", Str "0.25")]])] |}.
Proof. vm_compute. reflexivity. Qed.

End ParserTheorems.

(* ===================================================================== *)
(** ** More on the resolvers of compare_coreone_profiles.py *)
(* ===================================================================== *)

Module ResolveInvariants.
Import Py ConfigParserM CompareCoreone ResolveFacts ResolveTheorems CompareFacts RegistryFacts.

Lemma resolve_recursive_S {V} (entry : string → string → V) d cfg cur st :
  resolve_recursive entry (S d) cfg cur st
  = if bool_decide (cur ∈ visited st) then Some st
    else if negb (contains_section cfg cur) then Some st
    else
      match for_each (resolve_parent (resolve_recursive entry d cfg) cfg cur)
                     (inherits_list cfg cur)
                     {| visited := {[cur]} ∪ visited st;
                        resolved := resolved st |} with
      | Some st2 =>
          Some {| visited := visited st2;
                  resolved := apply_settings entry cfg cur (resolved st2) |}
      | None => None
      end.
Proof. reflexivity. Qed.

(** *** More depth changes nothing *)
Lemma for_each_mono {A S} (b1 b2 : A → S → option S) l :
  (∀ x s s', b1 x s = Some s' → b2 x s = Some s') →
  ∀ s s', for_each b1 l s = Some s' → for_each b2 l s = Some s'.
Proof.
  intros Hb. induction l as [|x l IH]; intros s s'; simpl; [done|].
  destruct (b1 x s) as [s1|] eqn:E; [|done].
  rewrite (Hb _ _ _ E). apply IH.
Qed.

Lemma resolve_recursive_deeper {V} (entry : string → string → V) d cfg cur st st' :
  resolve_recursive entry d cfg cur st = Some st' →
  resolve_recursive entry (S d) cfg cur st = Some st'.
Proof.
  revert cur st st'. induction d as [|d IH]; intros cur st st'; [done|].
  rewrite (resolve_recursive_S entry d), (resolve_recursive_S entry (S d)).
  case_bool_decide; [done|].
  destruct (negb (contains_section cfg cur)); [done|].
  destruct (for_each _ _ _) as [st2|] eqn:E; [|done].
  intros <-.
  rewrite (for_each_mono _ (resolve_parent (resolve_recursive entry (S d) cfg) cfg cur)
             _ ltac:(intros p s s'; unfold resolve_parent; apply for_each_mono;
                     intros; by apply IH) _ _ E).
  done.
Qed.

Lemma resolve_recursive_more {V} (entry : string → string → V) d d' cfg cur st st' :
  d ≤ d' →
  resolve_recursive entry d cfg cur st = Some st' →
  resolve_recursive entry d' cfg cur st = Some st'.
Proof.
  induction 1 as [|d' _ IH]; [done|]. intros H.
  by apply resolve_recursive_deeper, IH.
Qed.

(** *** The two traversals differ only in what they store *)
Lemma for_each_sim {A S T} (g : S → T)
    (b1 : A → S → option S) (b2 : A → T → option T) l :
  (∀ x s, b2 x (g s) = g <$> b1 x s) →
  ∀ s, for_each b2 l (g s) = g <$> for_each b1 l s.
Proof.
  intros Hb. induction l as [|x l IH]; intros s; simpl; [done|].
  rewrite Hb. destruct (b1 x s); simpl; [apply IH|done].
Qed.

Lemma apply_settings_fmap {V W} (e1 : string → string → V)
    (e2 : string → string → W) (f : V → W) cfg cur res :
  (∀ v s, f (e1 v s) = e2 v s) →
  apply_settings e2 cfg cur (f <$> res) = f <$> apply_settings e1 cfg cur res.
Proof.
  intros Hf. unfold apply_settings.
  induction (items cfg cur) as [|kv l IH] using rev_ind; [done|].
  rewrite !foldl_app. simpl. case_bool_decide; [done|].
  by rewrite IH, fmap_insert, Hf.
Qed.

Lemma resolve_recursive_sim {V W} (e1 : string → string → V)
    (e2 : string → string → W) (f : V → W) d cfg cur st :
  (∀ v s, f (e1 v s) = e2 v s) →
  resolve_recursive e2 d cfg cur
    {| visited := visited st; resolved := f <$> resolved st |}
  = (λ st', {| visited := visited st'; resolved := f <$> resolved st' |})
      <$> resolve_recursive e1 d cfg cur st.
Proof.
  intros Hf. revert cur st. induction d as [|d IH]; intros cur st; [done|].
  rewrite !resolve_recursive_S. cbn [visited resolved].
  case_bool_decide; [done|].
  destruct (negb (contains_section cfg cur)); [done|].
  set (g := λ st' : rstate (V:=V),
              {| visited := visited st'; resolved := f <$> resolved st' |}).
  assert (∀ p s, resolve_parent (resolve_recursive e2 d cfg) cfg cur p (g s)
                 = g <$> resolve_parent (resolve_recursive e1 d cfg) cfg cur p s)
    as Hpar.
  { intros p s. unfold resolve_parent. apply (for_each_sim g). intros. apply IH. }
  change {| visited := {[cur]} ∪ visited st; resolved := f <$> resolved st |}
    with (g {| visited := {[cur]} ∪ visited st; resolved := resolved st |}).
  rewrite (for_each_sim g _ _ _ Hpar).
  destruct (for_each _ _ _) as [st2|]; simpl; [|done].
  by rewrite (apply_settings_fmap e1 e2 f).
Qed.

Lemma resolve_with_sim {V W} (e1 : string → string → V)
    (e2 : string → string → W) (f : V → W) cfg s :
  (∀ v s, f (e1 v s) = e2 v s) →
  resolve_with e2 cfg s
  = (λ r : gmap string V, f <$> r) <$> resolve_with e1 cfg s.
Proof.
  intros Hf. unfold resolve_with.
  destruct (negb (contains_section cfg s));
    [cbn [fmap option_fmap option_map]; by rewrite fmap_empty|].
  pose proof (resolve_recursive_sim e1 e2 f (enough_depth cfg) cfg s
                {| visited := ∅; resolved := ∅ |} Hf) as H.
  cbn [visited resolved] in H. rewrite fmap_empty in H. rewrite H.
  by destruct (resolve_recursive e1 (enough_depth cfg) cfg s _).
Qed.


Lemma for_each_sim_elem {A S T} (g : S → T)
    (b1 : A → S → option S) (b2 : A → T → option T) l :
  (∀ x s, x ∈ l → b2 x (g s) = g <$> b1 x s) →
  ∀ s, for_each b2 l (g s) = g <$> for_each b1 l s.
Proof.
  induction l as [|x l IH]; intros Hb s; simpl; [done|].
  rewrite Hb by left. destruct (b1 x s); simpl; [|done].
  apply IH. intros y t Hy. apply Hb. by right.
Qed.

(** *** The members of an inheritance chain *)
Lemma expand_parent_contains cfg cur p x :
  x ∈ expand_parent cfg cur p → contains_section cfg x = true ∧ x ≠ "".
Proof.
  unfold expand_parent. cbv zeta.
  destruct (startswith "*" p && endswith "*" p).
  - intros Hx. apply filter_elem in Hx as [Hx Hp].
    apply andb_true_iff in Hp as [_ Hstar].
    split; [|by intros ->].
    apply contains_section_names. unfold names. set_solver.
  - destruct (contains_section cfg p) eqn:E1.
    + unfold truthy. case_bool_decide; simpl; [by intros ?%elem_of_nil|].
      by intros ->%list_elem_of_singleton.
    + destruct (contains_section cfg (_ +:+ _)) eqn:E2; [|by intros ?%elem_of_nil].
      cbv beta iota. unfold truthy. case_bool_decide; simpl; [by intros ?%elem_of_nil|].
      by intros ->%list_elem_of_singleton.
Qed.

Lemma chain_contains cfg s p :
  p ∈ get_inheritance_chain cfg s →
  contains_section cfg s = true ∧ contains_section cfg p = true ∧ p ≠ "".
Proof.
  unfold get_inheritance_chain.
  destruct (contains_section cfg s); cbn [negb]; [|by intros ?%elem_of_nil].
  intros (l & Hp & Hl)%list_elem_of_join.
  apply list_elem_of_fmap in Hl as (q & -> & _).
  split; [done|]. by eapply expand_parent_contains.
Qed.

Lemma chain_of_parents cfg cur :
  contains_section cfg cur = true →
  mjoin (expand_parent cfg cur <$> inherits_list cfg cur)
  = get_inheritance_chain cfg cur.
Proof. intros Hc. unfold get_inheritance_chain. by rewrite Hc. Qed.

Lemma reach_not_contained cfg s x :
  contains_section cfg s = false → rtc (parent_of cfg) s x → x = s.
Proof.
  intros Hc H. destruct H as [|s y z Hp _]; [done|].
  apply chain_contains in Hp as [? _]. congruence.
Qed.

(** *** What a traversal stores *)
Lemma apply_settings_lookup {V} (entry : string → string → V) cfg cur res k :
  contains_section cfg cur = true →
  apply_settings entry cfg cur res !! k
  = match get_direct_settings cfg cur !! k with
    | Some v => Some (entry v cur)
    | None => res !! k
    end.
Proof.
  intros Hc. rewrite apply_settings_union, apply_settings_direct by done.
  rewrite lookup_union, lookup_fmap.
  destruct (get_direct_settings cfg cur !! k); simpl.
  - by destruct (res !! k).
  - by rewrite (left_id_L None _).
Qed.

Lemma apply_settings_dom {V} (entry : string → string → V) cfg cur res :
  contains_section cfg cur = true →
  dom (apply_settings entry cfg cur res)
  = dom (get_direct_settings cfg cur) ∪ dom res.
Proof.
  intros Hc. rewrite apply_settings_union, apply_settings_direct by done.
  by rewrite dom_union_L, dom_fmap_L.
Qed.

(** Every stored entry was there before the call, or is the own value
    of a section reached from the current one. *)
Lemma resolve_recursive_source {V} (entry : string → string → V)
    d cfg cur st st' :
  resolve_recursive entry d cfg cur st = Some st' →
  ∀ k w, resolved st' !! k = Some w →
    resolved st !! k = Some w
    ∨ ∃ src v, w = entry v src ∧ get_direct_settings cfg src !! k = Some v
               ∧ rtc (parent_of cfg) cur src.
Proof.
  revert cur st st'. induction d as [|d IH]; intros cur st st'; [done|].
  rewrite resolve_recursive_S. case_bool_decide as Hvis; [intros [= <-]; auto|].
  destruct (contains_section cfg cur) eqn:Hc; cbn [negb]; [|intros [= <-]; auto].
  rewrite resolve_parents_chain, chain_of_parents by done.
  destruct (for_each _ _ _) as [st2|] eqn:E; [|done]. intros [= <-] k w.
  cbn [resolved]. rewrite apply_settings_lookup by done.
  destruct (get_direct_settings cfg cur !! k) as [v|] eqn:Hd.
  { intros [= <-]. right. by exists cur, v. }
  revert k w Hd.
  enough (∀ k w, resolved st2 !! k = Some w →
            resolved st !! k = Some w
            ∨ ∃ src v, w = entry v src ∧ get_direct_settings cfg src !! k = Some v
                       ∧ rtc (parent_of cfg) cur src) by eauto.
  eapply (for_each_preserves _
            (λ s, ∀ k w, resolved s !! k = Some w →
               resolved st !! k = Some w
               ∨ ∃ src v, w = entry v src
                          ∧ get_direct_settings cfg src !! k = Some v
                          ∧ rtc (parent_of cfg) cur src)); [|exact E|by auto].
  intros p s s' Hp Hrec Hs k w Hk.
  destruct (IH _ _ _ Hrec k w Hk) as [Hold|(src & v & -> & Hv & Hr)]; [by apply Hs|].
  right. exists src, v. split_and!; [done..|]. by eapply rtc_l.
Qed.

(** What a traversal has visited is closed under inheritance, and the
    own keys of everything it visited are stored. *)
Lemma for_each_closed {V} (rec : string → rstate (V:=V) → option rstate) cfg l :
  (∀ cur st st', rec cur st = Some st' →
     visited st ⊆ visited st'
     ∧ dom (resolved st) ⊆ dom (resolved st')
     ∧ (contains_section cfg cur = true → cur ∈ visited st')
     ∧ (∀ x, x ∈ visited st' → x ∉ visited st →
          dom (get_direct_settings cfg x) ⊆ dom (resolved st')
          ∧ ∀ p, parent_of cfg x p → p ∈ visited st')) →
  (∀ x, x ∈ l → contains_section cfg x = true) →
  ∀ s s', for_each rec l s = Some s' →
    visited s ⊆ visited s'
    ∧ dom (resolved s) ⊆ dom (resolved s')
    ∧ (∀ x, x ∈ l → x ∈ visited s')
    ∧ (∀ x, x ∈ visited s' → x ∉ visited s →
         dom (get_direct_settings cfg x) ⊆ dom (resolved s')
         ∧ ∀ p, parent_of cfg x p → p ∈ visited s').
Proof.
  intros Hrec. induction l as [|y l IH]; intros Hl s s'; simpl.
  - intros [= <-]. split_and!; [done|done|by intros ? ?%elem_of_nil|done].
  - destruct (rec y s) as [s1|] eqn:E; [|done]. intros E'.
    destruct (Hrec _ _ _ E) as (H1 & H2 & H3 & H4).
    destruct (IH (λ x Hx, Hl x (list_elem_of_further _ _ _ Hx)) _ _ E')
      as (I1 & I2 & I3 & I4).
    split_and!.
    + set_solver.
    + set_solver.
    + intros x [->|Hx]%elem_of_cons; [|by apply I3].
      apply I1, H3, Hl. by left.
    + intros x Hx Hn. destruct (decide (x ∈ visited s1)) as [Hin|Hnin].
      * destruct (H4 x Hin Hn) as [Hd Hp]. split; [set_solver|].
        intros p Hpar. apply I1. by apply Hp.
      * by apply I4.
Qed.

Lemma resolve_recursive_closed {V} (entry : string → string → V)
    d cfg cur st st' :
  resolve_recursive entry d cfg cur st = Some st' →
  visited st ⊆ visited st'
  ∧ dom (resolved st) ⊆ dom (resolved st')
  ∧ (contains_section cfg cur = true → cur ∈ visited st')
  ∧ (∀ x, x ∈ visited st' → x ∉ visited st →
       dom (get_direct_settings cfg x) ⊆ dom (resolved st')
       ∧ ∀ p, parent_of cfg x p → p ∈ visited st').
Proof.
  revert cur st st'. induction d as [|d IH]; intros cur st st'; [done|].
  rewrite resolve_recursive_S. case_bool_decide as Hvis.
  { intros [= <-]. split_and!; done. }
  destruct (contains_section cfg cur) eqn:Hc; cbn [negb].
  2:{ intros [= <-]. split_and!; done. }
  rewrite resolve_parents_chain, chain_of_parents by done.
  destruct (for_each _ _ _) as [st2|] eqn:E; [|done]. intros [= <-].
  apply (for_each_closed _ cfg) in E as (I1 & I2 & I3 & I4); [|exact IH|].
  2:{ intros x Hx. by apply chain_contains in Hx as (_ & ? & _). }
  cbn [visited resolved] in *. rewrite apply_settings_dom by done.
  split_and!.
  - set_solver.
  - set_solver.
  - intros _. set_solver.
  - intros x Hx Hn. destruct (decide (x = cur)) as [->|Hne].
    + split; [set_solver|]. intros p Hp. by apply I3.
    + destruct (I4 x Hx) as [Hd Hp]; [set_solver|]. split; [set_solver|done].
Qed.

(** The state behind a top-level call *)
Lemma resolve_with_state {V} (entry : string → string → V) cfg s :
  contains_section cfg s = true →
  ∃ st', resolve_recursive entry (enough_depth cfg) cfg s
           {| visited := ∅; resolved := ∅ |} = Some st'
         ∧ resolve_with entry cfg s = Some (resolved st').
Proof.
  intros Hc.
  destruct (resolve_recursive_total entry (enough_depth cfg) cfg s
              {| visited := ∅; resolved := ∅ |}) as (st' & E & _).
  { apply unvisited_start. }
  exists st'. split; [done|]. unfold resolve_with. rewrite Hc. cbn [negb].
  by rewrite E.
Qed.

Lemma resolve_with_keys {V} (entry : string → string → V) cfg s :
  ∃ r, resolve_with entry cfg s = Some r
    ∧ (∀ k w, r !! k = Some w →
         ∃ src v, w = entry v src ∧ get_direct_settings cfg src !! k = Some v
                  ∧ rtc (parent_of cfg) s src)
    ∧ (∀ src k, rtc (parent_of cfg) s src →
         is_Some (get_direct_settings cfg src !! k) → k ∈ dom r).
Proof.
  destruct (contains_section cfg s) eqn:Hc.
  - destruct (resolve_with_state entry cfg s Hc) as (st' & E & ->).
    exists (resolved st'). split; [done|]. split.
    + intros k w Hk.
      destruct (resolve_recursive_source _ _ _ _ _ _ E k w Hk) as [H|H]; [|done].
      cbn [resolved] in H. by rewrite lookup_empty in H.
    + destruct (resolve_recursive_closed _ _ _ _ _ _ E) as (_ & _ & H3 & H4).
      cbn [visited] in H4.
      assert (∀ src, rtc (parent_of cfg) s src → src ∈ visited st') as Hall.
      { apply (rtc_ind_r (λ y, y ∈ visited st') s); [by apply H3|].
        intros y z _ Hyz Hy. destruct (H4 y Hy) as [_ Hp]; [set_solver|].
        by apply Hp. }
      intros src k Hr Hk. destruct (H4 src) as [Hd _]; [by apply Hall|set_solver|].
      apply Hd. by apply elem_of_dom.
  - exists ∅. split; [unfold resolve_with; by rewrite Hc|]. split.
    + intros k w. by rewrite lookup_empty.
    + intros src k Hr [v Hv]. apply reach_not_contained in Hr as ->; [|done].
      apply direct_contains in Hv. congruence.
Qed.


(** *** Names that the traversal cannot reach do not matter *)
Lemma resolve_recursive_frame {V} (entry : string → string → V)
    d cfg cur st (F : gset string) :
  (∀ x, rtc (parent_of cfg) cur x → x ∉ F) →
  resolve_recursive entry d cfg cur
    {| visited := F ∪ visited st; resolved := resolved st |}
  = (λ st', {| visited := F ∪ visited st'; resolved := resolved st' |})
      <$> resolve_recursive entry d cfg cur st.
Proof.
  revert cur st. induction d as [|d IH]; intros cur st HF; [done|].
  rewrite !resolve_recursive_S. cbn [visited resolved].
  assert (cur ∉ F) as HcF by (by apply HF).
  destruct (decide (cur ∈ visited st)) as [Hin|Hnin].
  { rewrite !bool_decide_eq_true_2 by set_solver. done. }
  rewrite !bool_decide_eq_false_2 by set_solver.
  destruct (contains_section cfg cur) eqn:Hc; cbn [negb]; [|done].
  rewrite !resolve_parents_chain, !chain_of_parents by done.
  set (g := λ st' : rstate (V:=V),
              {| visited := F ∪ visited st'; resolved := resolved st' |}).
  replace ({[cur]} ∪ (F ∪ visited st)) with (F ∪ ({[cur]} ∪ visited st))
    by set_solver.
  change {| visited := F ∪ ({[cur]} ∪ visited st); resolved := resolved st |}
    with (g {| visited := {[cur]} ∪ visited st; resolved := resolved st |}).
  rewrite (for_each_sim_elem g (resolve_recursive entry d cfg)
             (resolve_recursive entry d cfg)).
  - by destruct (for_each _ _ _).
  - intros p s Hp. apply (IH p s). intros x Hx. apply HF. by eapply rtc_l.
Qed.

End ResolveInvariants.

Module ResolveProperties.
Import Py ConfigParserM CompareCoreone ResolveFacts ResolveTheorems CompareFacts
       ResolveInvariants Inputs.

(** X1.  Every entry of [resolve_profile_with_source] names the section that
    supplied it: the value is that section's own value for the key, and
    the section is the resolved one or is reached from it through
    inheritance. *)
Theorem source_is_defining_section cfg s :
  ∃ r, resolve_profile_with_source cfg s = Some r
    ∧ ∀ k v src, r !! k = Some (v, src) →
        get_direct_settings cfg src !! k = Some v
        ∧ rtc (parent_of cfg) s src.
Proof.
  destruct (resolve_with_keys (λ value cur, (value, cur)) cfg s)
    as (r & E & Hsrc & _).
  exists r. split; [exact E|]. intros k v src Hk.
  by destruct (Hsrc _ _ Hk) as (src' & v' & [= -> ->] & ? & ?).
Qed.

(** X2.  The two resolvers agree: [resolve_profile] returns the values of
    [resolve_profile_with_source] with the sources dropped. *)
Theorem resolvers_agree cfg s :
  ∃ r, resolve_profile_with_source cfg s = Some r
    ∧ resolve_profile cfg s = Some (fst <$> r).
Proof.
  destruct (resolve_with_total (λ value cur, (value, cur)) cfg s) as [r E].
  exists r. split; [exact E|]. unfold resolve_profile.
  rewrite (resolve_with_sim (λ value cur, (value, cur)) (λ value _, value) fst)
    by done.
  unfold resolve_profile_with_source in E. by rewrite E.
Qed.

(** X3.  The keys of a resolved profile are the own keys of the section and
    of everything it inherits from, directly or not; and every value is
    the own value of one of these sections. *)
Theorem resolved_keys_are_inherited_keys cfg s :
  ∃ r, resolve_profile cfg s = Some r
    ∧ (∀ k, k ∈ dom r ↔
            ∃ src, rtc (parent_of cfg) s src
                   ∧ is_Some (get_direct_settings cfg src !! k))
    ∧ (∀ k v, r !! k = Some v →
         ∃ src, rtc (parent_of cfg) s src
                ∧ get_direct_settings cfg src !! k = Some v).
Proof.
  destruct (resolve_with_keys (λ value _, value) cfg s) as (r & E & Hsrc & Hall).
  exists r. split; [exact E|].
  assert (∀ k v, r !! k = Some v →
            ∃ src, rtc (parent_of cfg) s src
                   ∧ get_direct_settings cfg src !! k = Some v) as Hval.
  { intros k v Hk. destruct (Hsrc _ _ Hk) as (src & v' & -> & ? & ?). eauto. }
  split; [|exact Hval]. intros k. split.
  - intros [v Hk]%elem_of_dom. destruct (Hval _ _ Hk) as (src & ? & ?).
    exists src. eauto.
  - intros (src & Hr & Hk). by eapply Hall.
Qed.

(** X4.  A section whose inheritance chain is empty (no [inherits] option, or
    none of the names it lists exists) resolves to its own settings. *)
Theorem no_parent_resolves_to_own cfg s :
  get_inheritance_chain cfg s = [] →
  resolve_profile cfg s = Some (get_direct_settings cfg s)
  ∧ resolve_profile_with_source cfg s
    = Some ((λ v, (v, s)) <$> get_direct_settings cfg s).
Proof.
  intros Hchain. destruct (contains_section cfg s) eqn:Hc.
  - split.
    + destruct (resolve_with_own (λ value _, value) cfg s Hc) as (st2 & E & Hl).
      rewrite Hchain in Hl. injection Hl as <-. unfold resolve_profile.
      rewrite E. cbn [resolved]. by rewrite (right_id_L ∅ (∪)), map_fmap_id.
    + destruct (resolve_with_own (λ value cur, (value, cur)) cfg s Hc)
        as (st2 & E & Hl).
      rewrite Hchain in Hl. injection Hl as <-. unfold resolve_profile_with_source.
      rewrite E. cbn [resolved]. by rewrite (right_id_L ∅ (∪)).
  - unfold resolve_profile, resolve_profile_with_source, resolve_with,
      get_direct_settings. rewrite Hc. cbn [negb]. by rewrite fmap_empty.
Qed.

Lemma no_parent_resolves_to_own_witness :
  resolve_profile two_parents "print:A"
  = Some (get_direct_settings two_parents "print:A")
  ∧ resolve_profile_with_source two_parents "print:A"
    = Some ((λ v, (v, "print:A")) <$> get_direct_settings two_parents "print:A").
Proof. apply no_parent_resolves_to_own. reflexivity. Defined.

(** X5.  Single inheritance composes: when the chain of a section is one
    parent that does not inherit back from the section, the resolved
    profile is the resolved profile of the parent overlaid with the
    section's own settings. *)
Theorem single_parent_composes cfg s p :
  get_inheritance_chain cfg s = [p] →
  ¬ rtc (parent_of cfg) p s →
  ∃ rp, resolve_profile cfg p = Some rp
      ∧ resolve_profile cfg s = Some (get_direct_settings cfg s ∪ rp).
Proof.
  intros Hchain Hback.
  assert (p ∈ get_inheritance_chain cfg s) as Hp by (rewrite Hchain; by left).
  apply chain_contains in Hp as (Hcs & Hcp & _).
  destruct (resolve_with_own (λ value _, value) cfg s Hcs) as (st2 & E & Hl).
  rewrite Hchain in Hl. cbn [for_each] in Hl.
  pose proof (resolve_recursive_frame (λ value _, value)
                (S (length (sections cfg))) cfg p
                {| visited := ∅; resolved := ∅ |} {[s]}) as Hfr.
  cbn [visited resolved] in Hfr. rewrite (right_id_L ∅ (∪)) in Hfr.
  rewrite Hfr in Hl.
  2:{ intros x Hx ->%elem_of_singleton. done. }
  destruct (resolve_recursive _ _ _ p _) as [st0|] eqn:E0; [|done].
  cbn in Hl. injection Hl as <-.
  exists (resolved st0). split.
  - unfold resolve_profile, resolve_with. rewrite Hcp. cbn [negb].
    assert (S (length (sections cfg)) ≤ enough_depth cfg) as Hle
      by (unfold enough_depth; lia).
    by rewrite (resolve_recursive_more _ _ _ _ _ _ _ Hle E0).
  - unfold resolve_profile. rewrite E. cbn [resolved]. by rewrite map_fmap_id.
Qed.

Lemma single_parent_composes_witness :
  ∃ rp, resolve_profile (generation "1") "print:P @COREONE" = Some rp
      ∧ resolve_profile (generation "1") "print:Q @COREONE"
        = Some (get_direct_settings (generation "1") "print:Q @COREONE" ∪ rp).
Proof.
  apply single_parent_composes; [reflexivity|].
  intros H. inversion H as [|x y z Hp _]; subst.
  by apply elem_of_nil in Hp.
Defined.

End ResolveProperties.

Module PrecedenceTheorems.
Import Py ConfigParserM CompareCoreone ResolveFacts ResolveTheorems
       ResolveInvariants Inputs.

(** Once a section is resolved from an empty visited set, everything
    that it reaches through inheritance is marked. *)
Lemma reached_is_visited {V} (entry : string → string → V) d cfg cur st' x :
  resolve_recursive entry d cfg cur {| visited := ∅; resolved := ∅ |}
  = Some st' →
  contains_section cfg cur = true →
  rtc (parent_of cfg) cur x → x ∈ visited st'.
Proof.
  intros E Hc Hr.
  destruct (resolve_recursive_closed _ _ _ _ _ _ E) as (_ & _ & Hcur & Hcl).
  revert x Hr. apply (rtc_ind_r (λ y, y ∈ visited st') cur); [by apply Hcur|].
  intros y z _ Hstep Hy.
  destruct (Hcl y) as [_ Hp]; [done|set_solver|]. by apply Hp.
Qed.

(** C5.  The later parent does not win when it is an ancestor of the
    earlier one.  Let the inheritance chain of [C] be [A; B], let [B] be
    reached from [A] through inheritance and [C] not, and let [A] and
    [B] define [k] as [a] and as [b], which [C] does not define.  Then
    all three resolutions return, [resolve(C)] is the own settings of
    [C] laid over [resolve(A)], and [resolve(C)[k]] is [a], the value of
    the earlier parent, while [resolve(B)[k]] is [b]: [B] was marked
    while [A] was resolved, and the visited set that the whole
    resolution shares skips it when its turn as the second parent
    comes. *)
Theorem earlier_parent_shadows_ancestor cfg C A B k a b :
  get_inheritance_chain cfg C = [A; B] →
  rtc (parent_of cfg) A B →
  ¬ rtc (parent_of cfg) A C →
  get_direct_settings cfg A !! k = Some a →
  get_direct_settings cfg B !! k = Some b →
  get_direct_settings cfg C !! k = None →
  ∃ rC rA rB,
    resolve_profile cfg C = Some rC
    ∧ resolve_profile cfg A = Some rA
    ∧ resolve_profile cfg B = Some rB
    ∧ rC = get_direct_settings cfg C ∪ rA
    ∧ rC !! k = Some a
    ∧ rB !! k = Some b.
Proof.
  intros Hchain Hreach Hback HA HB HC.
  assert (A ∈ get_inheritance_chain cfg C) as HinA by (rewrite Hchain; by left).
  apply chain_contains in HinA as (HcC & HcA & _).
  destruct (resolve_with_own (λ value _, value) cfg C HcC) as (st2 & E & Hl).
  rewrite Hchain in Hl. cbn [for_each] in Hl.
  pose proof (resolve_recursive_frame (λ value _, value)
                (S (length (sections cfg))) cfg A
                {| visited := ∅; resolved := ∅ |} {[C]}) as Hfr.
  cbn [visited resolved] in Hfr. rewrite (right_id_L ∅ (∪)) in Hfr.
  rewrite Hfr in Hl.
  2:{ intros x Hx ->%elem_of_singleton. done. }
  destruct (resolve_recursive _ _ _ A _) as [st0|] eqn:E0; [|done].
  cbn [fmap option_fmap option_map mbind option_bind] in Hl.
  pose proof (reached_is_visited _ _ _ _ _ _ E0 HcA Hreach) as HBv.
  rewrite resolve_recursive_S in Hl. cbn [visited] in Hl.
  rewrite bool_decide_eq_true_2 in Hl by set_solver.
  injection Hl as <-. cbn [resolved] in E.
  assert (resolve_profile cfg A = Some (resolved st0)) as EA.
  { unfold resolve_profile, resolve_with. rewrite HcA. cbn [negb].
    assert (S (length (sections cfg)) ≤ enough_depth cfg) as Hle
      by (unfold enough_depth; lia).
    by rewrite (resolve_recursive_more _ _ _ _ _ _ _ Hle E0). }
  destruct (resolve_profile_own_fields _ _ _ _ HA) as (rA & EA' & HrA).
  destruct (resolve_profile_own_fields _ _ _ _ HB) as (rB & EB & HrB).
  rewrite EA in EA'. injection EA' as <-.
  exists (get_direct_settings cfg C ∪ resolved st0), (resolved st0), rB.
  split_and!; try done.
  - unfold resolve_profile. rewrite E. by rewrite map_fmap_id.
  - by rewrite lookup_union_r.
Qed.

Lemma earlier_parent_shadows_ancestor_witness :
  ∃ rC rA rB,
    resolve_profile diamond "print:C" = Some rC
    ∧ resolve_profile diamond "print:A" = Some rA
    ∧ resolve_profile diamond "print:B" = Some rB
    ∧ rC = get_direct_settings diamond "print:C" ∪ rA
    ∧ rC !! "k" = Some "1"
    ∧ rB !! "k" = Some "2".
Proof.
  assert (get_inheritance_chain diamond "print:A" = ["print:B"]) as HA
    by reflexivity.
  assert (get_inheritance_chain diamond "print:B" = []) as HB by reflexivity.
  apply (earlier_parent_shadows_ancestor diamond "print:C" "print:A" "print:B"
           "k" "1" "2"); try reflexivity.
  - apply rtc_once. unfold parent_of. rewrite HA. by left.
  - intros Hr. inversion Hr as [|x y z Hstep Hrest]; subst.
    unfold parent_of in Hstep. rewrite HA in Hstep.
    apply list_elem_of_singleton in Hstep as ->.
    inversion Hrest as [|x y z Hstep' _]; subst.
    unfold parent_of in Hstep'. rewrite HB in Hstep'.
    by apply elem_of_nil in Hstep'.
Defined.

End PrecedenceTheorems.

(* ===================================================================== *)
(** ** The inheritance tree and the comparison *)
(* ===================================================================== *)

Module TreeFacts.
Import Py ConfigParserM CompareCoreone CompareFacts Descendants.

(** *** build_inheritance_tree *)
Lemma add_children_lookup (section : string) parents
    (children : gmap string (gset string)) p c :
  c ∈ default ∅ (foldl (λ children parent,
                          <[parent := {[section]} ∪ default ∅ (children !! parent)]>
                            children) children parents !! p)
  ↔ c ∈ default ∅ (children !! p) ∨ (c = section ∧ p ∈ parents).
Proof.
  revert children. induction parents as [|q parents IH]; intros children; simpl.
  - set_solver.
  - rewrite IH. destruct (decide (q = p)) as [->|Hne].
    + rewrite lookup_insert_eq. simpl. set_solver.
    + rewrite lookup_insert_ne by done. set_solver.
Qed.

Lemma add_children_nonempty (section : string) parents
    (children : gmap string (gset string)) :
  (∀ p C, children !! p = Some C → C ≠ ∅) →
  ∀ p C, foldl (λ children parent,
                  <[parent := {[section]} ∪ default ∅ (children !! parent)]>
                    children) children parents !! p = Some C → C ≠ ∅.
Proof.
  revert children. induction parents as [|q parents IH]; intros children H;
    simpl; [done|].
  apply IH. intros p C. destruct (decide (q = p)) as [->|Hne].
  - rewrite lookup_insert_eq. intros [= <-]. set_solver.
  - rewrite lookup_insert_ne by done. apply H.
Qed.

Lemma tree_loop cfg (l : list string) (acc : gmap string (gset string)) p c :
  c ∈ default ∅ (foldl (λ children section,
           foldl (λ children parent,
                    <[parent := {[section]} ∪ default ∅ (children !! parent)]>
                      children)
                 children (get_inheritance_chain cfg section)) acc l !! p)
  ↔ c ∈ default ∅ (acc !! p) ∨ (c ∈ l ∧ p ∈ get_inheritance_chain cfg c).
Proof.
  revert acc. induction l as [|s l IH]; intros acc; simpl.
  - set_solver.
  - rewrite IH, add_children_lookup. set_solver.
Qed.

Lemma tree_loop_nonempty cfg (l : list string) (acc : gmap string (gset string)) :
  (∀ p C, acc !! p = Some C → C ≠ ∅) →
  ∀ p C, foldl (λ children section,
           foldl (λ children parent,
                    <[parent := {[section]} ∪ default ∅ (children !! parent)]>
                      children)
                 children (get_inheritance_chain cfg section)) acc l !! p = Some C →
         C ≠ ∅.
Proof.
  revert acc. induction l as [|s l IH]; intros acc H; simpl; [done|].
  apply IH. by apply add_children_nonempty.
Qed.

Lemma tree_children cfg section_type p c :
  c ∈ default ∅ (build_inheritance_tree cfg section_type !! p)
  ↔ c ∈ get_coreone_sections cfg section_type ∧ p ∈ get_inheritance_chain cfg c.
Proof.
  unfold build_inheritance_tree. rewrite tree_loop, lookup_empty. simpl.
  set_solver.
Qed.

Lemma child_of_tree cfg section_type p c :
  child_of (build_inheritance_tree cfg section_type) p c
  ↔ c ∈ get_coreone_sections cfg section_type ∧ p ∈ get_inheritance_chain cfg c.
Proof.
  rewrite <- tree_children. unfold child_of. split.
  - intros (C & -> & Hc). done.
  - destruct (_ !! p) as [C|]; simpl; [eauto|set_solver].
Qed.

(** *** get_all_descendants *)
Lemma visit_children_spec l (D : gset string) (W : list string) :
  (foldl visit_child (D, W) l).1 = D ∪ list_to_set l
  ∧ ∀ w, w ∈ (foldl visit_child (D, W) l).2 ↔ w ∈ W ∨ (w ∈ l ∧ w ∉ D).
Proof.
  revert D W. induction l as [|c l IH]; intros D W; simpl.
  - split; [set_solver|]. intros w. rewrite elem_of_nil. tauto.
  - unfold visit_child at 2 4. simpl. case_bool_decide as Hc.
    + destruct (IH D W) as [-> H2]. split; [set_solver|].
      intros w. rewrite H2, elem_of_cons. split; [tauto|].
      intros [?|[[->|?] ?]]; tauto.
    + destruct (IH ({[c]} ∪ D) (c :: W)) as [-> H2]. split; [set_solver|].
      intros w. rewrite H2, !elem_of_cons, not_elem_of_union, elem_of_singleton.
      destruct (decide (w = c)) as [->|]; tauto.
Qed.

Lemma descendants_loop_spec fuel children_map s D W D' :
  descendants_loop fuel children_map D W = Some D' →
  (∀ x, x ∈ D → tc (child_of children_map) s x) →
  (∀ w, w ∈ W → w = s ∨ w ∈ D) →
  (∀ x, x = s ∨ x ∈ D → x ∈ W ∨ ∀ y, child_of children_map x y → y ∈ D) →
  (∀ x, x ∈ D' → tc (child_of children_map) s x)
  ∧ (∀ x, x = s ∨ x ∈ D' → ∀ y, child_of children_map x y → y ∈ D').
Proof.
  revert D W. induction fuel as [|fuel IH]; intros D W; [done|]. simpl.
  destruct W as [|current rest].
  { intros [= <-] Ha Hb Hc. split; [done|]. intros x Hx.
    destruct (Hc x Hx) as [?%elem_of_nil|]; done. }
  destruct (children_map !! current) as [children|] eqn:Hcur.
  - destruct (visit_children_spec (elements children) D rest) as [H1 H2].
    intros E Ha Hb Hc. apply IH in E; [done|..].
    + rewrite H1. intros x [Hx|Hx]%elem_of_union; [by apply Ha|].
      apply elem_of_list_to_set, elem_of_elements in Hx.
      assert (child_of children_map current x) as Hch by (by exists children).
      destruct (Hb current) as [->|Hin]; [by left|by apply tc_once|].
      eapply tc_r; [by apply Ha|done].
    + intros w. rewrite H2, H1. intros [Hw|[Hw _]].
      * destruct (Hb w) as [?|?]; [by right|by left|right; set_solver].
      * right. set_solver.
    + intros x Hx. rewrite H2, H1.
      destruct (decide (x = s ∨ x ∈ D)) as [Hold|Hnew].
      * destruct (Hc x Hold) as [[->|Hin]%elem_of_cons|Hcl].
        -- right. intros y (C & HC & Hy). rewrite Hcur in HC.
           injection HC as <-. set_solver.
        -- by left; left.
        -- right. intros y Hy. set_solver.
      * left. right. destruct Hx as [->|Hx]; [tauto|].
        rewrite H1 in Hx. apply elem_of_union in Hx as [Hx|Hx]; [tauto|].
        split; [set_solver|tauto].
  - intros E Ha Hb Hc. apply IH in E; [done|done|..].
    + intros w Hw. apply Hb. by right.
    + intros x Hx. destruct (Hc x Hx) as [[->|Hin]%elem_of_cons|Hcl]; [|by left|by right].
      right. intros y (C & HC & _). congruence.
Qed.

Lemma descendants_closure section children_map D :
  get_all_descendants section children_map = Some D →
  ∀ x, x ∈ D ↔ tc (child_of children_map) section x.
Proof.
  unfold get_all_descendants. intros E.
  apply (descendants_loop_spec _ _ section) in E as [H1 H2].
  - intros x. split; [apply H1|].
    apply (tc_ind_r (λ z, z ∈ D) section).
    + intros z Hz. apply (H2 section); [by left|done].
    + intros y z _ Hyz Hy. apply (H2 y); [by right|done].
  - set_solver.
  - intros w ->%list_elem_of_singleton. by left.
  - intros x [->|Hx]; [left; by left|set_solver].
Qed.

(** *** compare_section and compare_profiles *)
Lemma compare_section_affects old_cfg new_cfg new_children section pc :
  compare_section old_cfg new_cfg new_children section = Some (Some pc) →
  ∃ ds, get_all_descendants section new_children = Some ds
        ∧ affects pc = sorted ds.
Proof.
  unfold compare_section.
  destruct (resolve_profile_with_source old_cfg section) as [op|]; [|done].
  destruct (resolve_profile_with_source new_cfg section) as [np|]; [|done].
  cbn [mbind option_bind].
  destruct (any_key _ || any_key _ || any_key _); [|done].
  destruct (get_all_descendants section new_children) as [ds|]; [|done].
  cbn [mbind option_bind]. intros [= <-]. by exists ds.
Qed.

Lemma sorted_elem (X : gset string) x : x ∈ sorted X ↔ x ∈ X.
Proof.
  unfold sorted. rewrite (merge_sort_Permutation String.le (elements X)).
  apply elem_of_elements.
Qed.

Lemma sorted_NoDup (X : gset string) : NoDup (sorted X).
Proof.
  unfold sorted. rewrite (merge_sort_Permutation String.le (elements X)).
  apply NoDup_elements.
Qed.

Lemma sorted_StronglySorted (X : gset string) :
  StronglySorted String.le (sorted X).
Proof. apply StronglySorted_merge_sort; apply _. Qed.

Lemma sorted_empty : sorted ∅ = [].
Proof.
  apply Permutation_nil_r. unfold sorted.
  by rewrite (merge_sort_Permutation String.le), elements_empty.
Qed.

Lemma no_self_change cfg section key : ¬ direct_change cfg cfg section key.
Proof. unfold direct_change. by intros H. Qed.

End TreeFacts.

Module TreeTheorems.
Import Py ConfigParserM CompareCoreone CompareFacts CompareTheorems Descendants
       TreeFacts Inputs.

(** X6.  [build_inheritance_tree] lists under a parent exactly the CORE One
    sections of the type whose inheritance chain contains the parent; a
    parent without such a child has no entry. *)
Theorem inheritance_tree_children cfg section_type p :
  (∀ c, child_of (build_inheritance_tree cfg section_type) p c
        ↔ c ∈ get_coreone_sections cfg section_type
          ∧ p ∈ get_inheritance_chain cfg c)
  ∧ (∀ C, build_inheritance_tree cfg section_type !! p = Some C → C ≠ ∅).
Proof.
  split; [intros c; apply child_of_tree|].
  unfold build_inheritance_tree. apply tree_loop_nonempty.
  intros q C. by rewrite lookup_empty.
Qed.

(** X7.  [get_all_descendants] returns, for every children map, and the set
    it returns holds exactly what is reached from the section by one or
    more child steps.  The section itself is in the set only when it
    lies on a cycle. *)
Theorem descendants_are_transitive_children section children_map :
  ∃ ds, get_all_descendants section children_map = Some ds
    ∧ ∀ x, x ∈ ds ↔ tc (child_of children_map) section x.
Proof.
  destruct (get_all_descendants_total section children_map) as [ds E].
  exists ds. split; [exact E|]. by apply descendants_closure.
Qed.

(** X8.  The [affects] list of a changed record holds exactly the CORE One
    sections of the new generation that inherit from the record in one
    or more steps, in ascending order and without repetition. *)
Theorem affects_lists_descendants old_cfg new_cfg section_type :
  ∃ cmp,
    compare_profiles old_cfg new_cfg section_type = Some cmp
    ∧ ∀ section pc, changed_profiles cmp !! section = Some pc →
        (∀ x, x ∈ affects pc ↔
              tc (child_of (build_inheritance_tree new_cfg section_type))
                 section x)
        ∧ StronglySorted String.le (affects pc)
        ∧ NoDup (affects pc).
Proof.
  unfold compare_profiles.
  set (common := list_to_set (get_coreone_sections old_cfg section_type)
                 ∩ list_to_set (get_coreone_sections new_cfg section_type)
                 : gset string).
  set (new_children := build_inheritance_tree new_cfg section_type).
  destruct (changes_loop old_cfg new_cfg new_children (elements common) ∅)
    as (changes & -> & Hch); [apply NoDup_elements|].
  cbn [mbind option_bind]. eexists. split; [done|]. cbn [changed_profiles].
  intros section pc Hpc. rewrite Hch, lookup_empty in Hpc.
  case_bool_decide; [|done].
  destruct (compare_section _ _ _ section) as [[pc'|]|] eqn:E; try done.
  injection Hpc as ->.
  apply compare_section_affects in E as (ds & Hds & ->).
  split_and!; [|apply sorted_StronglySorted|apply sorted_NoDup].
  intros x. rewrite sorted_elem. by apply descendants_closure.
Qed.

(** X9.  [added_profiles] lists exactly the CORE One sections found only in
    the new file and [removed_profiles] those found only in the old one,
    each in ascending order and without repetition; the tree returned is
    the one of the new file. *)
Theorem added_and_removed_profiles old_cfg new_cfg section_type :
  ∃ cmp,
    compare_profiles old_cfg new_cfg section_type = Some cmp
    ∧ (∀ x, x ∈ added_profiles cmp ↔
            x ∈ get_coreone_sections new_cfg section_type
            ∧ x ∉ get_coreone_sections old_cfg section_type)
    ∧ (∀ x, x ∈ removed_profiles cmp ↔
            x ∈ get_coreone_sections old_cfg section_type
            ∧ x ∉ get_coreone_sections new_cfg section_type)
    ∧ StronglySorted String.le (added_profiles cmp)
    ∧ NoDup (added_profiles cmp)
    ∧ StronglySorted String.le (removed_profiles cmp)
    ∧ NoDup (removed_profiles cmp)
    ∧ inheritance_tree cmp = build_inheritance_tree new_cfg section_type.
Proof.
  unfold compare_profiles.
  set (common := list_to_set (get_coreone_sections old_cfg section_type)
                 ∩ list_to_set (get_coreone_sections new_cfg section_type)
                 : gset string).
  set (new_children := build_inheritance_tree new_cfg section_type).
  destruct (changes_loop old_cfg new_cfg new_children (elements common) ∅)
    as (changes & -> & _); [apply NoDup_elements|].
  cbn [mbind option_bind]. eexists. split; [done|].
  cbn [added_profiles removed_profiles inheritance_tree].
  split_and!; try apply sorted_StronglySorted; try apply sorted_NoDup; [| |done].
  - intros x. rewrite sorted_elem. set_solver.
  - intros x. rewrite sorted_elem. set_solver.
Qed.

(** X10.  Comparing a file with itself reports nothing: no profile is added,
    removed or changed. *)
Theorem self_comparison_is_empty cfg section_type :
  ∃ cmp,
    compare_profiles cfg cfg section_type = Some cmp
    ∧ added_profiles cmp = []
    ∧ removed_profiles cmp = []
    ∧ changed_profiles cmp = ∅.
Proof.
  unfold compare_profiles.
  set (cs := list_to_set (get_coreone_sections cfg section_type) : gset string).
  set (new_children := build_inheritance_tree cfg section_type).
  destruct (changes_loop cfg cfg new_children (elements (cs ∩ cs)) ∅)
    as (changes & -> & Hch); [apply NoDup_elements|].
  cbn [mbind option_bind]. eexists. split; [done|].
  cbn [added_profiles removed_profiles changed_profiles].
  rewrite difference_diag_L, sorted_empty. split_and!; [done|done|].
  apply map_eq. intros section. rewrite Hch, !lookup_empty.
  destruct (compare_section_spec cfg cfg new_children section) as (r & -> & Hr).
  destruct r as [pc|]; [|by case_bool_decide].
  destruct Hr as [[key Hkey] _]. by apply no_self_change in Hkey.
Qed.

End TreeTheorems.

(* ===================================================================== *)
(** ** More on the registry *)
(* ===================================================================== *)

Module RegistryMoreFacts.
Import Py Base RegistryFacts RegistryTheorems RegistrationTheorems.

Lemma reverse_mapping_loop {V} (l : list (BaseConverter V)) orca_key acc k :
  k ∈ foldl (λ prusa_keys converter,
               match converter with
               | SimpleKeyConverter k o _ =>
                   if bool_decide (o = orca_key) then prusa_keys ++ [k]
                   else prusa_keys
               | MultiKeyConverter ks o _ =>
                   if bool_decide (o = orca_key) then prusa_keys ++ ks
                   else prusa_keys
               | _ => prusa_keys
               end) acc l
  ↔ k ∈ acc
    ∨ (∃ f, SimpleKeyConverter k orca_key f ∈ l)
    ∨ (∃ ks f, MultiKeyConverter ks orca_key f ∈ l ∧ k ∈ ks).
Proof.
  revert acc. induction l as [|c l IH]; intros acc; simpl.
  - split; [by left|]. intros [?|[[f H] | (ks & f & H & _)]]; [done|..];
      by apply elem_of_nil in H.
  - rewrite IH. split.
    + intros [Hk|[[f H] | (ks & f & H & Hk)]].
      * destruct c as [pk o g|pks o g| |]; try by left.
        -- case_bool_decide as Ho; [|by left].
           apply elem_of_app in Hk as [?| ->%list_elem_of_singleton]; [by left|].
           subst o. right; left. exists g. by left.
        -- case_bool_decide as Ho; [|by left].
           apply elem_of_app in Hk as [?|?]; [by left|].
           subst o. right; right. exists pks, g. split; [by left|done].
      * right; left. exists f. by right.
      * right; right. exists ks, f. split; [by right|done].
    + intros [Hk|[[f H] | (ks & f & H & Hk)]].
      * left. destruct c as [pk o g|pks o g| |]; try done;
          case_bool_decide; try done; apply elem_of_app; by left.
      * apply elem_of_cons in H as [<-|H]; [|right; left; eauto].
        left. rewrite bool_decide_eq_true_2 by done.
        apply elem_of_app. right. by left.
      * apply elem_of_cons in H as [<-|H]; [|right; right; eauto].
        left. rewrite bool_decide_eq_true_2 by done.
        apply elem_of_app. by right.
Qed.

Lemma reverse_mapping_elem {V} (self : ConverterRegistry V) orca_key k :
  k ∈ get_reverse_mapping self orca_key
  ↔ (∃ f, SimpleKeyConverter k orca_key f ∈ converters self)
    ∨ (∃ ks f, MultiKeyConverter ks orca_key f ∈ converters self ∧ k ∈ ks).
Proof.
  unfold get_reverse_mapping. rewrite reverse_mapping_loop.
  split; [intros [?%elem_of_nil|?]; done|by right].
Qed.

Lemma converter_writes {V} (self : ConverterRegistry V) c k (v : V) :
  k ∉ ignored_keys self → c ∈ converters self → can_convert c k v = true →
  dom (settings (convert c k v)) ⊆ dom (settings (convert_setting self k v)).
Proof.
  intros Hi Hc Hcan. rewrite convert_setting_settings by done.
  apply (update_fold_dom (λ c, settings (convert c k v))).
  by apply filter_elem.
Qed.

Lemma convert_setting_register {V} (self : ConverterRegistry V) c k (v : V) :
  k ∉ ignored_keys self →
  convert_setting (register self c) k v
  = let acc := foldl (convert_step k v) (new_result, false) (converters self) in
    if can_convert c k v then merge acc.1 (convert c k v)
    else if negb acc.2 then mark_needs_conversion acc.1 k else acc.1.
Proof.
  intros Hi. unfold convert_setting, register. cbn [ignored_keys converters].
  rewrite bool_decide_eq_false_2 by done. rewrite foldl_app. cbn [foldl].
  unfold convert_step at 1.
  destruct (can_convert c k v); [done|].
  by destruct (foldl _ _ _).
Qed.

Lemma convert_dict_acc {V} (self : ConverterRegistry V)
    (l : list (string * V)) (acc : gmap string V * list string) :
  foldl (λ acc kv,
           let result := convert_setting self kv.1 kv.2 in
           (settings result ∪ acc.1, acc.2 ++ needs_manual_conversion result))
        acc l
  = ((convert_dict self l).1 ∪ acc.1, acc.2 ++ (convert_dict self l).2).
Proof.
  unfold convert_dict. rewrite !convert_dict_fold. cbn [fst snd].
  f_equal. clear. revert acc. induction l as [|kv l IH] using rev_ind; intros acc.
  - cbn. by rewrite (left_id_L ∅ (∪)).
  - rewrite !foldl_app. cbn [foldl]. rewrite IH.
    by rewrite (assoc_L (∪)).
Qed.

Lemma split_convert_loop {V} (conversions : list (string * (V → V))) (v : V)
    (acc : ConversionResult V) :
  let r := foldl (λ result c, add_setting result c.1 (c.2 v)) acc conversions in
  needs_manual_conversion r = needs_manual_conversion acc
  ∧ dom (settings r) = dom (settings acc) ∪ list_to_set conversions.*1
  ∧ ∀ t f, NoDup conversions.*1 → (t, f) ∈ conversions →
           settings r !! t = Some (f v).
Proof.
  revert acc. induction conversions as [|[t0 f0] l IH] using rev_ind; intros acc.
  - cbn. split_and!; [done|set_solver|]. by intros t f _ ?%elem_of_nil.
  - cbn zeta. rewrite foldl_app. cbn [foldl fst snd].
    destruct (IH acc) as (H1 & H2 & H3). split_and!.
    + done.
    + cbn [add_setting settings]. rewrite dom_insert_L, H2, fmap_app. set_solver.
    + intros t f Hnd Hin. cbn [add_setting settings].
      rewrite fmap_app in Hnd. apply NoDup_app in Hnd as (Hnd & Hdis & _).
      apply elem_of_app in Hin as [Hin|Hin].
      * rewrite lookup_insert_ne; [by apply H3|].
        intros <-. apply (Hdis t0); [|by left].
        apply list_elem_of_fmap. by exists (t0, f).
      * apply list_elem_of_singleton in Hin as [= -> ->].
        by rewrite lookup_insert_eq.
Qed.

End RegistryMoreFacts.

Module RegistryProperties.
Import Py Base RegistryFacts RegistryTheorems RegistrationTheorems
       RegistryMoreFacts Inputs.

Section Properties.
Context {V : Type}.
Implicit Types self : ConverterRegistry V.

(** X11.  [get_reverse_mapping] lists a source key for a target exactly when a
    one-to-one rule maps the key to the target or a merge rule for the
    target lists the key; split and custom rules are never reported. *)
Theorem reverse_mapping_rules self orca_key k :
  k ∈ get_reverse_mapping self orca_key
  ↔ (∃ f, SimpleKeyConverter k orca_key f ∈ converters self)
    ∨ (∃ ks f, MultiKeyConverter ks orca_key f ∈ converters self ∧ k ∈ ks).
Proof. apply reverse_mapping_elem. Qed.

(** X12.  The reverse mapping is sound for conversion: a source key that it
    reports for a target, and that is not ignored, is converted to a
    dictionary that has the target. *)
Theorem reverse_mapping_sound self orca_key k (v : V) :
  k ∈ get_reverse_mapping self orca_key →
  k ∉ ignored_keys self →
  orca_key ∈ dom (settings (convert_setting self k v)).
Proof.
  intros Hk Hi. apply reverse_mapping_elem in Hk as [[f H] | (ks & f & H & Hk)].
  - apply (converter_writes self _ k v Hi H).
    + cbn. by apply bool_decide_eq_true_2.
    + cbn. set_solver.
  - apply (converter_writes self _ k v Hi H).
    + cbn. by apply bool_decide_eq_true_2.
    + cbn. set_solver.
Qed.

(** X13.  Registering and then converting: once [register_simple] has
    accepted a rule, the source key is reported for the target and, when
    it is not ignored, is converted to the target with the transformed
    value, whatever the earlier rules write there. *)
Theorem register_simple_then_convert self k t (f : option (V → V)) self' (v : V) :
  register_simple self k t f = Returned self' →
  k ∈ get_reverse_mapping self' t
  ∧ (k ∉ ignored_keys self →
     settings (convert_setting self' k v) !! t = Some (apply_transform f v)).
Proof.
  intros Hreg.
  assert (self' = register {| converters := converters self;
                              ignored_keys := ignored_keys self;
                              _orca_key_mappings := _orca_key_mappings self';
                              _mutually_exclusive_groups :=
                                _mutually_exclusive_groups self |}
                           (SimpleKeyConverter k t f)) as ->.
  { unfold register_simple in Hreg.
    destruct (_orca_key_mappings self !! t) as [s'|].
    - case_bool_decide.
      + destruct (_mutually_exclusive_groups self !! t) as [g|]; [|done].
        case_bool_decide; [done|]. by injection Hreg as <-.
      + injection Hreg as <-. by destruct self.
    - by injection Hreg as <-. }
  split.
  - apply reverse_mapping_elem. left. exists f. cbn. apply elem_of_app.
    right. by left.
  - intros Hi. rewrite convert_setting_register by done.
    cbn. rewrite bool_decide_eq_true_2 by done. cbn.
    apply lookup_union_Some_l, lookup_insert_eq.
Qed.

(** X14.  Converting a dictionary goes entry by entry: the result for
    [l1 ++ l2] is the result for [l2] laid over the result for [l1], and
    the keys left for manual conversion are those of [l1] followed by
    those of [l2]. *)
Theorem convert_dict_app self (l1 l2 : list (string * V)) :
  convert_dict self (l1 ++ l2)
  = ((convert_dict self l2).1 ∪ (convert_dict self l1).1,
     (convert_dict self l1).2 ++ (convert_dict self l2).2).
Proof.
  unfold convert_dict at 1. rewrite foldl_app.
  by rewrite (convert_dict_acc self l2).
Qed.

(** X15.  A registration that does not concern a key leaves its conversion as
    it was: a rule that cannot convert the key, an ignore list without
    the key, and any declaration of a mutually-exclusive group. *)
Theorem unrelated_registration self k (v : V) :
  (∀ c, can_convert c k v = false →
        convert_setting (register self c) k v = convert_setting self k v)
  ∧ (∀ ks, k ∉ ks →
        convert_setting (register_ignore self ks) k v = convert_setting self k v)
  ∧ (∀ t ks, convert_setting (register_mutually_exclusive self t ks) k v
             = convert_setting self k v).
Proof.
  split_and!.
  - intros c Hc. unfold convert_setting at 1 2. cbn [register ignored_keys converters].
    case_bool_decide; [done|]. rewrite foldl_app. cbn [foldl].
    unfold convert_step at 1. by rewrite Hc.
  - intros ks Hk. unfold convert_setting. cbn [register_ignore ignored_keys converters].
    destruct (decide (k ∈ ignored_keys self)) as [Hin|Hnin].
    + by rewrite !bool_decide_eq_true_2 by set_solver.
    + by rewrite !bool_decide_eq_false_2 by set_solver.
  - done.
Qed.

(** X16.  A split rule writes every target of its list, and with distinct
    targets each one gets its own function of the source value; once
    registered, the source key is converted to all of them. *)
Theorem split_rule_targets self pk (conversions : list (string * (V → V))) (v : V) :
  dom (settings (convert (SplitConverter pk conversions) pk v))
  = list_to_set conversions.*1
  ∧ (NoDup conversions.*1 →
     ∀ t f, (t, f) ∈ conversions →
       settings (convert (SplitConverter pk conversions) pk v) !! t = Some (f v))
  ∧ (pk ∉ ignored_keys self →
     list_to_set conversions.*1
     ⊆ dom (settings (convert_setting (register_split self pk conversions) pk v))).
Proof.
  destruct (split_convert_loop conversions v new_result) as (_ & H2 & H3).
  cbn zeta in *. cbn [convert]. split_and!.
  - rewrite H2. cbn. set_solver.
  - intros Hnd t f. by apply H3.
  - intros Hi. rewrite <- (left_id_L ∅ (∪) (list_to_set conversions.*1)).
    change ∅ with (dom (settings (new_result (V:=V)))). rewrite <- H2.
    apply (converter_writes (register_split self pk conversions)
             (SplitConverter pk conversions)).
    + done.
    + cbn. apply elem_of_app. right. by left.
    + cbn. by apply bool_decide_eq_true_2.
Qed.

End Properties.

Lemma reverse_mapping_sound_witness :
  "outer_wall_speed" ∈ dom (settings (convert_setting two_rules "speed" "60")).
Proof.
  apply (reverse_mapping_sound two_rules "outer_wall_speed" "speed" "60").
  - vm_compute. by left.
  - unfold two_rules. cbn. set_solver.
Defined.

Lemma register_simple_then_convert_witness :
  "chamber_temperature" ∈ get_reverse_mapping claimed "chamber_temperature"
  ∧ settings (convert_setting claimed "chamber_temperature" "45")
      !! "chamber_temperature" = Some "45".
Proof.
  destruct (register_simple_then_convert new_registry "chamber_temperature"
              "chamber_temperature" None claimed "45" eq_refl) as [H1 H2].
  split; [exact H1|]. apply H2. cbn. set_solver.
Defined.

Lemma unrelated_registration_witness :
  convert_setting (register two_rules (SimpleKeyConverter "layer_height"
                                         "layer_height" None)) "speed" "60"
  = convert_setting two_rules "speed" "60"
  ∧ convert_setting (register_ignore two_rules ["layer_height"]) "speed" "60"
    = convert_setting two_rules "speed" "60".
Proof.
  destruct (unrelated_registration two_rules "speed" "60") as (H1 & H2 & _).
  split.
  - apply H1. reflexivity.
  - apply H2. by intros ?%list_elem_of_singleton.
Defined.

Lemma split_rule_targets_witness :
  settings (convert (SplitConverter "speed"
                       [("inner_wall_speed", λ v : string, v);
                        ("outer_wall_speed", λ v, v +:+ "%")]) "speed" "60")
    !! "outer_wall_speed" = Some "60%".
Proof.
  destruct (split_rule_targets new_registry "speed"
              [("inner_wall_speed", λ v : string, v);
               ("outer_wall_speed", λ v, v +:+ "%")] "60") as (_ & H & _).
  apply (H ltac:(cbn; apply NoDup_cons; split;
                  [by intros ?%list_elem_of_singleton|apply NoDup_singleton])
           "outer_wall_speed" (λ v, v +:+ "%")).
  right. by left.
Defined.

End RegistryProperties.

(* ===================================================================== *)
(** ** The parser *)
(* ===================================================================== *)

Module ParserFacts.
Import Py ProfileParserM ParserDefs.

(** *** Characters of a string *)
Lemma contains_char_nil c : contains (String c "") "" = false.
Proof. done. Qed.

Lemma contains_char_cons c b s :
  contains (String c "") (String b s) = ascii_eqb c b || contains (String c "") s.
Proof. cbn. by rewrite andb_true_r. Qed.

Lemma contains_char_rev_app c s1 s2 :
  contains (String c "") (String.rev_app s1 s2)
  = contains (String c "") s1 || contains (String c "") s2.
Proof.
  revert s2. induction s1 as [|a s1 IH]; intros s2; [done|].
  cbn [String.rev_app]. rewrite IH, !contains_char_cons.
  by destruct (ascii_eqb c a), (contains (String c "") s1).
Qed.

Lemma contains_char_rev c s :
  contains (String c "") (String.rev s) = contains (String c "") s.
Proof.
  unfold String.rev. rewrite contains_char_rev_app, contains_char_nil.
  apply orb_false_r.
Qed.

Lemma rev_app_cons_last s1 a :
  ∀ s2, String.rev_app s1 (s2 +:+ String a "")
        = String.rev_app s1 s2 +:+ String a "".
Proof. induction s1 as [|b s1 IH]; intros s2; [done|]. apply (IH (String b s2)). Qed.

Lemma rev_cons a s : String.rev (String a s) = String.rev s +:+ String a "".
Proof. unfold String.rev. cbn. apply (rev_app_cons_last s a ""). Qed.

Lemma startswith_app_char a b s :
  startswith (String a "") (s +:+ String b "") = true →
  s = "" ∧ a = b ∨ ∃ r, s = String a r.
Proof.
  destruct s as [|c s]; simpl;
    unfold ascii_eqb; case_bool_decide; simpl; try done.
  - auto.
  - subst. eauto.
Qed.

(** Between the brackets of a header there is a colon exactly when the
    line has one. *)
Lemma inner_colon line :
  startswith "[" line = true → endswith "]" line = true →
  contains ":" (inner line) = contains ":" line.
Proof.
  destruct line as [|a s]; [done|]. cbn [startswith].
  unfold ascii_eqb at 1. case_bool_decide as Ha; [|done]. subst a. intros _.
  unfold endswith. change (String.rev "]") with "]". rewrite rev_cons.
  intros [[_ ?]|[r Hr]]%startswith_app_char; [done|].
  unfold inner. rewrite Hr, contains_char_rev.
  rewrite contains_char_cons.
  rewrite <- (contains_char_rev ":" s), Hr, contains_char_cons. done.
Qed.

Lemma split_without sep s :
  contains (String sep "") s = false → split sep s = [s].
Proof.
  induction s as [|b s IH]; [done|]. rewrite contains_char_cons.
  intros [Hb Hs]%orb_false_iff. cbn [split].
  unfold ascii_eqb in *. rewrite (bool_decide_ext (b = sep) (sep = b)) by done.
  rewrite Hb. by rewrite IH.
Qed.

Lemma split_nonempty sep s : split sep s ≠ [].
Proof.
  destruct s as [|b s]; [done|]. cbn. destruct (ascii_eqb b sep); [done|].
  by destruct (split sep s).
Qed.

Lemma split_with sep s :
  contains (String sep "") s = true → ∃ t n rest, split sep s = t :: n :: rest.
Proof.
  induction s as [|b s IH]; [done|]. rewrite contains_char_cons. cbn [split].
  unfold ascii_eqb at 1 2. rewrite (bool_decide_ext (b = sep) (sep = b)) by done.
  case_bool_decide; cbn.
  - intros _. destruct (split sep s) as [|w ws] eqn:E; [by apply split_nonempty in E|].
    eauto.
  - intros (t & n & rest & ->)%IH. eauto.
Qed.

(** *** Lines *)
Lemma parse_line_skipped st raw :
  skipped raw = true → parse_line st raw = Returned st.
Proof. unfold skipped, parse_line. cbv zeta. by intros ->. Qed.

Lemma header_not_skipped raw : header raw = true → skipped raw = false.
Proof.
  unfold header, skipped. cbv zeta. intros [H _]%andb_true_iff.
  destruct (strip raw) as [|a s]; [done|]. cbn in *.
  unfold ascii_eqb in *. case_bool_decide as Ha; [|done]. subst a.
  by rewrite !bool_decide_eq_false_2.
Qed.

Lemma parse_line_raises st raw e :
  parse_line st raw = Raised e → e = IndexError ∧ untyped_header raw = true.
Proof.
  unfold parse_line, untyped_header, header. cbv zeta.
  destruct (startswith ";" _ || startswith "#" _ || bool_decide _); [done|].
  destruct (startswith "[" (strip raw)) eqn:H1; cbn [andb negb];
    [destruct (endswith "]" (strip raw)) eqn:H2; cbn [andb negb]|].
  - destruct (block_type st); cbn.
    all: destruct (contains "vendor" (strip raw)); [done|].
    all: rewrite <- (inner_colon _ H1 H2).
    all: destruct (contains ":" (inner (strip raw))) eqn:Hc;
      [apply split_with in Hc as (t & n & rest & ->); done|].
    all: rewrite (split_without _ _ Hc); by intros [= <-].
  - by destruct (split_once "=" (strip raw)) as [[? ?]|].
  - by destruct (split_once "=" (strip raw)) as [[? ?]|].
Qed.

Lemma parse_line_untyped st raw :
  untyped_header raw = true → parse_line st raw = Raised IndexError.
Proof.
  unfold untyped_header. cbv zeta.
  intros [[Hh Hv%negb_true_iff]%andb_true_iff Hc%negb_true_iff]%andb_true_iff.
  pose proof (header_not_skipped _ Hh) as Hs.
  unfold parse_line. cbv zeta. unfold skipped in Hs. cbv zeta in Hs. rewrite Hs.
  apply andb_true_iff in Hh as [H1 H2].
  rewrite H1, H2, Hv. cbn [andb].
  rewrite <- (inner_colon _ H1 H2) in Hc. rewrite (split_without _ _ Hc).
  by destruct (block_type st).
Qed.

Lemma parse_lines_app st l1 l2 :
  parse_lines st (l1 ++ l2)
  = match parse_lines st l1 with
    | Returned st' => parse_lines st' l2
    | Raised e => Raised e
    end.
Proof.
  revert st. induction l1 as [|l l1 IH]; intros st; [done|]. cbn.
  destruct (parse_line st l); [apply IH|done].
Qed.

Lemma parse_lines_raises st lines :
  (∃ e, parse_lines st lines = Raised e)
  ↔ ∃ h, h ∈ lines ∧ untyped_header h = true.
Proof.
  revert st. induction lines as [|l lines IH]; intros st; cbn.
  - split; [by intros [? ?]|]. by intros (h & ?%elem_of_nil & _).
  - destruct (parse_line st l) as [st'|e] eqn:E.
    + rewrite IH. split.
      * intros (h & ? & ?). exists h. split; [by right|done].
      * intros (h & [->|?]%elem_of_cons & Hh); [|eauto].
        by rewrite (parse_line_untyped st l Hh) in E.
    + split; [|eauto]. intros _. exists l. split; [by left|].
      by apply parse_line_raises in E as [_ ?].
Qed.

Lemma parse_lines_error st lines e :
  parse_lines st lines = Raised e → e = IndexError.
Proof.
  revert st. induction lines as [|l lines IH]; intros st; cbn; [done|].
  destruct (parse_line st l) as [st'|e'] eqn:E; [apply IH|].
  intros [= <-]. by apply parse_line_raises in E as [? _].
Qed.

(** *** Insertion-ordered dictionaries *)
Lemma dict_set_elem {V} k (v : V) l k' v' :
  (k', v') ∈ dict_set k v l → (k' = k ∧ v' = v) ∨ (k', v') ∈ l.
Proof.
  induction l as [|[k0 v0] l IH]; cbn.
  - intros [= -> ->]%list_elem_of_singleton. by left.
  - case_bool_decide.
    + intros [[= -> ->]|?]%elem_of_cons; [by left|]. right. by right.
    + intros [[= -> ->]|?]%elem_of_cons; [right; by left|].
      destruct IH as [?|?]; [done|by left|]. right. by right.
Qed.

Lemma dict_set_keys {V} k (v : V) l k' :
  k' ∈ keys (dict_set k v l) ↔ k' = k ∨ k' ∈ keys l.
Proof.
  unfold keys. induction l as [|[k0 v0] l IH]; cbn.
  - rewrite list_elem_of_singleton, elem_of_nil. tauto.
  - case_bool_decide; cbn; rewrite !elem_of_cons; [subst; tauto|].
    rewrite IH. tauto.
Qed.

Lemma dict_set_NoDup {V} k (v : V) l : NoDup (keys l) → NoDup (keys (dict_set k v l)).
Proof.
  unfold keys. induction l as [|[k0 v0] l IH]; cbn.
  - intros _. apply NoDup_singleton.
  - rewrite !NoDup_cons. intros [Hn Hnd]. case_bool_decide; cbn.
    + subst. by apply NoDup_cons.
    + apply NoDup_cons. split; [|by apply IH].
      intros Hin. apply (dict_set_keys k v l k0) in Hin as [?|?]; done.
Qed.

Lemma assoc_dict_set {V} k (v : V) l k' :
  assoc k' (dict_set k v l) = if bool_decide (k' = k) then Some v else assoc k' l.
Proof.
  induction l as [|[k0 v0] l IH]; cbn.
  - repeat case_bool_decide; congruence.
  - destruct (decide (k0 = k)) as [->|Hne].
    + rewrite (bool_decide_eq_true_2 (k = k)) by done. cbn.
      repeat case_bool_decide; congruence.
    + rewrite (bool_decide_eq_false_2 (k0 = k)) by done. cbn. rewrite IH.
      repeat case_bool_decide; congruence.
Qed.

Lemma assoc_elem {V} k (v : V) l : (k, v) ∈ l → is_Some (assoc k l).
Proof.
  induction l as [|[k0 v0] l IH]; [by intros ?%elem_of_nil|]. cbn.
  case_bool_decide; [eauto|].
  intros [[= -> ->]|?]%elem_of_cons; [done|auto].
Qed.

End ParserFacts.

Module ParserProperties.
Import Py ProfileParserM ParserDefs ParserFacts CompareFacts.

(** X17.  Comment lines and blank lines do not matter, wherever they stand. *)
Theorem comments_are_ignored l1 c l2 :
  skipped c = true → parse (l1 ++ c :: l2) = parse (l1 ++ l2).
Proof.
  intros Hc. unfold parse. rewrite !parse_lines_app.
  destruct (parse_lines _ l1) as [st|e]; [|done]. cbn [parse_lines].
  by rewrite (parse_line_skipped st c Hc).
Qed.

Lemma comments_are_ignored_witness :
  parse (["[print:a]"] ++ ("  # note" :: ["x = 1"]))
  = parse (["[print:a]"] ++ ["x = 1"]).
Proof. apply comments_are_ignored. reflexivity. Defined.

(** X18.  On the lines of a file that was opened and decoded, the loop of
    [parse] fails exactly when some line is a header that has neither
    the word vendor nor a colon, and the failure is the IndexError of
    [split(":")[1]]. *)
Theorem parse_fails_on_untyped_header lines :
  (∀ e, parse lines = Raised e → e = IndexError)
  ∧ ((∃ e, parse lines = Raised e)
     ↔ ∃ h, h ∈ lines ∧ untyped_header h = true).
Proof.
  unfold parse. split.
  - intros e. destruct (parse_lines _ lines) as [st|e'] eqn:E; [done|].
    intros [= <-]. by apply parse_lines_error in E.
  - rewrite <- (parse_lines_raises
                  {| out := {| vendor := None; by_type := [] |};
                     current_block := []; block_type := None |}).
    destruct (parse_lines _ lines) as [st|e']; split; intros [e H]; try done;
      eauto.
Qed.

(** X19.  A file without a header parses to the empty output: settings that
    no header precedes are dropped. *)
Theorem no_header_no_output lines :
  (∀ l, l ∈ lines → header l = false) →
  parse lines = Returned {| vendor := None; by_type := [] |}.
Proof.
  intros Hl. unfold parse.
  assert (∀ cb, ∃ cb', parse_lines {| out := {| vendor := None; by_type := [] |};
                                     current_block := cb; block_type := None |}
                         lines
                       = Returned {| out := {| vendor := None; by_type := [] |};
                                     current_block := cb'; block_type := None |})
    as H.
  { induction lines as [|l lines IH]; intros cb; [by exists cb|].
    cbn [parse_lines]. unfold parse_line. cbv zeta.
    destruct (startswith ";" _ || startswith "#" _ || bool_decide _).
    { apply IH. intros; apply Hl. by right. }
    pose proof (Hl l ltac:(by left)) as Hh. unfold header in Hh. cbv zeta in Hh.
    rewrite Hh. destruct (split_once "=" (strip l)) as [[key v]|]; cbn.
    all: apply IH; intros; apply Hl; by right. }
  by destruct (H []) as [cb' ->].
Qed.

Lemma no_header_no_output_witness :
  parse ["layer_height = 0.2"; "; comment"]
  = Returned {| vendor := None; by_type := [] |}.
Proof.
  apply no_header_no_output.
  intros l [->|[->|?%elem_of_nil]%elem_of_cons]%elem_of_cons; done.
Defined.

(** The no-break space is white space to [strip]: it may stand before a
    comment sign and around a header. *)
Example no_break_space_is_stripped :
  strip (String "194" (String "160" "x = 1")) = "x = 1"
  ∧ skipped (String "194" (String "160" "# note")) = true
  ∧ header ("[print:a]" +:+ String "194" (String "160" "")) = true
  ∧ parse ["[print:a]" +:+ String "194" (String "160" "");
           String "194" (String "160" "; note"); "x = 1"]
    = parse ["[print:a]"; "x = 1"].
Proof. split_and!; vm_compute; reflexivity. Qed.

Lemma save_block_good o bt b :
  (bt = "vendor" ∨ is_Some (assoc "name" b)) →
  (NoDup (keys (by_type o)) ∧ ("vendor" ∉ keys (by_type o))
   ∧ ∀ t bs, (t, bs) ∈ by_type o →
       bs ≠ [] ∧ ∀ b', b' ∈ bs → is_Some (assoc "name" b')) →
  NoDup (keys (by_type (save_block o bt b)))
  ∧ ("vendor" ∉ keys (by_type (save_block o bt b)))
  ∧ ∀ t bs, (t, bs) ∈ by_type (save_block o bt b) →
      bs ≠ [] ∧ ∀ b', b' ∈ bs → is_Some (assoc "name" b').
Proof.
  intros Hb (H1 & H2 & H3). unfold save_block. case_bool_decide as Hv; [done|].
  destruct Hb as [?|Hb]; [done|]. cbn [by_type]. split_and!.
  - by apply dict_set_NoDup.
  - rewrite dict_set_keys. intros [?|?]; [congruence|done].
  - intros t bs [[-> ->]|Hin]%dict_set_elem; [|exact (H3 _ _ Hin)].
    split; [by destruct (default [] _)|].
    intros b' [Hin| ->%list_elem_of_singleton]%elem_of_app; [|done].
    destruct (assoc bt (by_type o)) as [old|] eqn:E; [|by apply elem_of_nil in Hin].
    apply assoc_Some_elem in E. by apply (H3 _ _ E).
Qed.

Lemma parse_line_good st raw st' :
  parse_line st raw = Returned st' →
  (NoDup (keys (by_type (out st))) ∧ ("vendor" ∉ keys (by_type (out st)))
   ∧ ∀ t bs, (t, bs) ∈ by_type (out st) →
       bs ≠ [] ∧ ∀ b', b' ∈ bs → is_Some (assoc "name" b')) →
  (∀ bt, block_type st = Some bt →
         bt = "vendor" ∨ is_Some (assoc "name" (current_block st))) →
  (NoDup (keys (by_type (out st'))) ∧ ("vendor" ∉ keys (by_type (out st')))
   ∧ ∀ t bs, (t, bs) ∈ by_type (out st') →
       bs ≠ [] ∧ ∀ b', b' ∈ bs → is_Some (assoc "name" b'))
  ∧ (∀ bt, block_type st' = Some bt →
           bt = "vendor" ∨ is_Some (assoc "name" (current_block st'))).
Proof.
  unfold parse_line. cbv zeta.
  destruct (startswith ";" _ || startswith "#" _ || bool_decide _).
  { by intros [= <-]. }
  destruct (startswith "[" _ && endswith "]" _).
  - intros E Ho Hc.
    set (p := match block_type st with
              | Some bt => (save_block (out st) bt (current_block st), [])
              | None => (out st, current_block st)
              end) in *.
    assert (NoDup (keys (by_type p.1)) ∧ ("vendor" ∉ keys (by_type p.1))
            ∧ ∀ t bs, (t, bs) ∈ by_type p.1 →
                bs ≠ [] ∧ ∀ b', b' ∈ bs → is_Some (assoc "name" b')) as Ho'.
    { subst p. destruct (block_type st) as [bt|]; [|done]. cbn [fst].
      apply save_block_good; [by apply Hc|done]. }
    destruct p as [o cb]. cbn [fst] in Ho'.
    destruct (contains "vendor" _).
    + injection E as <-. cbn. split; [done|]. intros bt [= <-]. by left.
    + destruct (split ":" _) as [|t [|n rest]]; try done.
      injection E as <-. cbn. split; [done|]. intros bt _. right.
      rewrite assoc_dict_set. by rewrite bool_decide_eq_true_2.
  - destruct (split_once "=" _) as [[key v]|]; [|by intros [= <-]].
    intros [= <-] Ho Hc. cbn. split; [done|]. intros bt Hbt.
    destruct (Hc bt Hbt) as [?|Hn]; [by left|right].
    rewrite assoc_dict_set. by case_bool_decide.
Qed.

(** X20.  Every block that [parse] files under a block type carries a [name]
    entry, no list of blocks is empty, the block types are distinct, and
    none of them is [vendor], whose block is kept apart. *)
Theorem parsed_blocks_are_named lines o :
  parse lines = Returned o →
  NoDup (keys (by_type o))
  ∧ ("vendor" ∉ keys (by_type o))
  ∧ ∀ t bs, (t, bs) ∈ by_type o →
      bs ≠ [] ∧ ∀ b, b ∈ bs → is_Some (assoc "name" b).
Proof.
  unfold parse.
  assert (∀ st st', parse_lines st lines = Returned st' →
    (NoDup (keys (by_type (out st))) ∧ ("vendor" ∉ keys (by_type (out st)))
     ∧ ∀ t bs, (t, bs) ∈ by_type (out st) →
         bs ≠ [] ∧ ∀ b', b' ∈ bs → is_Some (assoc "name" b')) →
    (∀ bt, block_type st = Some bt →
           bt = "vendor" ∨ is_Some (assoc "name" (current_block st))) →
    (NoDup (keys (by_type (out st'))) ∧ ("vendor" ∉ keys (by_type (out st')))
     ∧ ∀ t bs, (t, bs) ∈ by_type (out st') →
         bs ≠ [] ∧ ∀ b', b' ∈ bs → is_Some (assoc "name" b'))
    ∧ (∀ bt, block_type st' = Some bt →
             bt = "vendor" ∨ is_Some (assoc "name" (current_block st')))) as H.
  { induction lines as [|l lines IH]; intros st st'; cbn [parse_lines].
    - by intros [= <-].
    - destruct (parse_line st l) as [st1|] eqn:E; [|done].
      intros E' Ho Hc. destruct (parse_line_good _ _ _ E Ho Hc) as [Ho1 Hc1].
      by apply (IH _ _ E'). }
  destruct (parse_lines _ lines) as [st|] eqn:E; [|done]. intros [= <-].
  destruct (H _ _ E) as [Ho Hc].
  { cbn. split_and!; [apply NoDup_nil_2|by intros ?%elem_of_nil|].
    by intros t bs ?%elem_of_nil. }
  { by intros bt. }
  destruct (block_type st) as [bt|]; [|done].
  apply save_block_good; [by apply Hc|done].
Qed.

Lemma parsed_blocks_are_named_witness :
  NoDup (keys [("print", [[("name", Str "a"); ("x", Str "1")]])])
  ∧ ("vendor" ∉ keys [("print", [[("name", Str "a"); ("x", Str "1")]])])
  ∧ ∀ t bs, (t, bs) ∈ [("print", [[("name", Str "a"); ("x", Str "1")]])] →
      bs ≠ [] ∧ ∀ b, b ∈ bs → is_Some (assoc "name" b).
Proof.
  apply (parsed_blocks_are_named ["[vendor]"; "id = P"; "[print:a]"; "x = 1"]
           {| vendor := Some [("id", Str "P")];
              by_type := [("print", [[("name", Str "a"); ("x", Str "1")]])] |}).
  reflexivity.
Defined.

End ParserProperties.

(* ===================================================================== *)
(** ** The differ *)
(* ===================================================================== *)

Module DifferFacts.
Import Py ProfileDifferM DifferInheritance ParserFacts.

(** *** resolve_inheritance *)
Lemma own_settings_lookup (p : gmap string pyvalue) k :
  own_settings p !! k = if bool_decide (k ∈ metadata) then None else p !! k.
Proof.
  unfold own_settings. case_bool_decide as Hk.
  - apply map_lookup_filter_None. right. intros v _. cbn. tauto.
  - destruct (p !! k) as [v|] eqn:E.
    + apply map_lookup_filter_Some. done.
    + apply map_lookup_filter_None. by left.
Qed.

Lemma loaded_nonempty (corpus : gmap string (gmap string pyvalue)) name :
  size (load_profile corpus name) ≠ 0 → name ∈ dom corpus.
Proof.
  unfold load_profile. intros H. apply elem_of_dom.
  destruct (corpus !! name); [done|]. by destruct H.
Qed.

Lemma parents_loop_total
    (recurse : string → option (outcome (gmap string pyvalue))) l acc :
  (∀ q, is_Some (recurse q)) → is_Some acc →
  is_Some (foldl (update_from_parent recurse) acc l).
Proof.
  intros Hr. revert acc. induction l as [|q l IH]; intros acc Hacc; [done|].
  cbn. apply IH. unfold update_from_parent.
  destruct acc as [[resolved|e]|]; [|done|done].
  destruct (Hr q) as [[r|e] ->]; done.
Qed.


Lemma resolve_from_total fuel corpus name visited :
  size (dom corpus ∖ visited) < fuel →
  is_Some (resolve_inheritance_from fuel corpus name visited).
Proof.
  revert name visited. induction fuel as [|fuel IH]; intros name visited Hf; [lia|].
  cbn [resolve_inheritance_from]. case_bool_decide as Hv; [done|].
  case_bool_decide as Hp; [done|]. apply loaded_nonempty in Hp.
  assert (size (dom corpus ∖ ({[name]} ∪ visited)) < fuel) as Hlt.
  { assert (size (dom corpus ∖ ({[name]} ∪ visited))
            < size (dom corpus ∖ visited)); [|lia].
    apply subset_size. set_solver. }
  destruct (py_truthy _); [|done].
  destruct (default _ _) as [| | | |s| |]; try done.
  destruct (parents_loop_total
              (λ q, resolve_inheritance_from fuel corpus q ({[name]} ∪ visited))
              (List.filter truthy (strip <$> split ";" s)) (Some (Returned ∅)))
    as [[r|e] ->]; [|done..].
  intros q. by apply IH.
Qed.


Lemma start_fuel (corpus : gmap string (gmap string pyvalue)) :
  size (dom corpus ∖ (∅ : gset string)) < S (size corpus).
Proof. rewrite difference_empty_L, size_dom. lia. Qed.


Lemma parents_loop_no_key
    (recurse : string → option (outcome (gmap string pyvalue))) (P : gmap string pyvalue → Prop) l acc r :
  (∀ q rq, recurse q = Some (Returned rq) → P rq) →
  (∀ a b, P a → P b → P (a ∪ b)) →
  foldl (update_from_parent recurse) acc l = Some (Returned r) →
  (∀ r0, acc = Some (Returned r0) → P r0) → P r.
Proof.
  intros Hr Hu. revert acc. induction l as [|q l IH]; intros acc; cbn.
  - intros -> H. by apply H.
  - intros E Hacc. apply (IH _ E). intros r0.
    destruct acc as [[resolved|e]|]; cbn; [|done..].
    destruct (recurse q) as [[rq|e]|] eqn:Eq; [|done..].
    intros [= <-]. apply Hu; [by eapply Hr|by apply Hacc].
Qed.

Lemma resolve_from_no_metadata fuel corpus name visited r k :
  resolve_inheritance_from fuel corpus name visited = Some (Returned r) →
  k ∈ metadata → r !! k = None.
Proof.
  intros E Hk. revert name visited r E.
  induction fuel as [|fuel IH]; intros name visited r; [done|].
  cbn [resolve_inheritance_from].
  case_bool_decide; [by intros [= <-]|].
  case_bool_decide; [by intros [= <-]|].
  set (p := load_profile corpus name).
  assert (∀ resolved, resolved !! k = None →
            (own_settings p ∪ resolved) !! k = None) as Hown.
  { intros resolved Hres. apply lookup_union_None. split; [|done].
    rewrite own_settings_lookup. by rewrite bool_decide_eq_true_2. }
  destruct (py_truthy _).
  2:{ intros [= <-]. by apply Hown. }
  destruct (default _ _) as [| | | |s| |]; try done.
  destruct (foldl _ _ _) as [[resolved|e]|] eqn:El; [|done..].
  intros [= <-]. apply Hown.
  eapply (parents_loop_no_key _ (λ m, m !! k = None)); [| |exact El|].
  - intros q rq. apply IH.
  - intros a b Ha Hb. by apply lookup_union_None.
  - by intros r0 [= <-].
Qed.



End DifferFacts.

Module DifferProperties.
Import Py ProfileDifferM DifferInheritance DifferInputs DifferFacts.




(** X23.  For a directory whose profile files hold JSON objects,
    [resolve_inheritance] ends for every name, and a dictionary that it
    returns has none of the keys inherits, from, instantiation, type and
    name. *)
Theorem resolved_has_no_metadata corpus name :
  ∃ o, resolve_inheritance corpus name = Some o
    ∧ ∀ r, o = Returned r → ∀ k, k ∈ metadata → r !! k = None.
Proof.
  destruct (resolve_from_total (S (size corpus)) corpus name ∅) as [o E].
  { apply start_fuel. }
  exists o. split; [exact E|]. intros r -> k.
  by apply (resolve_from_no_metadata _ _ _ _ _ _ E).
Qed.






End DifferProperties.

(* ===================================================================== *)
(** ** The converter's resolver, the defaults and the model id *)
(* ===================================================================== *)

Module ConverterFacts.
Import Py Base ProfileParserM ProfileConverters OrcaDefaults ParserFacts.

(** *** _resolve_inherited_settings *)
Lemma merge_loop_returns recurse registry (all_profiles : gmap string block) ps acc :
  (∀ q parent, q ∈ ps → all_profiles !! q = Some parent →
               ∃ r, recurse parent = Returned r) →
  (∃ m, acc = Returned m) →
  ∃ m, foldl (merge_parent recurse registry all_profiles) acc ps = Returned m.
Proof.
  revert acc. induction ps as [|q ps IH]; intros acc Hr Hacc; [done|]. cbn.
  apply IH; [intros; eapply Hr; [by right|done]|].
  destruct Hacc as [m ->]. cbn.
  destruct (all_profiles !! q) as [parent|] eqn:Eq; [|eauto].
  destruct (Hr q parent) as [r ->]; [by left|done|eauto].
Qed.

Lemma merge_loop_last recurse registry (all_profiles : gmap string block)
    ps q parent acc merged :
  all_profiles !! q = Some parent →
  foldl (merge_parent recurse registry all_profiles) acc (ps ++ [q])
  = Returned merged →
  ∃ m0 parent_settings,
    recurse parent = Returned parent_settings
    ∧ merged = (convert_dict registry parent).1 ∪ (parent_settings ∪ m0).
Proof.
  intros Hq. rewrite foldl_app. cbn.
  destruct (foldl _ acc ps) as [m0|e]; cbn; [|done].
  rewrite Hq. destruct (recurse parent) as [parent_settings|e]; [|done].
  intros [= <-]. eauto.
Qed.

Lemma resolve_inherited_returns depth registry (all_profiles : gmap string block)
    (rank : string → nat) :
  (∀ n p v, all_profiles !! n = Some p → assoc "inherits" p = Some v →
            ∃ s, v = Str s) →
  (∀ n p s q pq, all_profiles !! n = Some p →
                 assoc "inherits" p = Some (Str s) →
                 q ∈ strip <$> split ";" s → all_profiles !! q = Some pq →
                 rank q < rank n) →
  ∀ name p, all_profiles !! name = Some p → rank name < depth →
    ∃ merged,
      _resolve_inherited_settings depth registry all_profiles p = Returned merged.
Proof.
  intros Htext Hrank. induction depth as [|depth IH]; intros name p Hp Hd; [lia|].
  cbn [_resolve_inherited_settings].
  destruct (assoc "inherits" p) as [v|] eqn:Hi; [|eauto].
  destruct (Htext _ _ _ Hp Hi) as [s ->].
  apply merge_loop_returns; [|eauto].
  intros q pq Hq Hpq. apply (IH q pq Hpq).
  pose proof (Hrank _ _ _ _ _ Hp Hi Hq Hpq). lia.
Qed.

(** *** apply_defaults *)
Lemma assoc_None_keys {V} k (l : list (string * V)) :
  assoc k l = None ↔ k ∉ keys l.
Proof.
  unfold keys. induction l as [|[k0 v0] l IH]; cbn.
  - split; [intros _ ?%elem_of_nil|]; done.
  - rewrite not_elem_of_cons. case_bool_decide; [|rewrite IH]; naive_solver.
Qed.

Lemma dict_set_new {V} k (v : V) l : k ∉ keys l → dict_set k v l = l ++ [(k, v)].
Proof.
  unfold keys. induction l as [|[k0 v0] l IH]; cbn; [done|].
  rewrite not_elem_of_cons. intros [Hne Hk].
  rewrite bool_decide_eq_false_2 by done. by rewrite IH.
Qed.

Lemma fill_loop {V} (defaults profile : list (string * V)) :
  let r := foldl (λ profile kv,
                    if bool_decide (kv.1 ∉ keys profile)
                    then dict_set kv.1 kv.2 profile else profile)
                 profile defaults in
  (∀ k, assoc k r = match assoc k profile with
                    | Some v => Some v
                    | None => assoc k defaults
                    end)
  ∧ ∃ added, r = profile ++ added.
Proof.
  cbn zeta. revert profile.
  induction defaults as [|[k0 v0] defaults IH]; intros profile; cbn.
  - split; [|exists []; by rewrite app_nil_r].
    intros k. by destruct (assoc k profile).
  - case_bool_decide as Hk.
    + destruct (IH (dict_set k0 v0 profile)) as [H1 [added H2]]. split.
      * intros k. rewrite H1, assoc_dict_set.
        destruct (decide (k = k0)) as [->|Hne].
        -- rewrite !bool_decide_eq_true_2 by done.
           by rewrite (proj2 (assoc_None_keys k0 profile) Hk).
        -- rewrite bool_decide_eq_false_2 by done.
           by rewrite (bool_decide_eq_false_2 (k0 = k)) by done.
      * exists ((k0, v0) :: added). rewrite H2, dict_set_new by done.
        by rewrite <- app_assoc.
    + destruct (IH profile) as [H1 H2]. split; [|done].
      intros k. rewrite H1. destruct (assoc k profile) as [v|] eqn:E; [done|].
      rewrite bool_decide_eq_false_2; [done|]. intros ->.
      apply assoc_None_keys in E. tauto.
Qed.

Lemma fill_loop_same {V} (defaults profile : list (string * V)) :
  (∀ k, k ∈ keys defaults → k ∈ keys profile) →
  foldl (λ profile kv,
           if bool_decide (kv.1 ∉ keys profile)
           then dict_set kv.1 kv.2 profile else profile)
        profile defaults = profile.
Proof.
  unfold keys. induction defaults as [|[k0 v0] defaults IH]; intros H; cbn; [done|].
  rewrite bool_decide_eq_false_2.
  - apply IH. intros k Hk. apply H. by right.
  - intros Hn. apply Hn, H. by left.
Qed.

Lemma assoc_filter_keys {V} (ignored : gset string) (l : list (string * V)) k :
  assoc k (List.filter (λ kv, bool_decide (kv.1 ∉ ignored)) l)
  = if bool_decide (k ∈ ignored) then None else assoc k l.
Proof.
  induction l as [|[k0 v0] l IH]; cbn; [by case_bool_decide|].
  destruct (decide (k0 ∈ ignored)) as [Hin|Hnin].
  - rewrite (bool_decide_eq_false_2 (k0 ∉ ignored)) by tauto. rewrite IH.
    case_bool_decide; [done|]. rewrite bool_decide_eq_false_2; [done|].
    by intros ->.
  - rewrite (bool_decide_eq_true_2 (k0 ∉ ignored)) by done. cbn.
    destruct (decide (k0 = k)) as [->|Hne].
    + rewrite !(bool_decide_eq_true_2 (k = k)) by done.
      by rewrite bool_decide_eq_false_2.
    + rewrite !(bool_decide_eq_false_2 (k0 = k)) by done. apply IH.
Qed.

Lemma assoc_is_Some_keys {V} k (l : list (string * V)) :
  k ∈ keys l ↔ is_Some (assoc k l).
Proof.
  destruct (assoc k l) eqn:E.
  - split; [eauto|]. intros _. destruct (decide (k ∈ keys l)); [done|].
    apply assoc_None_keys in n. congruence.
  - apply assoc_None_keys in E. split; [done|]. by intros [? ?].
Qed.

(** *** _generate_model_id *)
Lemma replace_char_gone old new s :
  old ≠ new → contains (String old "") (replace_char old new s) = false.
Proof.
  intros Hne. induction s as [|c s IH]; [done|]. cbn [replace_char].
  rewrite contains_char_cons, IH. unfold ascii_eqb.
  destruct (decide (c = old)) as [->|Hc].
  - rewrite (bool_decide_eq_true_2 (old = old)) by done.
    by rewrite bool_decide_eq_false_2.
  - rewrite (bool_decide_eq_false_2 (c = old)) by done.
    by rewrite bool_decide_eq_false_2 by congruence.
Qed.

Lemma replace_char_keeps c old new s :
  c ≠ new → contains (String c "") s = false →
  contains (String c "") (replace_char old new s) = false.
Proof.
  intros Hne. induction s as [|b s IH]; [done|]. cbn [replace_char].
  rewrite !contains_char_cons. intros [Hb Hs]%orb_false_iff.
  rewrite IH by done. unfold ascii_eqb in *.
  destruct (decide (b = old)) as [->|Hbo].
  - rewrite (bool_decide_eq_true_2 (old = old)) by done.
    by rewrite bool_decide_eq_false_2.
  - rewrite (bool_decide_eq_false_2 (b = old)) by done. by rewrite Hb.
Qed.

Lemma replace_char_absent old new s :
  contains (String old "") s = false → replace_char old new s = s.
Proof.
  induction s as [|c s IH]; [done|]. rewrite contains_char_cons.
  intros [Hc Hs]%orb_false_iff. cbn [replace_char]. rewrite IH by done.
  unfold ascii_eqb in *. rewrite (bool_decide_ext (c = old) (old = c)) by done.
  by rewrite Hc.
Qed.

Lemma contains_char_app c s t :
  contains (String c "") (s +:+ t)
  = contains (String c "") s || contains (String c "") t.
Proof.
  induction s as [|b s IH]; [done|].
  change (String b s +:+ t) with (String b (s +:+ t)).
  rewrite !contains_char_cons, IH. by rewrite orb_assoc.
Qed.

Lemma startswith_app p s : startswith p (p +:+ s) = true.
Proof.
  induction p as [|c p IH]; [done|].
  change (String c p +:+ s) with (String c (p +:+ s)). cbn [startswith].
  rewrite IH. unfold ascii_eqb. by rewrite bool_decide_eq_true_2.
Qed.

End ConverterFacts.

Module ConverterProperties.
Import Py Base ProfileParserM ProfileConverters OrcaDefaults ConverterInputs
       ParserFacts ConverterFacts.

(** X26.  The converter's resolver returns on acyclic data: when every
    [inherits] entry is text and a rank decreases from every profile to
    the parents it lists, the call for a profile returns as soon as the
    depth allowed exceeds the rank of the profile. *)
Theorem converter_resolver_returns depth registry
    (all_profiles : gmap string block) (rank : string → nat) name p :
  (∀ n p v, all_profiles !! n = Some p → assoc "inherits" p = Some v →
            ∃ s, v = Str s) →
  (∀ n p s q pq, all_profiles !! n = Some p →
                 assoc "inherits" p = Some (Str s) →
                 q ∈ strip <$> split ";" s → all_profiles !! q = Some pq →
                 rank q < rank n) →
  all_profiles !! name = Some p → rank name < depth →
  ∃ merged,
    _resolve_inherited_settings depth registry all_profiles p = Returned merged.
Proof. intros Htext Hrank. by apply resolve_inherited_returns. Qed.

Lemma diamond_profiles_text n p v :
  diamond_profiles !! n = Some p → assoc "inherits" p = Some v → ∃ s, v = Str s.
Proof.
  unfold diamond_profiles. intros Hn Hi.
  apply lookup_insert_Some in Hn as [[_ <-]|[_ Hn]].
  { injection Hi as <-. eauto. }
  apply lookup_insert_Some in Hn as [[_ <-]|[_ Hn]]; [done|].
  apply lookup_singleton_Some in Hn as [_ <-]. injection Hi as <-. eauto.
Qed.

Lemma diamond_profiles_ranked n p s q pq :
  diamond_profiles !! n = Some p → assoc "inherits" p = Some (Str s) →
  q ∈ strip <$> split ";" s → diamond_profiles !! q = Some pq →
  diamond_rank q < diamond_rank n.
Proof.
  unfold diamond_profiles. intros Hn Hi Hq _.
  apply lookup_insert_Some in Hn as [[<- <-]|[_ Hn]].
  { injection Hi as <-. vm_compute in Hq.
    apply list_elem_of_singleton in Hq as ->. vm_compute. lia. }
  apply lookup_insert_Some in Hn as [[<- <-]|[_ Hn]]; [done|].
  apply lookup_singleton_Some in Hn as [<- <-]. injection Hi as <-.
  vm_compute in Hq.
  apply elem_of_cons in Hq as [->|Hq%list_elem_of_singleton]; [|subst q];
    vm_compute; lia.
Qed.

Lemma converter_resolver_returns_witness :
  ∃ merged,
    _resolve_inherited_settings 3 copy_k diamond_profiles
      [("name", Str "C"); ("inherits", Str "A; B")] = Returned merged.
Proof.
  apply (converter_resolver_returns 3 copy_k diamond_profiles diamond_rank "C").
  - exact diamond_profiles_text.
  - exact diamond_profiles_ranked.
  - reflexivity.
  - vm_compute. lia.
Defined.

(** X27.  In the converter's resolver the parent listed last wins: what the
    registry converts the last parent's own settings to overrides
    everything the earlier parents contribute and everything the last
    parent inherits itself. *)
Theorem converter_last_parent_wins depth registry
    (all_profiles : gmap string block) profile_data s ps B pB t x merged :
  assoc "inherits" profile_data = Some (Str s) →
  strip <$> split ";" s = ps ++ [B] →
  all_profiles !! B = Some pB →
  (convert_dict registry pB).1 !! t = Some x →
  _resolve_inherited_settings depth registry all_profiles profile_data
  = Returned merged →
  merged !! t = Some x.
Proof.
  intros Hi Hps HB Ht. destruct depth as [|depth]; [done|].
  cbn [_resolve_inherited_settings]. rewrite Hi, Hps.
  intros (m0 & parent_settings & _ & ->)%(merge_loop_last _ _ _ _ _ pB); [|done].
  by apply lookup_union_Some_l.
Qed.

Lemma converter_last_parent_wins_witness :
  ∃ merged,
    _resolve_inherited_settings 3 copy_k diamond_profiles
      [("name", Str "C"); ("inherits", Str "A; B")] = Returned merged
    ∧ merged !! "k" = Some (Str "2").
Proof.
  eexists. split; [vm_compute; reflexivity|].
  apply (converter_last_parent_wins 3 copy_k diamond_profiles
           [("name", Str "C"); ("inherits", Str "A; B")] "A; B" ["A"] "B"
           [("name", Str "B"); ("k", Str "2")] "k" (Str "2")).
  - reflexivity.
  - reflexivity.
  - reflexivity.
  - reflexivity.
  - vm_compute. reflexivity.
Defined.

Section Defaults.
Context {V : Type}.
Implicit Types profile defaults : list (string * V).

(** X28.  [apply_defaults] fills gaps and nothing else: a key of the profile
    keeps its value, a missing key gets the default of the table unless
    it is ignored, the entries of the profile stay in front and in
    order, and an unknown profile type leaves the profile as it is. *)
Theorem defaults_fill_only_gaps (defaults_map : gmap string (list (string * V)))
    profile profile_type ignored_keys :
  (defaults_map !! profile_type = None →
   apply_defaults defaults_map profile profile_type ignored_keys = profile)
  ∧ (∀ defaults, defaults_map !! profile_type = Some defaults →
       (∀ k, assoc k (apply_defaults defaults_map profile profile_type ignored_keys)
             = match assoc k profile with
               | Some v => Some v
               | None =>
                   if bool_decide (k ∈ default ∅ ignored_keys) then None
                   else assoc k defaults
               end)
       ∧ ∃ added,
           apply_defaults defaults_map profile profile_type ignored_keys
           = profile ++ added).
Proof.
  unfold apply_defaults. split; [by intros ->|].
  intros defaults ->.
  set (ds := match ignored_keys with
             | Some ignored =>
                 if bool_decide (ignored ≠ ∅)
                 then List.filter (λ kv, bool_decide (kv.1 ∉ ignored)) defaults
                 else defaults
             | None => defaults
             end).
  destruct (fill_loop ds profile) as [H1 H2]. split; [|exact H2].
  intros k. rewrite H1. destruct (assoc k profile); [done|].
  subst ds. destruct ignored_keys as [ignored|]; cbn [default from_option id].
  - case_bool_decide as Hne.
    + apply assoc_filter_keys.
    + subst ignored.
      by rewrite bool_decide_eq_false_2 by set_solver.
  - by rewrite bool_decide_eq_false_2 by set_solver.
Qed.

(** X29.  Applying the defaults a second time changes nothing. *)
Theorem defaults_idempotent (defaults_map : gmap string (list (string * V)))
    profile profile_type ignored_keys :
  apply_defaults defaults_map
    (apply_defaults defaults_map profile profile_type ignored_keys)
    profile_type ignored_keys
  = apply_defaults defaults_map profile profile_type ignored_keys.
Proof.
  unfold apply_defaults.
  destruct (defaults_map !! profile_type) as [defaults|]; [|done].
  set (ds := match ignored_keys with
             | Some ignored =>
                 if bool_decide (ignored ≠ ∅)
                 then List.filter (λ kv, bool_decide (kv.1 ∉ ignored)) defaults
                 else defaults
             | None => defaults
             end).
  apply fill_loop_same. intros k Hk.
  destruct (fill_loop ds profile) as [H1 _]. cbn zeta in H1.
  apply assoc_is_Some_keys. rewrite H1.
  destruct (assoc k profile); [done|]. by apply assoc_is_Some_keys.
Qed.

End Defaults.

Lemma defaults_fill_only_gaps_witness :
  assoc "brim_width"
    (apply_defaults small_defaults [("brim_width", "0")] "process"
       (Some {["wall_generator"]})) = Some "0"
  ∧ assoc "wall_generator"
      (apply_defaults small_defaults [("brim_width", "0")] "process"
         (Some {["wall_generator"]})) = None
  ∧ apply_defaults small_defaults [("brim_width", "0")] "filament" None
    = [("brim_width", "0")].
Proof.
  destruct (defaults_fill_only_gaps small_defaults [("brim_width", "0")]
              "process" (Some {["wall_generator"]})) as [_ H].
  destruct (H [("brim_width", "5"); ("wall_generator", "arachne")] eq_refl)
    as [Hk _].
  split_and!.
  - by rewrite Hk.
  - rewrite Hk. cbn [assoc default from_option id].
    rewrite (bool_decide_eq_false_2 ("brim_width" = "wall_generator")) by done.
    by rewrite bool_decide_eq_true_2 by set_solver.
  - by apply (defaults_fill_only_gaps small_defaults).
Defined.

(** X30.  A model id starts with [Prusa_], holds neither a blank nor a
    hyphen, and is a model id of itself. *)
Theorem model_id_shape name :
  startswith "Prusa_" (_generate_model_id name) = true
  ∧ contains " " (_generate_model_id name) = false
  ∧ contains "-" (_generate_model_id name) = false
  ∧ _generate_model_id (_generate_model_id name) = _generate_model_id name.
Proof.
  unfold _generate_model_id. cbv zeta.
  set (m := replace_char "-" "_" (replace_char " " "_" name)).
  assert (contains " " m = false) as Hb.
  { subst m. apply (replace_char_keeps " " "-" "_"); [done|].
    by apply (replace_char_gone " " "_"). }
  assert (contains "-" m = false) as Hh.
  { subst m. by apply (replace_char_gone "-" "_"). }
  assert (∀ s, contains " " s = false → contains "-" s = false →
               replace_char "-" "_" (replace_char " " "_" s) = s) as Hid.
  { intros s H1 H2. rewrite (replace_char_absent " " "_" s H1).
    by apply replace_char_absent. }
  destruct (startswith "Prusa_" m) eqn:Hp; cbn [negb].
  - split_and!; [done..|]. by rewrite Hid, Hp.
  - assert (contains " " ("Prusa_" +:+ m) = false) as Hb'.
    { change " " with (String " " ""). rewrite (contains_char_app " " "Prusa_" m).
      change (String " " "") with " ". by rewrite Hb. }
    assert (contains "-" ("Prusa_" +:+ m) = false) as Hh'.
    { change "-" with (String "-" ""). rewrite (contains_char_app "-" "Prusa_" m).
      change (String "-" "") with "-". by rewrite Hh. }
    split_and!; [apply startswith_app|done|done|].
    by rewrite Hid, startswith_app.
Qed.

End ConverterProperties.
